(** * CubeChip-SDL: a shallow embedding of the host-side assistants

    The development follows the C++ sources:

    - [Assistants/Map2D.hpp]      : [MapRow] (an owned numeric row) and
                                    [Map2D] (a row-major matrix);
    - [MemoryBanks.cpp]           : viewport, flush, palette and page
                                    operations;
    - [Assistants/FrameLimiter.cpp]: the frame pacer;
    - [HostClass/HomeDirManager.cpp]: [verifyFile] and [reset];
    - [HostClass/_FileInfo.cpp]   : the file descriptor of the host class;
    - [GuestClass/GameFileChecker.hpp]: the extension hash and the
                                    detector's error slot.

    Buffers are lists read with stdpp's lookup [l !! i] and written with
    [<[i:=x]> l]; an access outside the allocation is undefined in C++ and is
    reported here as [None].  Lengths, dimensions and indices are natural
    numbers (the constructors clamp every dimension to at least 1, and a
    buffer that exists has a product that fits its index type). *)

From Stdlib Require Import ZArith QArith Qround Lia Lqa.
From stdpp Require Import base list strings.

Local Open Scope Z_scope.
Local Open Scope nat_scope.
Local Open Scope list_scope.

(** ** Element types

    [template<typename T> requires arithmetic<T>]: the operations the row
    and matrix code applies to its elements.  [zero] is [T()], [is_zero x]
    is the test [x == 0]. *)

Class Arithmetic (T : Type) := {
  zero    : T;
  add     : T -> T -> T;
  sub     : T -> T -> T;
  mul     : T -> T -> T;
  div     : T -> T -> T;
  is_zero : T -> bool
}.

(** [requires integral<T>]: compound bit operations against an [int]
    operand, as in [elem ^= 1], [elem &= ~1], [elem |= 1]. *)

Class Integral (T : Type) := {
  and_int : T -> Z -> T;
  or_int  : T -> Z -> T;
  xor_int : T -> Z -> T
}.

(** Unsigned [w]-bit elements: a value is a [Z] in [[0, 2^w)], and every
    operation wraps its mathematical result back into that range. *)

Definition wrap (w : Z) (x : Z) : Z := (x mod 2 ^ w)%Z.

Definition unsigned_arith (w : Z) : Arithmetic Z := {|
  zero    := 0%Z;
  add x y := wrap w (x + y);
  sub x y := wrap w (x - y);
  mul x y := wrap w (x * y);
  div x y := wrap w (x ÷ y);
  is_zero x := (x =? 0)%Z
|}.

Definition unsigned_integral (w : Z) : Integral Z := {|
  and_int x v := wrap w (Z.land x v);
  or_int  x v := wrap w (Z.lor x v);
  xor_int x v := wrap w (Z.lxor x v)
|}.

(** [std::uint8_t] and [std::uint32_t]. *)
Definition u8_arith  : Arithmetic Z := unsigned_arith 8.
Definition u32_arith : Arithmetic Z := unsigned_arith 32.
Definition u8_integral  : Integral Z := unsigned_integral 8.
Definition u32_integral : Integral Z := unsigned_integral 32.

(** ** Exceptions raised by the buffer library *)

Inductive exception : Type :=
| domain_error (what : string)
| out_of_range (what : string).

(** The state a call leaves behind together with how it ended: [None] when
    the call returned, [Some e] when it threw [e]. *)
Definition outcome (S : Type) : Type := (S * option exception)%type.

(** ** MapRow ([Assistants/Map2D.hpp], [class MapRow : public std::vector<T>]) *)

Module MapRow.
Section Row.
Context {T : Type} {HA : Arithmetic T}.

(** The loop shared by the row-against-row compound operators:
<<
    const auto len{ std::min(this->size(), other.size()) };
    for (auto i{ 0 }; std::cmp_less(i, len); ++i) {
        ( *this)[i] op= other[i];
    }
>>
    [elementwise op self other i n] runs the [n] iterations that start at
    index [i]. *)
Fixpoint elementwise (op : T -> T -> T) (self other : list T) (i n : nat)
  : list T :=
  match n with
  | O => self
  | S n' =>
      match self !! i, other !! i with
      | Some x, Some y => elementwise op (<[i := op x y]> self) other (S i) n'
      | _, _ => self
      end
  end.

(** [MapRow& operator+=(const MapRow& other)]: [( *this)[i] += other[i]]. *)
Definition add_assign (self other : list T) : list T :=
  let len := min (length self) (length other) in
  elementwise add self other 0 len.

(** [MapRow& operator-=(const MapRow& other)].  The statement in the loop
    of the source is
<<
    ( *this)[i] += other[i];
>>
    and that is what is embedded here. *)
Definition sub_assign (self other : list T) : list T :=
  let len := min (length self) (length other) in
  elementwise add self other 0 len.

(** [MapRow operator-(const MapRow& other) const]: the value-returning
    sibling works on a copy, with [temp[i] -= other[i]]. *)
Definition sub_value (self other : list T) : list T :=
  let temp := self in
  let len := min (length temp) (length other) in
  elementwise sub temp other 0 len.

(** [MapRow& operator*=(const MapRow& other)]. *)
Definition mul_assign (self other : list T) : list T :=
  let len := min (length self) (length other) in
  elementwise mul self other 0 len.

(** [MapRow& operator/=(const MapRow& other)]:
<<
    for (auto i{ 0 }; std::cmp_less(i, len); ++i) {
        if (other[i] == 0) {
            throw std::domain_error("division by zero");
        } else {
            ( *this)[i] /= other[i];
        }
    }
>>
    The row is modified in place, so the elements written before the
    throw stay written. *)
Fixpoint div_loop (self other : list T) (i n : nat) : outcome (list T) :=
  match n with
  | O => (self, None)
  | S n' =>
      match self !! i, other !! i with
      | Some x, Some y =>
          if is_zero y
          then (self, Some (domain_error "division by zero"))
          else div_loop (<[i := div x y]> self) other (S i) n'
      | _, _ => (self, None)
      end
  end.

Definition div_assign (self other : list T) : outcome (list T) :=
  let len := min (length self) (length other) in
  div_loop self other 0 len.

(** [other[k] == 0] holds at index [k]. *)
Definition zero_at (other : list T) (k : nat) : Prop :=
  exists y, other !! k = Some y /\ is_zero y = true.

(** [k] is the first index below the common length with a zero divisor. *)
Definition first_zero (self other : list T) (k : nat) : Prop :=
  k < min (length self) (length other) /\ zero_at other k /\
  forall i, i < k -> ~ zero_at other i.

(** The element an in-range index holds after [a[i] op= b[i]]. *)
Definition combined (op : T -> T -> T) (self other : list T) (i : nat)
  : option T :=
  match self !! i, other !! i with
  | Some x, Some y => Some (op x y)
  | _, _ => None
  end.



End Row.
End MapRow.

(** ** Map2D ([Assistants/Map2D.hpp], [class Map2D final]) *)

Module Map2D.

(** [paramS mRows; paramS mCols; std::unique_ptr<T[]> pData;] *)
Record t (T : Type) : Type := mk {
  mRows : nat;
  mCols : nat;
  pData : list T
}.
Arguments mk {T} _ _ _.
Arguments mRows {T} _.
Arguments mCols {T} _.
Arguments pData {T} _.

Section Matrix.
Context {T : Type}.

(** [paramU size() const { return static_cast<paramU>(mRows * mCols); }] *)
Definition size (m : t T) : nat := mRows m * mCols m.

(** What every constructor establishes: both dimensions are at least 1
    ([std::max<paramS>(1, std::abs(rows))]) and the allocation holds
    [rows * cols] elements. *)
Definition wf (m : t T) : Prop :=
  1 <= mRows m /\ 1 <= mCols m /\ length (pData m) = size m.

Definition with_data (m : t T) (d : list T) : t T :=
  mk (mRows m) (mCols m) d.

(** [Map2D& wipeAll()]: [std::fill(mBegin(), mEnd(), T())]. *)
Definition wipeAll {HA : Arithmetic T} (m : t T) : t T :=
  with_data m (replicate (size m) zero).

(** [Map2D& copyLinear(const Map2D& other)]:
<<
    const auto nSize{ std::min(size(), other.size())};
    std::copy_n(other.mBegin(), nSize, mBegin());
>> *)
Definition copyLinear (self other : t T) : t T :=
  let nSize := min (size self) (size other) in
  with_data self (take nSize (pData other) ++ drop nSize (pData self)).

(** *** Row proxies and row iterators

    A [RowProxy] is a pointer into the buffer and a length; here the
    pointer is the offset [begin] of the row in [pData].  A [RowIterator]
    is a [RowProxy] that [++] moves forward by its own length. *)

(** [std::copy(src + s, src + s + n, dst + d)] between two allocations;
    leaving either allocation is undefined. *)
Fixpoint copy_range (src : list T) (s : nat) (dst : list T) (d n : nat)
  : option (list T) :=
  match n with
  | O => Some dst
  | S n' =>
      match src !! s with
      | Some x =>
          if decide (d < length dst)
          then copy_range src (S s) (<[d := x]> dst) (S d) n'
          else None
      | None => None
      end
  end.

(** *** Whole-matrix row loops

    [for (T& elem : row) elem = f(elem)] over the [n] elements of a row
    that starts at offset [i]. *)
Fixpoint row_each (f : T -> T) (data : list T) (i n : nat)
  : option (list T) :=
  match n with
  | O => Some data
  | S n' =>
      match data !! i with
      | Some x => row_each f (<[i := f x]> data) (S i) n'
      | None => None
      end
  end.

(** [for (auto& row : matrix) row op= value]: the row iterator starts at
    [mBegin()], advances by [mCols] and stops when it equals [mEnd()]. *)
Fixpoint each_row (f : T -> T) (cols last : nat) (data : list T)
    (first fuel : nat) : option (list T) :=
  if decide (first = last) then Some data else
  match fuel with
  | O => None
  | S fuel' =>
      match row_each f data first cols with
      | Some data' => each_row f cols last data' (first + cols) fuel'
      | None => None
      end
  end.

Definition rows_apply (f : T -> T) (m : t T) : option (t T) :=
  match each_row f (mCols m) (size m) (pData m) 0 (S (size m)) with
  | Some d => Some (with_data m d)
  | None => None
  end.

(** *** Transpose
<<
    Map2D& transpose() {
        if (std::cmp_greater(mRows, 1) || std::cmp_greater(mCols, 1)) {
            for (paramU a{ 1 }, b{ 1 }; std::cmp_less(a, size() - 1); b = ++a) {
                do {
                    b = (b % mRows) * mCols + (b / mRows);
                } while (std::cmp_less(b, a));
                if (b != a) std::iter_swap(mBegin() + a, mBegin() + b);
            }
        }
        std::swap(mRows, mCols);
        return *this;
    }
>> *)

(** [b = (b % mRows) * mCols + (b / mRows)] *)
Definition successor (rows cols b : nat) : nat :=
  (b mod rows) * cols + b / rows.

(** The [do ... while (b < a)] loop; [None] when [fuel] iterations did not
    leave it. *)
Fixpoint follow (rows cols a b fuel : nat) : option nat :=
  match fuel with
  | O => None
  | S fuel' =>
      let b' := successor rows cols b in
      if decide (b' < a) then follow rows cols a b' fuel' else Some b'
  end.

(** [std::iter_swap(mBegin() + a, mBegin() + b)] *)
Definition iter_swap (data : list T) (a b : nat) : option (list T) :=
  match data !! a, data !! b with
  | Some x, Some y => Some (<[b := x]> (<[a := y]> data))
  | _, _ => None
  end.

(** [n] iterations of the outer [for], the first one at index [a]. *)
Fixpoint transpose_loop (rows cols : nat) (data : list T) (a n : nat)
  : option (list T) :=
  match n with
  | O => Some data
  | S n' =>
      match follow rows cols a a (rows * cols) with
      | Some b =>
          match (if decide (b = a) then Some data else iter_swap data a b) with
          | Some data' => transpose_loop rows cols data' (S a) n'
          | None => None
          end
      | None => None
      end
  end.

(** The outer loop runs for [a = 1 .. size() - 2]. *)
Definition transpose (m : t T) : option (t T) :=
  let data :=
    if decide (1 < mRows m \/ 1 < mCols m)
    then transpose_loop (mRows m) (mCols m) (pData m) 1 (size m - 1 - 1)
    else Some (pData m) in
  match data with
  | Some d => Some (mk (mCols m) (mRows m) d)
  | None => None
  end.

(** *** Vocabulary for the correctness of [transpose]

    [first_return rows cols a t]: [t] is the first time the orbit of [a]
    under [successor] is back at or above [a]; this is the index at which
    the [do ... while] loop stops. *)
Definition first_return (rows cols a t : nat) : Prop :=
  1 <= t /\ a <= Nat.iter t (successor rows cols) a /\
  forall t', 1 <= t' < t -> Nat.iter t' (successor rows cols) a < a.

(** The index permutation of one [iter_swap]. *)
Definition swap_idx (a b j : nat) : nat :=
  if decide (j = a) then b else if decide (j = b) then a else j.

(** [arranged rows cols a σ]: the state of the buffer when the outer loop
    reaches index [a], where [σ j] is the original index of the element now
    at [j].  Indices below [a] hold their final element; an index [j] from
    [a] on holds the element whose orbit first reaches [[a, size)] at [j]. *)
Definition arranged (rows cols a : nat) (σ : nat -> nat) : Prop :=
  (forall i, i < a -> i < rows * cols -> σ i = successor rows cols i) /\
  (forall j, a <= j < rows * cols ->
     exists m, Nat.iter m (successor rows cols) (σ j) = j /\
       forall m', m' < m -> Nat.iter m' (successor rows cols) (σ j) < a) /\
  (forall j, j < rows * cols -> σ j < rows * cols) /\
  (forall x y, x < rows * cols -> y < rows * cols -> σ x = σ y -> x = y).

(** [d] is the original buffer [o] read through [σ]. *)
Definition holds (rows cols : nat) (o d : list T) (σ : nat -> nat) : Prop :=
  length d = rows * cols /\ forall j, j < rows * cols -> d !! j = o !! σ j.

(** Every element of the allocation is [T()]. *)
Definition zeroed {HA : Arithmetic T} (m : t T) : Prop :=
  forall i, i < size m -> pData m !! i = Some zero.

Definition same_shape (m m' : t T) : Prop :=
  mRows m' = mRows m /\ mCols m' = mCols m.

(** The rows of a matrix, for display: [rows m] cuts [pData] into [mRows]
    chunks of [mCols] elements. *)
Fixpoint chunks (cols : nat) (data : list T) (n : nat) : list (list T) :=
  match n with
  | O => []
  | S n' => take cols data :: chunks cols (drop cols data) n'
  end.

Definition rows (m : t T) : list (list T) :=
  chunks (mCols m) (pData m) (mRows m).

(** *** Row proxies: directional operations

    A [RowProxy] views the [mLength] elements of one row; below, a row is
    the list of those elements and [mLength] is its length.  The signed
    parameters ([cols], [col]) are integers. *)

(** [std::rotate(first, first + k, last)]: the elements from [k] on come
    first, followed by the first [k]. *)
Definition std_rotate (k : nat) (l : list T) : list T :=
  drop k l ++ take k l.

(** [RowProxy& wipeAll()]: [std::fill(begin(), end(), T())]. *)
Definition row_wipeAll {HA : Arithmetic T} (row : list T) : list T :=
  replicate (length row) zero.

(** [RowProxy& wipe(cols)]:
<<
    if (std::cmp_greater_equal(std::abs(cols), mLength)) {
        wipeAll();
    } else if (std::cmp_not_equal(cols, 0)) {
        if (std::cmp_less(cols, 0)) {
            std::fill(end() - std::abs(cols), end(), T());
        } else {
            std::fill(begin(), begin() + std::abs(cols), T());
        }
    }
>> *)
Definition row_wipe {HA : Arithmetic T} (cols : Z) (row : list T) : list T :=
  let n := Z.to_nat (Z.abs cols) in
  if (Z.of_nat (length row) <=? Z.abs cols)%Z then row_wipeAll row
  else if (cols =? 0)%Z then row
  else if (cols <? 0)%Z then take (length row - n) row ++ replicate n zero
  else replicate n zero ++ drop n row.

(** [RowProxy& rotate(cols)]:
<<
    if (std::cmp_not_equal(cols, 0)) {
        if (std::cmp_less(cols, 0)) {
            std::rotate(begin(), begin() + std::abs(cols) % mLength, end());
        } else {
            std::rotate(begin(), end() - std::abs(cols) % mLength, end());
        }
    }
>>
    On an empty row [% mLength] divides by zero: [None]. *)
Definition row_rotate (cols : Z) (row : list T) : option (list T) :=
  if (cols =? 0)%Z then Some row
  else if decide (length row = 0) then None
  else
    let k := Z.to_nat (Z.abs cols mod Z.of_nat (length row)) in
    if (cols <? 0)%Z then Some (std_rotate k row)
    else Some (std_rotate (length row - k) row).

(** [RowProxy& shift(cols)]:
<<
    if (std::cmp_less(std::abs(cols), mLength)) {
        rotate(cols);
    }
    return wipe(cols);
>> *)
Definition row_shift {HA : Arithmetic T} (cols : Z) (row : list T)
  : option (list T) :=
  if (Z.abs cols <? Z.of_nat (length row))%Z then
    match row_rotate cols row with
    | Some rotated => Some (row_wipe cols rotated)
    | None => None
    end
  else Some (row_wipe cols row).

(** [RowProxy& reverse()]: [std::reverse(begin(), end())]. *)
Definition row_reverse (row : list T) : list T := reverse row.

(** The bounds checker shared by the checked accessors, for an axis of
    [len] entries:
<<
    if (std::cmp_less(col, -mLength) || std::cmp_greater_equal(col, mLength)) {
        throw std::out_of_range("column index out of range");
    }
    if (std::cmp_less(col, 0)) {
        return static_cast<paramS>(col + mLength);
    } else {
        return static_cast<paramS>(col);
    }
>> *)
Definition check_bounds (what : string) (len : nat) (idx : Z)
  : exception + nat :=
  if ((idx <? - Z.of_nat len) || (Z.of_nat len <=? idx))%Z
  then inl (out_of_range what)
  else if (idx <? 0)%Z then inr (Z.to_nat (idx + Z.of_nat len))
  else inr (Z.to_nat idx).

(** [RowProxy::checkColBounds(col)] *)
Definition row_checkColBounds (row : list T) (col : Z) : exception + nat :=
  check_bounds "column index out of range" (length row) col.

(** [RowProxy::at(col)]: [*(begin() + checkColBounds(col))]. *)
Definition row_at (row : list T) (col : Z) : exception + option T :=
  match row_checkColBounds row col with
  | inl e => inl e
  | inr c => inr (row !! c)
  end.

(** *** Matrix construction and checked access *)

(** [Map2D(rows, cols)]: a [std::max(1, std::abs(rows))] by
    [std::max(1, std::abs(cols))] matrix over
    [std::make_unique<T[]>(rows * cols)], which value-initialises every
    element. *)
Definition construct {HA : Arithmetic T} (rows cols : Z) : t T :=
  let r := Z.to_nat (Z.max 1 (Z.abs rows)) in
  let c := Z.to_nat (Z.max 1 (Z.abs cols)) in
  mk r c (replicate (r * c) zero).

(** [Map2D()] is [Map2D{ 1, 1 }]. *)
Definition construct_default {HA : Arithmetic T} : t T :=
  mk 1 1 (replicate (1 * 1) zero).

(** [at_raw(row, col)]: [pData.get()[row * mCols + col]]. *)
Definition at_raw (m : t T) (row col : nat) : option T :=
  pData m !! (row * mCols m + col).

(** [Map2D::checkRowBounds(row)] and [Map2D::checkColBounds(col)]. *)
Definition checkRowBounds (m : t T) (row : Z) : exception + nat :=
  check_bounds "row index out of range" (mRows m) row.

Definition checkColBounds (m : t T) (col : Z) : exception + nat :=
  check_bounds "column index out of range" (mCols m) col.

(** [at(row, col)]: [at_raw(checkRowBounds(row), checkColBounds(col))].
    The row is checked first here; C++ leaves the order of the two checks
    open, which only matters for the message when both are out of range. *)
Definition at_checked (m : t T) (row col : Z) : exception + option T :=
  match checkRowBounds m row with
  | inl e => inl e
  | inr r =>
      match checkColBounds m col with
      | inl e => inl e
      | inr c => inr (at_raw m r c)
      end
  end.

(** [negmod(lhs, rhs)]: the remainder of the truncating [%], moved into
    [[0, rhs)] when it is negative. *)
Definition negmod (lhs rhs : Z) : Z :=
  let _mod := Z.rem lhs rhs in
  if (_mod <? 0)%Z then (_mod + rhs)%Z else _mod.

(** The region a directional wipe of [cols] clears on an axis of [len]
    entries: the first [cols] indices when [cols] is positive, the last
    [-cols] when it is negative. *)
Definition in_wiped (cols : Z) (len i : nat) : Prop :=
  (0 < cols /\ Z.of_nat i < cols)%Z \/
  (cols < 0 /\ Z.of_nat len + cols <= Z.of_nat i)%Z.

(** *** Resizing *)

(** [resizeWipe(rows, cols)]: the new dimensions over a fresh,
    value-initialised allocation of [size()] elements. *)
Definition resizeWipe {HA : Arithmetic T} (rows cols : nat) (m : t T) : t T :=
  mk rows cols (replicate (rows * cols) zero).

(** [n] iterations, the first for [row], of the loop of [resizeCopy]:
<<
    for (auto row{ 0 }; std::cmp_less(row, minRows); ++row) {
        const auto srcIdx{ pData.get() + row * mCols };
        const auto dstIdx{ pCopy.get() + row * cols };
        std::move(srcIdx, srcIdx + minCols, dstIdx);
    }
>> *)
Fixpoint resizeCopy_loop (src : list T) (mCols0 : nat) (pCopy : list T)
    (cols minCols : nat) (row n : nat) : option (list T) :=
  match n with
  | O => Some pCopy
  | S n' =>
      match copy_range src (row * mCols0) pCopy (row * cols) minCols with
      | Some pCopy' =>
          resizeCopy_loop src mCols0 pCopy' cols minCols (S row) n'
      | None => None
      end
  end.

(** [resizeCopy(rows, cols)]: the rectangle common to the old and the new
    shape is moved into a fresh value-initialised allocation. *)
Definition resizeCopy {HA : Arithmetic T} (rows cols : nat) (m : t T)
  : option (t T) :=
  let minRows := min rows (mRows m) in
  let minCols := min cols (mCols m) in
  let pCopy := replicate (rows * cols) zero in
  match resizeCopy_loop (pData m) (mCols m) pCopy cols minCols 0 minRows with
  | Some d => Some (mk rows cols d)
  | None => None
  end.

(** [resize(choice_copy, rows, cols)]:
<<
    auto nRows{ static_cast<paramS>(std::abs(rows)) };
    auto nCols{ static_cast<paramS>(std::abs(cols)) };
    if (std::cmp_equal(nRows, 0)) nRows = mRows;
    if (std::cmp_equal(nCols, 0)) nCols = mCols;
    if (nRows == mRows && nCols == mCols) {
        if (choice_copy) { return *this; } else { return wipeAll(); }
    } else {
        if (choice_copy) { return resizeCopy(nRows, nCols); }
        else             { return resizeWipe(nRows, nCols); }
    }
>> *)
Definition resize {HA : Arithmetic T} (choice_copy : bool) (rows cols : Z)
    (m : t T) : option (t T) :=
  let nRows := Z.to_nat (Z.abs rows) in
  let nCols := Z.to_nat (Z.abs cols) in
  let nRows := if decide (nRows = 0) then mRows m else nRows in
  let nCols := if decide (nCols = 0) then mCols m else nCols in
  if decide (nRows = mRows m /\ nCols = mCols m) then
    if choice_copy then Some m else Some (wipeAll m)
  else
    if choice_copy then resizeCopy nRows nCols m
    else Some (resizeWipe nRows nCols m).

(** *** Row loops with a row operation

    [for (auto& row : *this) row.op(...)]: the row iterator starts at
    [mBegin()], views [mCols] elements, advances by [mCols] and stops when
    it equals [mEnd()]; [op] rewrites the viewed elements. *)
Fixpoint each_row_op (op : list T -> option (list T)) (cols last : nat)
    (data : list T) (first fuel : nat) : option (list T) :=
  if decide (first = last) then Some data else
  match fuel with
  | O => None
  | S fuel' =>
      match op (take cols (drop first data)) with
      | Some row' =>
          each_row_op op cols last
            (take first data ++ row' ++ drop (first + cols) data)
            (first + cols) fuel'
      | None => None
      end
  end.

Definition rows_op (op : list T -> option (list T)) (m : t T)
  : option (list T) :=
  each_row_op op (mCols m) (size m) (pData m) 0 (S (size m)).

(** *** Directional operations on the matrix *)

(** [Map2D& wipe(rows, cols)]:
<<
    if (std::cmp_greater_equal(std::abs(rows), mRows)
     || std::cmp_greater_equal(std::abs(cols), mCols)) {
        wipeAll();
    } else {
        if (std::cmp_not_equal(rows, 0)) {
            if (std::cmp_less(rows, 0)) {
                std::fill(mEnd() + rows * mCols, mEnd(), T());
            } else {
                std::fill(mBegin(), mBegin() + rows * mCols, T());
            }
        }
        if (std::cmp_not_equal(cols, 0)) {
            for (auto& row : *this) { row.wipe(cols); }
        }
    }
>> *)
Definition wipe {HA : Arithmetic T} (rows cols : Z) (m : t T)
  : option (t T) :=
  if ((Z.of_nat (mRows m) <=? Z.abs rows)
      || (Z.of_nat (mCols m) <=? Z.abs cols))%Z
  then Some (wipeAll m)
  else
    let n := Z.to_nat (Z.abs rows) * mCols m in
    let data :=
      if (rows =? 0)%Z then pData m
      else if (rows <? 0)%Z
           then take (size m - n) (pData m) ++ replicate n zero
           else replicate n zero ++ drop n (pData m) in
    if (cols =? 0)%Z then Some (with_data m data)
    else
      match rows_op (fun row => Some (row_wipe cols row)) (with_data m data) with
      | Some d => Some (with_data m d)
      | None => None
      end.

(** [Map2D& rotate(rows, cols)]:
<<
    if (std::abs(rows) % mRows) {
        if (std::cmp_less(rows, 0)) {
            std::rotate(mBegin(), mBegin() - rows * mCols, mEnd());
        } else {
            std::rotate(mBegin(), mEnd() - rows * mCols, mEnd());
        }
    }
    if (std::abs(cols) % mCols) {
        for (auto& row : *this) { row.rotate(cols); }
    }
>>
    The middle iterator of the vertical rotation is [|rows| * mCols] away
    from an end of the buffer; it is outside the buffer, and the call
    undefined, once [|rows|] exceeds [mRows]. *)
Definition rotate (rows cols : Z) (m : t T) : option (t T) :=
  if decide (mRows m = 0 \/ mCols m = 0) then None else
  let n := Z.to_nat (Z.abs rows) * mCols m in
  let vertical :=
    if decide (Z.abs rows mod Z.of_nat (mRows m) <> 0)%Z then
      if decide (n <= size m) then
        if (rows <? 0)%Z then Some (std_rotate n (pData m))
        else Some (std_rotate (size m - n) (pData m))
      else None
    else Some (pData m) in
  match vertical with
  | Some data =>
      if decide (Z.abs cols mod Z.of_nat (mCols m) <> 0)%Z then
        match rows_op (row_rotate cols) (with_data m data) with
        | Some d => Some (with_data m d)
        | None => None
        end
      else Some (with_data m data)
  | None => None
  end.

(** [Map2D& shift(rows, cols)]:
<<
    if (std::cmp_less(std::abs(rows), mRows)
     && std::cmp_less(std::abs(cols), mCols)) {
        rotate(rows, cols);
    }
    return wipe(rows, cols);
>> *)
Definition shift {HA : Arithmetic T} (rows cols : Z) (m : t T)
  : option (t T) :=
  if ((Z.abs rows <? Z.of_nat (mRows m))
      && (Z.abs cols <? Z.of_nat (mCols m)))%Z
  then
    match rotate rows cols m with
    | Some m' => wipe rows cols m'
    | None => None
    end
  else wipe rows cols m.

(** *** Reversals *)

(** [Map2D& reverse()]: [std::reverse(mBegin(), mEnd())]. *)
Definition reverse_all (m : t T) : t T :=
  with_data m (reverse (pData m)).

(** [RowProxy::swap(other)] between the rows at offsets [a] and [b] of one
    buffer, both of [len] elements:
    [std::swap_ranges(begin(), end(), other.begin())]. *)
Definition swap_rows (data : list T) (a b len : nat) : list T :=
  let row_a := take len (drop a data) in
  let row_b := take len (drop b data) in
  let data := take a data ++ row_b ++ drop (a + len) data in
  take b data ++ row_a ++ drop (b + len) data.

(** [n] iterations, the first for [row], of the loop of [reverseY]:
<<
    for (auto row{ 0 }; std::cmp_less(row, mRows / 2); ++row) {
        ( *this)[row].swap(( *this)[mRows - row - 1]);
    }
>> *)
Fixpoint reverseY_loop (nrows cols : nat) (data : list T) (row n : nat)
  : list T :=
  match n with
  | O => data
  | S n' =>
      reverseY_loop nrows cols
        (swap_rows data (row * cols) ((nrows - row - 1) * cols) cols)
        (S row) n'
  end.

Definition reverseY (m : t T) : t T :=
  with_data m (reverseY_loop (mRows m) (mCols m) (pData m) 0 (mRows m / 2)).

(** [Map2D& reverseX()]:
    [for (auto& row : *this) std::reverse(row.begin(), row.end())]. *)
Definition reverseX (m : t T) : option (t T) :=
  match rows_op (fun row => Some (reverse row)) m with
  | Some d => Some (with_data m d)
  | None => None
  end.

(** The elements [operator[](row)] views: row [r] of the matrix. *)
Definition row_of (m : t T) (r : nat) : list T :=
  take (mCols m) (drop (r * mCols m) (pData m)).

(** *** Views

    A view is a [Map2D<const T*>]: its elements point at elements of a
    base matrix.  A pointer into the base is the index of the element it
    points at, and [None] is the null pointer of a fresh allocation. *)

(** The inner loop of [setView], [n] iterations from column [x] of view
    row [y]:
<<
    for (paramS x{}; std::cmp_less(x, mCols); ++x) {
        const auto offsetX{ negmod(x + posX, base->lenX()) };
        at_raw(y, x) = &base->at_raw(offsetY, offsetX);
    }
>> *)
Fixpoint setView_cols (base : t T) (posX : Z) (offsetY : Z) (vCols : nat)
    (data : list (option nat)) (y x n : nat) : list (option nat) :=
  match n with
  | O => data
  | S n' =>
      let offsetX := negmod (Z.of_nat x + posX) (Z.of_nat (mCols base)) in
      setView_cols base posX offsetY vCols
        (<[y * vCols + x :=
             Some (Z.to_nat offsetY * mCols base + Z.to_nat offsetX)]> data)
        y (S x) n'
  end.

(** The outer loop, [n] iterations from view row [y]:
<<
    for (paramS y{}; std::cmp_less(y, mRows); ++y) {
        const auto offsetY{ negmod(y + posY, base->lenY()) };
        ...
    }
>> *)
Fixpoint setView_rows (base : t T) (posY posX : Z) (vCols : nat)
    (data : list (option nat)) (y n : nat) : list (option nat) :=
  match n with
  | O => data
  | S n' =>
      let offsetY := negmod (Z.of_nat y + posY) (Z.of_nat (mRows base)) in
      setView_rows base posY posX vCols
        (setView_cols base posX offsetY vCols data y 0 vCols)
        (S y) n'
  end.

(** [Map2D& setView(base, rows, cols, posY, posX)]:
<<
    mRows = std::cmp_equal(rows, 0) ? mRows : static_cast<paramS>(std::abs(rows));
    mCols = std::cmp_equal(cols, 0) ? mRows : static_cast<paramS>(std::abs(cols));
    resizeWipe(mRows, mCols);
    for (...) { ... }
>>
    (for [cols == 0] the source takes [mRows], just assigned). *)
Definition setView (base : t T) (rows cols posY posX : Z)
    (self : t (option nat)) : t (option nat) :=
  let vRows := if (rows =? 0)%Z then mRows self else Z.to_nat (Z.abs rows) in
  let vCols := if (cols =? 0)%Z then vRows else Z.to_nat (Z.abs cols) in
  mk vRows vCols
     (setView_rows base posY posX vCols
        (replicate (vRows * vCols) None) 0 vRows).

(** [makeView(rows, cols, posY, posX) const]:
<<
    const auto nRows{ std::cmp_equal(rows, 0) ? mRows : static_cast<paramS>(std::abs(rows)) };
    const auto nCols{ std::cmp_equal(cols, 0) ? mCols : static_cast<paramS>(std::abs(cols)) };
    Map2D<const T*> obj;
    return obj.setView(this, nRows, nCols, posY, posX);
>> *)
Definition makeView (m : t T) (rows cols posY posX : Z) : t (option nat) :=
  let nRows := if (rows =? 0)%Z then Z.of_nat (mRows m) else Z.abs rows in
  let nCols := if (cols =? 0)%Z then Z.of_nat (mCols m) else Z.abs cols in
  let obj := mk 1 1 (replicate (1 * 1) None) in
  setView m nRows nCols posY posX obj.

(** What a view cell holds after dereferencing its pointer. *)
Definition view_cell (base : t T) (view : t (option nat)) (y x : nat)
  : option T :=
  match pData view !! (y * mCols view + x) with
  | Some (Some idx) => pData base !! idx
  | _ => None
  end.

(** *** Unchecked row access *)

(** [operator[](row)] followed by an operation on the row proxy it
    returns, [RowProxy(mBegin() + row * mCols, mCols)]: [op] rewrites the
    [mCols] elements from [row * mCols] on.  The assertion on [row] is
    compiled in debug builds only; [None] is a proxy that leaves the
    allocation. *)
Definition row_op_at (op : list T -> list T) (row : nat) (m : t T)
  : option (t T) :=
  let first := row * mCols m in
  if decide (first + mCols m <= length (pData m)) then
    Some (with_data m
            (take first (pData m)
             ++ op (take (mCols m) (drop first (pData m)))
             ++ drop (first + mCols m) (pData m)))
  else None.

End Matrix.
End Map2D.

(** ** MemoryBanks ([MemoryBanks.cpp]) *)

Module MemoryBanks.

(** [enum class BrushType] as used by [modifyViewport]. *)
Inductive BrushType : Type := CLR | XOR | SUB | ADD.

(** The parts of [VM_Guest] the manager reads through its [vm] pointer:
    [vm->State.xochip_color], [vm->Plane.selected] and the program-memory
    reader [vm->mrw(address)]. *)
Record VM_Guest : Type := mkGuest {
  xochip_color   : bool;
  plane_selected : Z;
  mrw            : Z -> Z
}.

(** The buffers of the manager.  [P], [C] and [K] are the element types of
    the display planes, of the two composite buffers and of the collision
    buffer; palette entries are 32-bit values. *)
Record t (P C K : Type) : Type := mk {
  displayBuffer    : list (Map2D.t P);
  foregroundBuffer : Map2D.t C;
  backgroundBuffer : Map2D.t C;
  collisionPalette : Map2D.t K;
  megaPalette      : list Z
}.
Arguments mk {P C K} _ _ _ _ _.
Arguments displayBuffer {P C K} _.
Arguments foregroundBuffer {P C K} _.
Arguments backgroundBuffer {P C K} _.
Arguments collisionPalette {P C K} _.
Arguments megaPalette {P C K} _.

Section Banks.
Context {P C K : Type}.
Context {HP : Arithmetic P} {HI : Integral P} {HC : Arithmetic C} {HK : Arithmetic K}.

(** [VM_Guest::flushDisplay] is defined outside these sources; it acts on
    the guest. *)
Variable flushDisplay : VM_Guest -> VM_Guest.

(** The [switch (type)] applied to one selected plane:
<<
    case BrushType::CLR: vm->Mem->displayBuffer[P].wipeAll(); break;
    case BrushType::XOR: for (auto& row : displayBuffer[P]) row ^= 1; break;
    case BrushType::SUB: for (auto& row : displayBuffer[P]) row &= ~1; break;
    case BrushType::ADD: for (auto& row : displayBuffer[P]) row |= 1; break;
>>
    ([vm->Mem] is this manager.) *)
Definition brush (type : BrushType) (plane : Map2D.t P)
  : option (Map2D.t P) :=
  match type with
  | CLR => Some (Map2D.wipeAll plane)
  | XOR => Map2D.rows_apply (fun elem => xor_int elem 1) plane
  | SUB => Map2D.rows_apply (fun elem => and_int elem (Z.lnot 1)) plane
  | ADD => Map2D.rows_apply (fun elem => or_int elem 1) plane
  end.

(** [for (auto P{ 0 }; std::cmp_less(P, 4); ++P)
       if (std::cmp_not_equal(vm->Plane.selected & (1 << P), 0)) ...] *)
Fixpoint planes_loop (type : BrushType) (selected : Z)
    (db : list (Map2D.t P)) (p n : nat) : option (list (Map2D.t P)) :=
  match n with
  | O => Some db
  | S n' =>
      if decide (Z.land selected (Z.shiftl 1 (Z.of_nat p)) <> 0%Z) then
        match db !! p with
        | Some plane =>
            match brush type plane with
            | Some plane' => planes_loop type selected (<[p := plane']> db) (S p) n'
            | None => None
            end
        | None => None
        end
      else planes_loop type selected db (S p) n'
  end.

Definition with_display (mb : t P C K) (db : list (Map2D.t P)) : t P C K :=
  mk db (foregroundBuffer mb) (backgroundBuffer mb)
     (collisionPalette mb) (megaPalette mb).

(** [void MemoryBanks::modifyViewport(const BrushType type)] *)
Definition modifyViewport (type : BrushType) (vm : VM_Guest) (mb : t P C K)
  : option (t P C K) :=
  if negb (xochip_color vm) then
    match displayBuffer mb !! 0 with
    | Some plane0 =>
        Some (with_display mb (<[0 := Map2D.wipeAll plane0]> (displayBuffer mb)))
    | None => None
    end
  else
    match planes_loop type (plane_selected vm) (displayBuffer mb) 0 4 with
    | Some db => Some (with_display mb db)
    | None => None
    end.

(** [void MemoryBanks::flushBuffers(const bool firstFlush)]:
<<
    if (firstFlush) {
        for (auto& elem : megaPalette) { elem = {}; }
    } else {
        foregroundBuffer.copyLinear(backgroundBuffer);
    }
    backgroundBuffer.wipeAll();
    collisionPalette.wipeAll();
    vm->flushDisplay();
>> *)
Definition flushBuffers (firstFlush : bool) (vm : VM_Guest) (mb : t P C K)
  : t P C K * VM_Guest :=
  let palette :=
    if firstFlush then (fun _ => 0%Z) <$> megaPalette mb
    else megaPalette mb in
  let foreground :=
    if firstFlush then foregroundBuffer mb
    else Map2D.copyLinear (foregroundBuffer mb) (backgroundBuffer mb) in
  (mk (displayBuffer mb) foreground
      (Map2D.wipeAll (backgroundBuffer mb))
      (Map2D.wipeAll (collisionPalette mb))
      palette,
   flushDisplay vm).




(** *** Vocabulary of the statements *)

(** Bit [p] of the plane mask. *)
Definition plane_is_selected (selected : Z) (p : nat) : bool :=
  Z.testbit selected (Z.of_nat p).

(** What a viewport operation does to one element. *)
Definition paint (type : BrushType) (elem : P) : P :=
  match type with
  | CLR => zero
  | XOR => xor_int elem 1
  | SUB => and_int elem (Z.lnot 1)
  | ADD => or_int elem 1
  end.

(** A plane with the operation applied to every element. *)
Definition painted (type : BrushType) (plane : Map2D.t P) : Map2D.t P :=
  Map2D.with_data plane (paint type <$> Map2D.pData plane).




(** [void MemoryBanks::clearPages(std::uint32_t H)]:
<<
    while (std::cmp_less(H++, vm->Plane.H)) {
        displayBuffer[0][H].wipeAll();
    }
>>
    [planeH] is the value of [vm->Plane.H]; [H] is compared before and
    used after its increment, which wraps at 32 bits. *)
Fixpoint clearPages_loop (planeH : Z) (plane : Map2D.t P) (H : Z)
    (fuel : nat) : option (Map2D.t P) :=
  if decide (H < planeH)%Z then
    match fuel with
    | O => None
    | S fuel' =>
        let H' := wrap 32 (H + 1) in
        match Map2D.row_op_at Map2D.row_wipeAll (Z.to_nat H') plane with
        | Some plane' => clearPages_loop planeH plane' H' fuel'
        | None => None
        end
    end
  else Some plane.

Definition clearPages (H : Z) (planeH : Z) (mb : t P C K)
  : option (t P C K) :=
  if decide (H < planeH)%Z then
    match displayBuffer mb !! 0 with
    | Some plane =>
        match clearPages_loop planeH plane H (Z.to_nat (planeH - H)) with
        | Some plane' =>
            Some (with_display mb (<[0 := plane']> (displayBuffer mb)))
        | None => None
        end
    | None => None
    end
  else Some mb.

End Banks.

(** The elements of a plane of unsigned [w]-bit elements are in range. *)
Definition in_range (w : Z) (plane : Map2D.t Z) : Prop :=
  Forall (fun e => (0 <= e < 2 ^ w)%Z) (Map2D.pData plane).

(** *** A small session, for examples: 8-bit planes and collision buffer,
    32-bit composite buffers of two pixels, a palette of four entries, and
    a program memory whose byte at [a] is [a mod 256]. *)

Definition sample_guest : VM_Guest :=
  mkGuest true 5 (fun address => (address mod 256)%Z).

Definition sample_banks : t Z Z Z :=
  mk [Map2D.mk 1 2 [1; 0]; Map2D.mk 1 2 [0; 1];
      Map2D.mk 1 2 [1; 1]; Map2D.mk 1 2 [0; 0]]%Z
     (Map2D.mk 1 2 [1; 2]%Z)
     (Map2D.mk 1 2 [7; 8]%Z)
     (Map2D.mk 1 2 [1; 1]%Z)
     [9; 9; 9; 9]%Z.

End MemoryBanks.

(** ** FrameLimiter ([Assistants/FrameLimiter.cpp])

    Times are in milliseconds.  A finite [double] is modelled by the
    rational it denotes, and the quotient, sum and difference that the
    code rounds to the nearest double are taken exactly.  Comparisons and
    [std::fmod] are exact on doubles.  The statements about the pacer are
    kept to what rounding to nearest preserves: order and bounds (a
    rounded sum compares with the period as the exact sum does, unless it
    rounds onto the period itself), values that are exact in binary, the
    relation [std::fmod] establishes, the flags and the counter; none says
    that a stored period, sum or difference equals its exact value. *)

Module FrameLimiter.

Record t : Type := mk {
  initTimeCheck : bool;
  skipFirstPass : bool;
  skipLostFrame : bool;
  timeFrequency : Q;
  timeOvershoot : Q;
  timeVariation : Q;
  timePastFrame : Q;
  validFrameCnt : Z
}.

(** The three places where [isValidFrame] reads [steady_clock::now()]. *)
Record clock : Type := mkClock {
  now_init  : Q;
  now_check : Q;
  now_stamp : Q
}.

(** All members are value-initialised ([{}]). *)
Definition fresh : t := mk false false false 0 0 0 0 0.

Definition Qltb (x y : Q) : bool := negb (Qle_bool y x).

(** [std::clamp(v, lo, hi)] is [(v < lo) ? lo : (hi < v) ? hi : v]. *)
Definition clamp (v lo hi : Q) : Q :=
  if Qltb v lo then lo else if Qltb hi v then hi else v.

(** Rounding toward zero. *)
Definition Qtruncate (x : Q) : Z :=
  if Qltb x 0 then Qceiling x else Qfloor x.

(** [std::fmod(x, y)] is [x - n * y] with [n] the quotient [x / y]
    truncated toward zero. *)
Definition fmod (x y : Q) : Q :=
  (x - inject_Z (Qtruncate (x / y)) * y)%Q.

(** [void FrameLimiter::setFreq(framerate, firstpass, lostframe)] *)
Definition setFreq (framerate : Q) (firstpass lostframe : bool) (s : t) : t :=
  mk (initTimeCheck s) firstpass lostframe
     (1000 / clamp framerate (1 # 2) 1000)%Q
     (timeOvershoot s) (timeVariation s) (timePastFrame s) (validFrameCnt s).

(** [FrameLimiter::FrameLimiter(framerate, firstpass, lostframe)] *)
Definition construct (framerate : Q) (firstpass lostframe : bool) : t :=
  setFreq framerate firstpass lostframe fresh.

(** [++validFrameCnt] on a [std::uint64_t]. *)
Definition next_count (n : Z) : Z := wrap 64 (n + 1).

(** [bool FrameLimiter::isValidFrame()] *)
Definition isValidFrame (c : clock) (s : t) : bool * t :=
  let past := if initTimeCheck s then timePastFrame s else now_init c in
  if skipFirstPass s then
    (true,
     mk true false (skipLostFrame s) (timeFrequency s) (timeOvershoot s)
        (timeVariation s) past (next_count (validFrameCnt s)))
  else
    let variation := (timeOvershoot s + (now_check c - past))%Q in
    if Qltb variation (timeFrequency s) then
      (false,
       mk true false (skipLostFrame s) (timeFrequency s) (timeOvershoot s)
          variation past (validFrameCnt s))
    else
      let overshoot :=
        if skipLostFrame s then fmod variation (timeFrequency s)
        else (variation - timeFrequency s)%Q in
      (true,
       mk true false (skipLostFrame s) (timeFrequency s) overshoot
          variation (now_stamp c) (next_count (validFrameCnt s))).

(** What a client does with a pacer after constructing it. *)
Inductive call : Type :=
| CheckFrame (c : clock)
| Configure (framerate : Q) (firstpass lostframe : bool).

Definition step (s : t) (k : call) : bool * t :=
  match k with
  | CheckFrame c => isValidFrame c s
  | Configure r f l => (false, setFreq r f l s)
  end.

(** Runs a sequence of calls; the boolean is the result of the last one. *)
Fixpoint run (s : t) (last : bool) (ks : list call) : bool * t :=
  match ks with
  | [] => (last, s)
  | k :: ks' => let r := step s k in run (snd r) (fst r) ks'
  end.

(** The results of a sequence of calls, in order, with the pacer they
    leave behind. *)
Fixpoint results (s : t) (ks : list call) : list bool * t :=
  match ks with
  | [] => ([], s)
  | k :: ks' =>
      let r := step s k in
      let rest := results (snd r) ks' in
      (fst r :: fst rest, snd rest)
  end.

(** The number of calls that returned [true]. *)
Definition successes (rs : list bool) : Z :=
  Z.of_nat (length (filter (fun b => b = true) rs)).

(** A clock that reads the same instant at each of its uses in a call. *)
Definition at_time (now : Q) : clock := mkClock now now now.

(** A session at 30 Hz that is reconfigured to 60 Hz, with the first pass
    armed again, after a check that left a remainder. *)
Definition reconfigured_session : list call :=
  [CheckFrame (at_time 0); CheckFrame (at_time 60); Configure 60 true true;
   CheckFrame (at_time 61)].

End FrameLimiter.

(** ** HomeDirManager ([HostClass/HomeDirManager.cpp]) *)

Module HomeDirManager.
Local Open Scope string_scope.

(** The data members of [class HomeDirManager]. *)
Record t : Type := mk {
  permRegs : string;
  path     : string;
  file     : string;
  name     : string;
  type     : string;
  sha1     : string;
  size     : Z
}.

(** What [verifyFile] asks of the outside world about a path:
    [fs::exists], [fs::is_regular_file], whether the [std::ifstream] built
    on it [is_open()] and is [good()], [fs::file_size] ([None] when it sets
    the error code), the digest [SHA1::from_file], and the parts
    [extension()], [filename()], [stem()] of the path.

    [fs::exists(p)] and [fs::is_regular_file(p)] are called in their
    throwing form: when the status of the path cannot be read (search
    permission denied on a directory of the path, a name that is too long,
    an input/output error; a missing file is not such a failure) they
    throw [std::filesystem::filesystem_error].  That is [None] here. *)
Record FileSystem : Type := mkFS {
  fs_exists       : string -> option bool;
  is_regular_file : string -> option bool;
  is_open         : string -> bool;
  good            : string -> bool;
  file_size       : string -> option Z;
  from_file       : string -> string;
  extension       : string -> string;
  filename        : string -> string;
  stem            : string -> string
}.

(** How a call ends: it returns its result, or it is left by the
    [std::filesystem::filesystem_error] of a status query, which neither
    [verifyFile] nor its callers catch. *)
Inductive ending : Type :=
| returns (result : bool)
| throws_filesystem_error.

(** The validator is a function pointer
    [bool( * )(std::uint64_t, std::string_view, std::string_view)]; it may
    keep state of its own (the detector's statics), of type [V]. *)
Definition validator (V : Type) : Type :=
  V -> Z -> string -> string -> bool * V.

(** The manager, the validator's state, the arguments of every validator
    call made so far, and the lines of the two log streams. *)
Record world (V : Type) : Type := mkWorld {
  hdm     : t;
  vstate  : V;
  invoked : list (Z * string * string);
  stdLog  : list string;
  dbgLog  : list string
}.
Arguments mkWorld {V} _ _ _ _ _.
Arguments hdm {V} _.
Arguments vstate {V} _.
Arguments invoked {V} _.
Arguments stdLog {V} _.
Arguments dbgLog {V} _.

(** [void HomeDirManager::reset() noexcept]:
<<
    path = name = type = sha1 = {};
    size = 0;
>> *)
Definition reset (s : t) : t :=
  mk (permRegs s) EmptyString (file s) EmptyString EmptyString EmptyString 0.

(** A validator that accepts every file and keeps no state. *)
Definition accept_all {V : Type} : validator V :=
  fun v _ _ _ => (true, v).

Section Verify.
Context {V : Type}.
Variable fs : FileSystem.

(** Whether the program was built as a debug build. *)
Variable debug_build : bool.

(** Modelled from the spec: [BasicLogger] ([blog]) is not among the
    sources.  The spec (4.4, Process Log Facility) has two append-only
    streams and the operation "append one line to either stream
    (debug-stream calls are no-ops when the build is not a debug
    build)". *)
Definition stdLogOut (line : string) (w : world V) : world V :=
  mkWorld (hdm w) (vstate w) (invoked w) (stdLog w ++ [line])%list (dbgLog w).

(** Modelled from the spec: see [stdLogOut]. *)
Definition dbgLogOut (line : string) (w : world V) : world V :=
  if debug_build then
    mkWorld (hdm w) (vstate w) (invoked w) (stdLog w)
            (dbgLog w ++ [line])%list
  else w.

(** [bool HomeDirManager::verifyFile(validate, filepath)]; a null
    [filepath] is [None]. *)
(** The test [!fs::exists(fspath) || !fs::is_regular_file(fspath)]:
    [Some true] when the path is rejected, [None] when a query throws;
    [||] does not ask for the file type of a path that does not exist. *)
Definition not_a_file (fspath : string) : option bool :=
  match fs_exists fs fspath with
  | None => None
  | Some false => Some true
  | Some true =>
      match is_regular_file fs fspath with
      | None => None
      | Some regular => Some (negb regular)
      end
  end.

Definition verifyFile (validate : validator V) (filepath : option string)
    (w : world V) : ending * world V :=
  match filepath with
  | None => (returns false, w)
  | Some fspath =>
      let w := stdLogOut ("Attempting to access file: " ++ fspath) w in
      match not_a_file fspath with
      | None => (throws_filesystem_error, w)
      | Some true =>
          (returns false,
           dbgLogOut ("Unable to use locate path: " ++ fspath) w)
      | Some false =>
      if negb (is_open fs fspath) then
        (returns false, dbgLogOut ("Failed to open file: " ++ fspath) w)
      else if negb (good fs fspath) then
        (returns false, dbgLogOut ("File is not readable: " ++ fspath) w)
      else
        match file_size fs fspath with
        | None =>
            (returns false,
             dbgLogOut ("Unable to access file: " ++ fspath) w)
        | Some fileSize =>
            if (fileSize =? 0)%Z then
              (returns false, dbgLogOut ("File is empty: " ++ fspath) w)
            else
              let tempPath := fspath in
              let tempType := extension fs fspath in
              let tempSHA1 := from_file fs tempPath in
              let r := validate (vstate w) fileSize tempType tempSHA1 in
              let result := fst r in
              let calls := (invoked w ++ [(fileSize, tempType, tempSHA1)])%list in
              if result then
                (returns true,
                 mkWorld (mk (permRegs (hdm w)) tempPath (filename fs fspath)
                             (stem fs fspath) tempType tempSHA1 fileSize)
                         (snd r) calls (stdLog w) (dbgLog w))
              else
                (returns false,
                 mkWorld (hdm w) (snd r) calls (stdLog w) (dbgLog w))
        end
      end
  end.

(** The checks a path passes before the validator is consulted: it exists,
    is a regular file, its stream opens and is good, and its size is read
    without error and is not zero. *)
Definition accessible (fspath : string) (fileSize : Z) : Prop :=
  fs_exists fs fspath = Some true /\ is_regular_file fs fspath = Some true /\
  is_open fs fspath = true /\ good fs fspath = true /\
  file_size fs fspath = Some fileSize /\ fileSize <> 0%Z.

(** The status of the path cannot be read: [fs::exists] throws, or the
    path exists and [fs::is_regular_file] throws. *)
Definition unexaminable (fspath : string) : Prop :=
  fs_exists fs fspath = None \/
  (fs_exists fs fspath = Some true /\ is_regular_file fs fspath = None).

(** The descriptor [verifyFile] commits for an accepted path. *)
Definition committed (old : t) (fspath : string) (fileSize : Z) : t :=
  mk (permRegs old) fspath (filename fs fspath) (stem fs fspath)
     (extension fs fspath) (from_file fs fspath) fileSize.

End Verify.

(** *** A small file system, for examples: [game.ch8] holds 132 bytes,
    [empty.ch8] none, the directory [locked] cannot be searched, and
    nothing else exists; no stream opens on a path under [locked]; the
    validator accepts the extension [.ch8]. *)

Definition sample_fs : FileSystem :=
  mkFS (fun p => if String.prefix "locked/" p then None
                 else Some (String.eqb p "empty.ch8"
                            || String.eqb p "game.ch8"))
       (fun p => if String.prefix "locked/" p then None
                 else Some (String.eqb p "empty.ch8"
                            || String.eqb p "game.ch8"))
       (fun p => negb (String.prefix "locked/" p))
       (fun p => negb (String.prefix "locked/" p))
       (fun p => if String.eqb p "empty.ch8" then Some 0%Z
                 else if String.eqb p "game.ch8" then Some 132%Z
                 else None)
       (fun _ => "da39a3ee5e6b4b0d3255bfef95601890afd80709")
       (fun _ => ".ch8")
       (fun p => p)
       (fun _ => "game").

Definition sample_validator : validator unit :=
  fun v _ type _ => (String.eqb type ".ch8", v).

Definition sample_world : world unit :=
  mkWorld (mk "permRegs" "old.ch8" "old.ch8" "old" ".ch8" "0000" 64)
          tt [] [] [].

End HomeDirManager.

(** ** The descriptor of the host class: [VM_Host::FileInfo]
    (_FileInfo.cpp, Host.hpp)

    The predecessor of [HomeDirManager]: no validator and no stream test;
    messages go to the host ([Host.addMessage(msg, false)]). *)

Module FileInfo.
Local Open Scope string_scope.

(** The data members of [class VM_Host::FileInfo]. *)
Record t : Type := mk {
  homeDirectory : string;
  permRegs      : string;
  path          : string;
  name          : string;
  type          : string;
  sha1          : string;
  size          : Z
}.

(** The host behind the reference [Host]: its [programLoaded] flag, the
    descriptor [File], and the messages added so far. *)
Record host : Type := mkHost {
  programLoaded : bool;
  File          : t;
  messages      : list string
}.

Definition addMessage (msg : string) (h : host) : host :=
  mkHost (programLoaded h) (File h) (messages h ++ [msg])%list.

(** [void VM_Host::FileInfo::reset()]:
<<
    Host.programLoaded = false;
    path = name = type = {};
    size = 0;
>> *)
Definition reset (h : host) : host :=
  mkHost false
    (mk (homeDirectory (File h)) (permRegs (File h))
        EmptyString EmptyString EmptyString (sha1 (File h)) 0)
    (messages h).

(** [bool VM_Host::FileInfo::verifyFile(const char* newPath)]; the test
    on the path is the one of [HomeDirManager::verifyFile], with the same
    throwing queries. *)
Definition verifyFile (fs : HomeDirManager.FileSystem)
    (newPath : option string) (h : host) : HomeDirManager.ending * host :=
  match newPath with
  | None => (HomeDirManager.returns false, h)
  | Some fspath =>
      match HomeDirManager.not_a_file fs fspath with
      | None => (HomeDirManager.throws_filesystem_error, h)
      | Some true =>
          (HomeDirManager.returns false,
           addMessage ("Unable to use locate path: " ++ fspath) h)
      | Some false =>
        match HomeDirManager.file_size fs fspath with
        | None =>
            (HomeDirManager.returns false,
             addMessage ("Unable to access file: " ++ fspath) h)
        | Some ifs_length =>
            if (ifs_length <? 1)%Z then
              (HomeDirManager.returns false,
               addMessage ("File is empty: " ++ fspath) h)
            else
              (HomeDirManager.returns true,
               mkHost (programLoaded h)
                 (mk (homeDirectory (File h)) (permRegs (File h))
                     fspath
                     (HomeDirManager.stem fs fspath)
                     (HomeDirManager.extension fs fspath)
                     (HomeDirManager.from_file fs fspath)
                     ifs_length)
                 (messages h))
        end
      end
  end.

(** A host with a program loaded, for examples. *)
Definition sample_host : host :=
  mkHost true (mk "home" "home/permRegs" "old.ch8" "old" ".ch8" "0000" 64) [].

End FileInfo.

(** ** GameFileChecker ([GuestClass/GameFileChecker.hpp]) *)

Module GameFileChecker.

Inductive GameCoreType : Type :=
| INVALID
| XOCHIP | CHIP8E | CHIP8X
| CHIP8_2P | CHIP8_4P
| CHIP8_LEGACY | SCHIP_LEGACY
| CHIP8_MODERN | SCHIP_MODERN
| CHIP8X_HIRES | CHIP8X_SCHIP
| HWCHIP64 | MEGACHIP | GIGACHIP.

(** [inline constexpr std::size_t cexprHash(const char* str) noexcept]:
<<
    return ( *str == '\0') ? 0 : cexprHash(str + 1) * 31 + *str;
>>
    The result is a 64-bit [std::size_t].  [*str] is a [char], converted
    to [std::size_t] in the sum: where [char] is signed, a code of 128 or
    more counts as that code less 256.  The characters after a NUL are not
    read. *)
Definition char_value (char_signed : bool) (c : Ascii.ascii) : Z :=
  let n := Z.of_nat (Ascii.nat_of_ascii c) in
  if char_signed && (128 <=? n)%Z then (n - 256)%Z else n.

Fixpoint cexprHash (char_signed : bool) (str : string) : Z :=
  match str with
  | EmptyString => 0%Z
  | String c rest =>
      if Ascii.eqb c Ascii.zero then 0%Z
      else wrap 64 (cexprHash char_signed rest * 31 + char_value char_signed c)
  end.

(** [enum FileExt : std::size_t]: each enumerator is the hash of its
    extension. *)
Inductive FileExt : Type :=
| c2x | c4x | c8x | c8e | c2h | c4h | c8h
| ch8 | sc8 | mc8 | gc8 | xo8 | hw8 | bnc.

Definition FileExt_text (e : FileExt) : string :=
  match e with
  | c2x => ".c2x" | c4x => ".c4x" | c8x => ".c8x"
  | c8e => ".c8e"
  | c2h => ".c2h" | c4h => ".c4h" | c8h => ".c8h"
  | ch8 => ".ch8" | sc8 => ".sc8" | mc8 => ".mc8" | gc8 => ".gc8"
  | xo8 => ".xo8" | hw8 => ".hw8"
  | bnc => ".bnc"
  end.

Definition FileExt_value (char_signed : bool) (e : FileExt) : Z :=
  cexprHash char_signed (FileExt_text e).

(** A string holds no NUL. *)
Fixpoint no_nul (str : string) : bool :=
  match str with
  | EmptyString => true
  | String c rest => negb (Ascii.eqb c Ascii.zero) && no_nul rest
  end.

(** The two statics of the class: [sErrorMsg] and [sEmuCore]. *)
Record t : Type := mk {
  sErrorMsg : string;
  sEmuCore  : GameCoreType
}.

(** [testGame(pass, type)]: [if (pass) { sEmuCore = type; } return pass;] *)
Definition testGame (pass : bool) (type : GameCoreType) (s : t) : bool * t :=
  (pass, if pass then mk (sErrorMsg s) type else s).

(** [getError()]: [return std::move(sErrorMsg);].  The returned string is
    move-constructed from the static, which hands its contents over and is
    left empty. *)
Definition getError (s : t) : string * t :=
  (sErrorMsg s, mk EmptyString (sEmuCore s)).

(** [getCore()]: [return sEmuCore;] *)
Definition getCore (s : t) : GameCoreType := sEmuCore s.

(** [delCore()]: [sErrorMsg.clear(); sEmuCore = GameCoreType::INVALID;] *)
Definition delCore (s : t) : t := mk EmptyString INVALID.

(** [hasCore()]: [return sEmuCore != GameCoreType::INVALID;] *)
Definition hasCore (s : t) : bool :=
  match sEmuCore s with
  | INVALID => false
  | _ => true
  end.

(** The calls of this header that do not run a validation. *)
Inductive call : Type :=
| TestGame (pass : bool) (type : GameCoreType)
| GetCore
| HasCore
| DelCore.

Definition step (s : t) (k : call) : t :=
  match k with
  | TestGame pass type => snd (testGame pass type s)
  | GetCore => s
  | HasCore => s
  | DelCore => delCore s
  end.

End GameFileChecker.

(** * Properties *)

(** ** Rows *)

Section MapRowFacts.
Context {T : Type} {HA : Arithmetic T}.
Import MapRow.

Lemma elementwise_length op (self other : list T) i n :
  length (elementwise op self other i n) = length self.
Proof.
  revert self i.
  induction n as [|n IH]; intros self i; simpl; [done|].
  destruct (self !! i) as [x|]; [|done].
  destruct (other !! i) as [y|]; [|done].
  rewrite IH. apply length_insert.
Qed.

(** After [n] iterations from [i], exactly the indices [i <= j < i + n]
    were rewritten, each once, from its value on entry. *)
Lemma elementwise_lookup op (self other : list T) i n j :
  i + n <= length self -> i + n <= length other ->
  elementwise op self other i n !! j =
    if decide (i <= j < i + n) then combined op self other j else self !! j.
Proof.
  revert self i.
  induction n as [|n IH]; intros self i Hs Ho; simpl.
  - case_decide; [lia|done].
  - destruct (lookup_lt_is_Some_2 self i) as [x Hx]; [lia|].
    destruct (lookup_lt_is_Some_2 other i) as [y Hy]; [lia|].
    rewrite Hx, Hy.
    rewrite IH by (rewrite ?length_insert; lia).
    unfold combined.
    destruct (decide (j = i)) as [->|Hne].
    + rewrite list_lookup_insert_eq by lia.
      rewrite Hx, Hy.
      repeat case_decide; try lia; done.
    + rewrite list_lookup_insert_ne by done.
      repeat case_decide; try lia; done.
Qed.

(** The division loop either runs to the end over non-zero divisors, or
    stops at the first zero divisor having done the iterations before it. *)
Lemma div_loop_cases (self other : list T) i n :
  i + n <= length self -> i + n <= length other ->
  ((forall k, i <= k < i + n -> ~ zero_at other k) /\
   div_loop self other i n = (elementwise div self other i n, None))
  \/
  (exists k, i <= k < i + n /\ zero_at other k /\
     (forall j, i <= j < k -> ~ zero_at other j) /\
     div_loop self other i n =
       (elementwise div self other i (k - i),
        Some (domain_error "division by zero"))).
Proof.
  revert self i.
  induction n as [|n IH]; intros self i Hs Ho.
  - left. split; [intros k Hk; lia | done].
  - destruct (lookup_lt_is_Some_2 self i) as [x Hx]; [lia|].
    destruct (lookup_lt_is_Some_2 other i) as [y Hy]; [lia|].
    simpl. rewrite Hx, Hy.
    destruct (is_zero y) eqn:Hz.
    + right. exists i. split; [lia|]. split; [by exists y|].
      split; [intros j Hj; lia|].
      by replace (i - i) with 0 by lia.
    + assert (Hi : ~ zero_at other i).
      { intros (y' & Hy' & Hz'). congruence. }
      destruct (IH (<[i := div x y]> self) (S i)) as [[Hnz Heq]|(k & Hk & Hzk & Hnz & Heq)];
        rewrite ?length_insert; try lia.
      * left. split; [|done].
        intros k Hk. destruct (decide (k = i)) as [->|]; [done|].
        apply Hnz. lia.
      * right. exists k. split; [lia|]. split; [done|].
        split.
        { intros j Hj. destruct (decide (j = i)) as [->|]; [done|].
          apply Hnz. lia. }
        rewrite Heq. replace (k - i) with (S (k - S i)) by lia.
        simpl. by rewrite Hx, Hy.
Qed.

(** What [a -= b] computes: every index below the common length receives
    [a[i] + b[i]], the others keep their element. *)
Lemma sub_assign_lookup (a b : list T) i :
  sub_assign a b !! i =
    if decide (i < min (length a) (length b)) then combined add a b i
    else a !! i.
Proof.
  unfold sub_assign. rewrite elementwise_lookup by lia.
  repeat case_decide; try lia; done.
Qed.

(** C7: [a /= b] throws exactly when some divisor below the common length
    is zero; when [k] is the first such index the call ends in
    [domain_error], every [a[i]] with [i < k] has become [a[i] / b[i]], and
    every element from [k] on is as it was. *)
Theorem MapRow_div_assign_partial (a b : list T) :
  (snd (div_assign a b) <> None <->
     exists k, k < min (length a) (length b) /\ zero_at b k) /\
  (forall k, first_zero a b k ->
     snd (div_assign a b) = Some (domain_error "division by zero") /\
     (forall i, i < k -> fst (div_assign a b) !! i = combined div a b i) /\
     (forall i, k <= i -> fst (div_assign a b) !! i = a !! i)).
Proof.
  unfold div_assign.
  destruct (div_loop_cases a b 0 (min (length a) (length b)))
    as [[Hnz Heq]|(k & Hk & Hzk & Hnz & Heq)]; try lia; rewrite Heq; simpl.
  - split.
    + split; [done|]. intros (k & Hk & Hz). exfalso. apply (Hnz k); [lia|done].
    + intros k (Hk & Hz & _). exfalso. apply (Hnz k); [lia|done].
  - split.
    + split; [|done]. intros _. exists k. split; [lia|done].
    + intros k' (Hk' & Hz' & Hfirst).
      assert (k' = k) as ->.
      { destruct (Nat.lt_trichotomy k' k) as [Hlt|[->|Hgt]]; [|done|].
        - exfalso. apply (Hnz k'); [lia|done].
        - exfalso. by apply (Hfirst k). }
      split; [done|].
      replace (k - 0) with k by lia.
      split; intros i Hi; rewrite elementwise_lookup by lia;
        case_decide; try lia; done.
Qed.

End MapRowFacts.

(** C1: [a -= b] truncates to the shorter length and leaves the tail of [a]
    alone, but what it stores below the common length is the sum
    [a[i] + b[i]].  On the 32-bit rows [a = [5]] and [b = [3]] it leaves
    [a = [8]], where the claim, like the value-returning [a - b], gives the
    difference [[2]]. *)
Theorem MapRow_sub_assign_adds :
  (forall (T : Type) (HA : Arithmetic T) (a b : list T) (i : nat),
     MapRow.sub_assign a b !! i =
       if decide (i < min (length a) (length b))
       then MapRow.combined add a b i
       else a !! i) /\
  MapRow.sub_assign (HA := u32_arith) [5%Z] [3%Z] = [8%Z] /\
  MapRow.sub_value (HA := u32_arith) [5%Z] [3%Z] = [2%Z] /\
  MapRow.sub_assign (HA := u32_arith) [5%Z] [3%Z] <>
    [sub (Arithmetic := u32_arith) 5%Z 3%Z].
Proof.
  split; [intros T HA a b i; apply sub_assign_lookup|].
  repeat split; vm_compute; congruence.
Qed.

(** C7 on 32-bit rows: [[8; 7; 6] /= [2; 0; 3]] throws at index 1 with
    index 0 already divided. *)
Lemma MapRow_div_assign_partial_witness :
  MapRow.first_zero (HA := u32_arith) [8; 7; 6]%Z [2; 0; 3]%Z 1 /\
  snd (MapRow.div_assign (HA := u32_arith) [8; 7; 6]%Z [2; 0; 3]%Z)
    = Some (domain_error "division by zero") /\
  fst (MapRow.div_assign (HA := u32_arith) [8; 7; 6]%Z [2; 0; 3]%Z)
    = [4; 7; 6]%Z.
Proof.
  assert (Hfz : MapRow.first_zero (HA := u32_arith) [8; 7; 6]%Z [2; 0; 3]%Z 1).
  { split; [simpl; lia|]. split; [by exists 0%Z|].
    intros i Hi (y & Hy & Hz). assert (i = 0) as -> by lia.
    simpl in Hy. injection Hy as <-. discriminate Hz. }
  split; [exact Hfz|].
  split.
  - exact (proj1 (proj2 (MapRow_div_assign_partial (HA := u32_arith)
                           [8; 7; 6]%Z [2; 0; 3]%Z) 1 Hfz)).
  - reflexivity.
Defined.

(** ** The detector's error slot *)

Section GameFileCheckerFacts.
Import GameFileChecker.

Lemma step_keeps_empty (s : t) (k : call) :
  sErrorMsg s = EmptyString -> sErrorMsg (step s k) = EmptyString.
Proof.
  intros Hs. destruct k as [pass type| | |]; simpl; try done.
  by destruct pass.
Qed.

Lemma steps_keep_empty (ks : list call) (s : t) :
  sErrorMsg s = EmptyString -> sErrorMsg (foldl step s ks) = EmptyString.
Proof.
  revert s. induction ks as [|k ks IH]; intros s Hs; simpl; [done|].
  apply IH. by apply step_keeps_empty.
Qed.

(** C9: [getError] returns the stored reason and leaves the slot empty (the
    held core is not touched); a second [getError], whatever calls other
    than a validation were made in between, returns the empty string. *)
Theorem GameFileChecker_getError_consumes (s : t) (ks : list call) :
  fst (getError s) = sErrorMsg s /\
  sErrorMsg (snd (getError s)) = EmptyString /\
  sEmuCore (snd (getError s)) = sEmuCore s /\
  fst (getError (snd (getError s))) = EmptyString /\
  fst (getError (foldl step (snd (getError s)) ks)) = EmptyString.
Proof.
  repeat split.
  simpl. by apply steps_keep_empty.
Qed.

End GameFileCheckerFacts.

(** ** File verification *)

Section VerifyFileFacts.
Import HomeDirManager.
Local Open Scope string_scope.
Context {V : Type}.
Variable fs : FileSystem.
Variable debug_build : bool.
Variable validate : validator V.

(** The three ways a path can stand to the file checks. *)
Lemma path_cases (p : string) :
  unexaminable fs p \/
  (exists fileSize, accessible fs p fileSize) \/
  (~ unexaminable fs p /\ forall fileSize, ~ accessible fs p fileSize).
Proof.
  unfold unexaminable, accessible.
  destruct (fs_exists fs p) as [[]|]; [| |by left; left].
  - destruct (is_regular_file fs p) as [[]|]; [| |by left; right].
    + destruct (is_open fs p);
        [|right; right; split; [|intros n (_ & _ & ? & _); done]].
      2:{ by intros [?|[_ ?]]. }
      destruct (good fs p);
        [|right; right; split; [|intros n (_ & _ & _ & ? & _); done]].
      2:{ by intros [?|[_ ?]]. }
      destruct (file_size fs p) as [fileSize|];
        [|right; right; split; [|intros n (_ & _ & _ & _ & ? & _); done]].
      2:{ by intros [?|[_ ?]]. }
      destruct (decide (fileSize = 0%Z)) as [->|Hnz].
      * right; right. split; [by intros [?|[_ ?]]|].
        intros n (_ & _ & _ & _ & Hs & Hn). congruence.
      * right; left. by exists fileSize.
    + right; right. split; [by intros [?|[_ ?]]|].
      intros n (_ & ? & _). done.
  - right; right. split; [by intros [?|[? _]]|].
    intros n (? & _). done.
Qed.

(** A path that passes the file checks: the validator decides. *)
Lemma verifyFile_accessible (p : string) (fileSize : Z) (w : world V) :
  accessible fs p fileSize ->
  verifyFile fs debug_build validate (Some p) w =
    let answer :=
      validate (vstate w) fileSize (extension fs p) (from_file fs p) in
    (returns (fst answer),
     mkWorld (if fst answer then committed fs (hdm w) p fileSize else hdm w)
       (snd answer)
       (invoked w ++ [(fileSize, extension fs p, from_file fs p)])%list
       (stdLog w ++ [("Attempting to access file: " ++ p)%string])%list
       (dbgLog w)).
Proof.
  intros (He & Hr & Ho & Hg & Hsz & Hnz).
  unfold verifyFile, not_a_file, committed.
  rewrite He, Hr, Ho, Hg, Hsz. simpl.
  destruct (Z.eqb_spec fileSize 0) as [|_]; [done|].
  by destruct (validate _ _ _ _) as [[] v'].
Qed.

(** A path whose status cannot be read: the call is left by the
    exception, after the attempt was logged. *)
Lemma verifyFile_unexaminable (p : string) (w : world V) :
  unexaminable fs p ->
  verifyFile fs debug_build validate (Some p) w =
    (throws_filesystem_error,
     stdLogOut ("Attempting to access file: " ++ p) w).
Proof.
  unfold verifyFile, not_a_file.
  intros [He|[He Hr]]; rewrite He; [done|]. by rewrite Hr.
Qed.

(** A path that fails a file check: the call returns false after one call
    of the debug stream. *)
Lemma verifyFile_refused (p : string) (w : world V) :
  ~ unexaminable fs p -> (forall fileSize, ~ accessible fs p fileSize) ->
  exists line,
    verifyFile fs debug_build validate (Some p) w =
      (returns false,
       dbgLogOut debug_build line
         (stdLogOut ("Attempting to access file: " ++ p) w)).
Proof.
  intros Hex Hno. unfold verifyFile, not_a_file, unexaminable, accessible in *.
  destruct (fs_exists fs p) as [[]|] eqn:He; [|by eexists|].
  2:{ exfalso. apply Hex. by left. }
  destruct (is_regular_file fs p) as [[]|] eqn:Hr; [|by eexists|].
  2:{ exfalso. apply Hex. by right. }
  cbn [negb].
  destruct (is_open fs p) eqn:Ho; [|by eexists].
  destruct (good fs p) eqn:Hg; [|by eexists].
  destruct (file_size fs p) as [fileSize|] eqn:Hsz; [|by eexists].
  cbn [negb].
  destruct (Z.eqb_spec fileSize 0) as [|Hnz]; [by eexists|].
  exfalso. by apply (Hno fileSize).
Qed.

Lemma logged_keeps (attempt line : string) (w : world V) :
  hdm (dbgLogOut debug_build line (stdLogOut attempt w)) = hdm w /\
  vstate (dbgLogOut debug_build line (stdLogOut attempt w)) = vstate w /\
  invoked (dbgLogOut debug_build line (stdLogOut attempt w)) = invoked w.
Proof. unfold dbgLogOut, stdLogOut. by destruct debug_build. Qed.

(** Only an accepted file changes the descriptor. *)
Lemma verifyFile_false_keeps (filepath : option string) (w : world V) :
  fst (verifyFile fs debug_build validate filepath w) <> returns true ->
  hdm (snd (verifyFile fs debug_build validate filepath w)) = hdm w.
Proof.
  destruct filepath as [p|]; [|done].
  destruct (path_cases p) as [Hun|[[fileSize Hacc]|[Hex Hno]]].
  - by rewrite (verifyFile_unexaminable p w Hun).
  - rewrite (verifyFile_accessible p fileSize w Hacc). cbn.
    by destruct (fst (validate _ _ _ _)).
  - destruct (verifyFile_refused p w Hex Hno) as [line ->]. cbn.
    intros _. apply logged_keeps.
Qed.

(** C3: on a path whose status can be read, [verifyFile] returns false and
    keeps every descriptor field when the path is null, missing, not a
    regular file, cannot be opened or is empty; for a null or missing path
    the validator is not called; when the validator is called its result
    is the result of [verifyFile], a false one keeps the descriptor and a
    true one commits the new descriptor.  On a path whose status cannot be
    read the status query throws: the call does not return false, it is
    left by [filesystem_error]; the descriptor is kept and the validator
    is not called then either. *)
Theorem HomeDirManager_verifyFile_fails_closed
    (filepath : option string) (w : world V) :
  let r := verifyFile fs debug_build validate filepath w in
  ((filepath = None \/
    exists p, filepath = Some p /\ ~ unexaminable fs p /\
      (fs_exists fs p = Some false \/ is_regular_file fs p = Some false \/
       is_open fs p = false \/ file_size fs p = Some 0%Z)) ->
   fst r = returns false /\ hdm (snd r) = hdm w) /\
  ((filepath = None \/
    exists p, filepath = Some p /\ fs_exists fs p = Some false) ->
   invoked (snd r) = invoked w /\ vstate (snd r) = vstate w) /\
  (forall p fileSize, filepath = Some p -> accessible fs p fileSize ->
     let answer :=
       validate (vstate w) fileSize (extension fs p) (from_file fs p) in
     invoked (snd r)
       = (invoked w ++ [(fileSize, extension fs p, from_file fs p)])%list /\
     vstate (snd r) = snd answer /\
     fst r = returns (fst answer) /\
     hdm (snd r) = if fst answer then committed fs (hdm w) p fileSize
                   else hdm w) /\
  (fst r <> returns true -> hdm (snd r) = hdm w) /\
  (fst r = returns true ->
     exists p fileSize, filepath = Some p /\ accessible fs p fileSize /\
       fst (validate (vstate w) fileSize (extension fs p) (from_file fs p))
         = true /\
       hdm (snd r) = committed fs (hdm w) p fileSize) /\
  (forall p, filepath = Some p -> unexaminable fs p ->
     fst r = throws_filesystem_error /\ hdm (snd r) = hdm w /\
     invoked (snd r) = invoked w /\ vstate (snd r) = vstate w).
Proof.
  intros r. subst r.
  split; [|split; [|split; [|split; [|split]]]].
  - intros [->|(p & -> & Hex & Hp)]; [done|].
    destruct (path_cases p) as [Hun|[[fileSize Hacc]|[_ Hno]]]; [done| |].
    + exfalso. destruct Hacc as (He & Hr & Ho & Hg & Hsz & Hnz).
      destruct Hp as [Hp|[Hp|[Hp|Hp]]]; congruence.
    + destruct (verifyFile_refused p w Hex Hno) as [line ->].
      split; [done|]. apply logged_keeps.
  - intros [->|(p & -> & Hp)]; [done|].
    unfold verifyFile, not_a_file. rewrite Hp.
    cbn [fst snd]. split; apply logged_keeps.
  - intros p fileSize -> Hacc answer. subst answer.
    rewrite (verifyFile_accessible p fileSize w Hacc). done.
  - apply verifyFile_false_keeps.
  - destruct filepath as [p|]; [|done].
    destruct (path_cases p) as [Hun|[[fileSize Hacc]|[Hex Hno]]].
    + by rewrite (verifyFile_unexaminable p w Hun).
    + rewrite (verifyFile_accessible p fileSize w Hacc). cbn.
      destruct (fst (validate _ _ _ _)) eqn:Hv; [|done].
      intros _. exists p, fileSize. by rewrite Hv.
    + by destruct (verifyFile_refused p w Hex Hno) as [line ->].
  - intros p -> Hun. by rewrite (verifyFile_unexaminable p w Hun).
Qed.

End VerifyFileFacts.

(** C3 at the sample file system, in a debug build: no stream opens on
    [locked/game.ch8], whose directory cannot be searched, and the call is
    left by the exception instead of returning false; the descriptor of
    [old.ch8] stays. *)
Lemma HomeDirManager_verifyFile_fails_closed_witness :
  HomeDirManager.is_open HomeDirManager.sample_fs "locked/game.ch8" = false /\
  fst (HomeDirManager.verifyFile HomeDirManager.sample_fs true
         HomeDirManager.sample_validator (Some "locked/game.ch8"%string)
         HomeDirManager.sample_world)
    = HomeDirManager.throws_filesystem_error /\
  HomeDirManager.hdm
    (snd (HomeDirManager.verifyFile HomeDirManager.sample_fs true
            HomeDirManager.sample_validator (Some "locked/game.ch8"%string)
            HomeDirManager.sample_world))
    = HomeDirManager.hdm HomeDirManager.sample_world.
Proof.
  split; [reflexivity|].
  destruct (proj2 (proj2 (proj2 (proj2 (proj2
              (HomeDirManager_verifyFile_fails_closed
                 HomeDirManager.sample_fs true HomeDirManager.sample_validator
                 (Some "locked/game.ch8"%string)
                 HomeDirManager.sample_world)))))
              "locked/game.ch8"%string eq_refl)
    as (Hthrown & Hkept & _).
  - left. reflexivity.
  - split; [exact Hthrown | exact Hkept].
Defined.

(** ** Frame pacing *)

Section FrameLimiterFacts.
Import FrameLimiter.
Local Open Scope Q_scope.

Lemma Qltb_lt (x y : Q) : Qltb x y = true <-> x < y.
Proof.
  unfold Qltb. rewrite negb_true_iff.
  split.
  - intros Hb. apply Qnot_le_lt. intros Hle.
    apply Qle_bool_iff in Hle. congruence.
  - intros Hlt. destruct (Qle_bool y x) eqn:Hb; [|done].
    apply Qle_bool_iff in Hb. exfalso. by apply (Qlt_not_le x y).
Qed.

Lemma Qltb_ge (x y : Q) : Qltb x y = false <-> y <= x.
Proof.
  unfold Qltb. rewrite negb_false_iff. apply Qle_bool_iff.
Qed.

Lemma clamp_range (v lo hi : Q) : lo <= hi -> lo <= clamp v lo hi <= hi.
Proof.
  intros Hlh. unfold clamp.
  destruct (Qltb v lo) eqn:H1.
  - split; [apply Qle_refl|done].
  - apply Qltb_ge in H1.
    destruct (Qltb hi v) eqn:H2.
    + split; [done|apply Qle_refl].
    + apply Qltb_ge in H2. done.
Qed.

Lemma fmod_lt (x y : Q) : 0 < y -> y <= x -> fmod x y < y.
Proof.
  intros Hy Hx. unfold fmod, Qtruncate.
  assert (Hq : 0 <= x / y).
  { apply Qle_shift_div_l; [done|]. lra. }
  assert (Hb : Qltb (x / y) 0 = false) by by apply Qltb_ge.
  rewrite Hb.
  pose proof (Qlt_floor (x / y)) as Hfl.
  rewrite inject_Z_plus in Hfl.
  assert (Hxy : x == (x / y) * y).
  { field. lra. }
  assert (Hm : (x / y) * y < (inject_Z (Qfloor (x / y)) + inject_Z 1) * y).
  { apply Qmult_lt_compat_r; done. }
  rewrite <- Hxy in Hm.
  change (inject_Z 1) with 1 in Hm.
  lra.
Qed.

Lemma period_range (framerate : Q) (firstpass lostframe : bool) (s : t) :
  1 <= timeFrequency (setFreq framerate firstpass lostframe s) <= 2000.
Proof.
  simpl.
  destruct (clamp_range framerate (1 # 2) 1000) as [Hlo Hhi]; [done|].
  set (c := clamp framerate (1 # 2) 1000) in *.
  assert (Hc : 0 < c) by lra.
  split.
  - apply Qle_shift_div_l; [done|]. lra.
  - apply Qle_shift_div_r; [done|]. lra.
Qed.

(** One check keeps the pacing invariant of a pacer that drops lost
    frames. *)
Lemma isValidFrame_keeps_bound (c : clock) (s : t) :
  skipLostFrame s = true -> 0 < timeFrequency s ->
  timeOvershoot s < timeFrequency s ->
  skipLostFrame (snd (isValidFrame c s)) = true /\
  timeFrequency (snd (isValidFrame c s)) = timeFrequency s /\
  timeOvershoot (snd (isValidFrame c s)) < timeFrequency s.
Proof.
  intros Hl Hp Ho. unfold isValidFrame.
  destruct (skipFirstPass s); simpl; [done|].
  destruct (Qltb _ (timeFrequency s)) eqn:Hv; simpl; [done|].
  rewrite Hl. repeat split.
  apply fmod_lt; [done|]. by apply Qltb_ge.
Qed.

Lemma run_checks_keep_bound (cs : list clock) (s : t) (last : bool) :
  skipLostFrame s = true -> 0 < timeFrequency s ->
  timeOvershoot s < timeFrequency s ->
  timeOvershoot (snd (run s last (CheckFrame <$> cs)))
    < timeFrequency (snd (run s last (CheckFrame <$> cs))).
Proof.
  revert s last.
  induction cs as [|c cs IH]; intros s last Hl Hp Ho; simpl; [done|].
  destruct (isValidFrame_keeps_bound c s Hl Hp Ho) as (Hl' & Hp' & Ho').
  apply IH; [done| |]; by rewrite Hp'.
Qed.

(** C4, as the code has it: a successful check that is decided by the
    elapsed time stores an overshoot strictly below the target period,
    however many periods have elapsed; the first-pass success stores
    nothing, so along the checks of a pacer that was configured once (its
    overshoot starts at 0) the stored overshoot is below the period after
    every check. *)
Theorem FrameLimiter_overshoot_below_period :
  (forall (c : clock) (s : t),
     skipLostFrame s = true -> skipFirstPass s = false ->
     0 < timeFrequency s ->
     fst (isValidFrame c s) = true ->
     timeOvershoot (snd (isValidFrame c s))
       < timeFrequency (snd (isValidFrame c s))) /\
  (forall (framerate : Q) (firstpass : bool) (cs : list clock),
     timeOvershoot (snd (run (construct framerate firstpass true) false
                             (CheckFrame <$> cs)))
       < timeFrequency (snd (run (construct framerate firstpass true) false
                                 (CheckFrame <$> cs)))).
Proof.
  split.
  - intros c s Hl Hf Hp. unfold isValidFrame. rewrite Hf.
    destruct (Qltb _ (timeFrequency s)) eqn:Hv; simpl; [done|].
    intros _. rewrite Hl. apply fmod_lt; [done|]. by apply Qltb_ge.
  - intros framerate firstpass cs.
    pose proof (period_range framerate firstpass true fresh) as [Hlo Hhi].
    apply run_checks_keep_bound; [done| |].
    + unfold construct. lra.
    + unfold construct in *. simpl in *. lra.
Qed.

End FrameLimiterFacts.


(** C4 at a pacer of 60 Hz whose first timed check sees six periods. *)
Lemma FrameLimiter_overshoot_below_period_witness :
  (FrameLimiter.timeOvershoot
     (snd (FrameLimiter.isValidFrame (FrameLimiter.mkClock 0 100 100)
             (FrameLimiter.construct 60 false true)))
   < FrameLimiter.timeFrequency
       (snd (FrameLimiter.isValidFrame (FrameLimiter.mkClock 0 100 100)
               (FrameLimiter.construct 60 false true))))%Q.
Proof.
  apply (proj1 FrameLimiter_overshoot_below_period); reflexivity.
Defined.

(** C4 as stated fails when a pacer is configured again: the first-pass
    success that follows leaves the remainder of the 30 Hz period in place,
    and it is not below the 60 Hz period. *)
Lemma FrameLimiter_first_pass_keeps_overshoot :
  fst (FrameLimiter.run (FrameLimiter.construct 30 true true) false
         FrameLimiter.reconfigured_session) = true /\
  FrameLimiter.skipLostFrame
    (snd (FrameLimiter.run (FrameLimiter.construct 30 true true) false
            FrameLimiter.reconfigured_session)) = true /\
  ~ (FrameLimiter.timeOvershoot
       (snd (FrameLimiter.run (FrameLimiter.construct 30 true true) false
               FrameLimiter.reconfigured_session))
     < FrameLimiter.timeFrequency
         (snd (FrameLimiter.run (FrameLimiter.construct 30 true true) false
                 FrameLimiter.reconfigured_session)))%Q.
Proof.
  split; [reflexivity|]. split; [reflexivity|].
  intros Hlt. vm_compute in Hlt. discriminate Hlt.
Qed.

(** ** Matrices *)

Section Map2DFacts.
Context {T : Type}.
Import Map2D.

Lemma row_each_spec (f : T -> T) (data : list T) i n :
  i + n <= length data ->
  exists d', row_each f data i n = Some d' /\ length d' = length data /\
    forall j, d' !! j =
      if decide (i <= j < i + n) then f <$> data !! j else data !! j.
Proof.
  revert data i.
  induction n as [|n IH]; intros data i Hlen; simpl.
  - exists data. repeat split. intros j. case_decide; [lia|done].
  - destruct (lookup_lt_is_Some_2 data i) as [x Hx]; [lia|].
    rewrite Hx.
    destruct (IH (<[i := f x]> data) (S i)) as (d' & Hd' & Hl & Hlk).
    { rewrite length_insert. lia. }
    exists d'. split; [done|]. rewrite length_insert in Hl. split; [done|].
    intros j. rewrite Hlk.
    destruct (decide (j = i)) as [->|Hne].
    + rewrite list_lookup_insert_eq by lia. rewrite Hx. simpl.
      repeat case_decide; try lia; done.
    + rewrite list_lookup_insert_ne by done.
      repeat case_decide; try lia; done.
Qed.

(** The row iterator meets [mEnd()] after the last row, having rewritten
    every element from its starting row on. *)
Lemma each_row_spec (f : T -> T) (cols nrows : nat) k :
  forall (data : list T) r fuel,
  1 <= cols -> r + k = nrows -> length data = nrows * cols -> k < fuel ->
  exists d', each_row f cols (nrows * cols) data (r * cols) fuel = Some d' /\
    length d' = length data /\
    forall j, d' !! j =
      if decide (r * cols <= j) then f <$> data !! j else data !! j.
Proof.
  induction k as [|k IH]; intros data r fuel Hc Hr Hlen Hfuel.
  - assert (r = nrows) as -> by lia.
    destruct fuel as [|fuel]; [lia|]. simpl.
    rewrite decide_True by done.
    exists data. repeat split. intros j. case_decide; [|done].
    rewrite (lookup_ge_None_2 data j) by lia. done.
  - destruct fuel as [|fuel]; [lia|]. simpl.
    rewrite decide_False by nia.
    destruct (row_each_spec f data (r * cols) cols) as (d1 & Hd1 & Hl1 & Hlk1);
      [nia|].
    rewrite Hd1.
    destruct (IH d1 (S r) fuel) as (d' & Hd' & Hl & Hlk); try lia.
    replace (r * cols + cols) with (S r * cols) by lia.
    exists d'. split; [done|]. split; [lia|].
    intros j. rewrite Hlk, Hlk1.
    repeat case_decide; try lia; try done.
Qed.

Lemma rows_apply_map (f : T -> T) (m : t T) :
  wf m -> rows_apply f m = Some (with_data m (f <$> pData m)).
Proof.
  intros (Hr & Hc & Hlen). unfold rows_apply, size in *.
  destruct (each_row_spec f (mCols m) (mRows m) (mRows m) (pData m) 0
              (S (mRows m * mCols m))) as (d' & Hd' & Hl & Hlk);
    try done; try nia.
  rewrite Nat.mul_0_l in Hd'. rewrite Hd'. f_equal. f_equal.
  apply list_eq. intros j. rewrite Hlk, list_lookup_fmap.
  case_decide; [done|lia].
Qed.

End Map2DFacts.

(** *** Transposition *)

Section TransposeFacts.
Import Map2D.
Variables R C : nat.
Hypothesis HR : 1 <= R.
Hypothesis HC : 1 <= C.

Lemma successor_lt b : b < R * C -> successor R C b < R * C.
Proof.
  unfold successor. intros Hb.
  assert (b mod R < R) by (apply Nat.mod_upper_bound; lia).
  assert (b / R < C) by (apply Nat.Div0.div_lt_upper_bound; lia).
  nia.
Qed.

Lemma successor_inverse b :
  b < R * C -> successor C R (successor R C b) = b.
Proof.
  unfold successor. intros Hb.
  assert (Hr : b mod R < R) by (apply Nat.mod_upper_bound; lia).
  assert (Hq : b / R < C) by (apply Nat.Div0.div_lt_upper_bound; lia).
  pose proof (Nat.div_mod_eq b R) as Hb'.
  rewrite <- (Nat.mod_unique (b mod R * C + b / R) C (b mod R) (b / R))
    by lia.
  rewrite <- (Nat.div_unique (b mod R * C + b / R) C (b mod R) (b / R))
    by lia.
  lia.
Qed.

Lemma successor_inj x y :
  x < R * C -> y < R * C -> successor R C x = successor R C y -> x = y.
Proof.
  intros Hx Hy Heq.
  rewrite <- (successor_inverse x), <- (successor_inverse y) by done.
  by rewrite Heq.
Qed.

Lemma successor_first : successor R C 0 = 0.
Proof.
  unfold successor.
  rewrite Nat.Div0.mod_0_l, Nat.Div0.div_0_l. lia.
Qed.

Lemma successor_last : successor R C (R * C - 1) = R * C - 1.
Proof.
  unfold successor.
  rewrite <- (Nat.mod_unique (R * C - 1) R (C - 1) (R - 1)) by nia.
  rewrite <- (Nat.div_unique (R * C - 1) R (C - 1) (R - 1)) by nia.
  nia.
Qed.

Lemma orbit_lt k b : b < R * C -> Nat.iter k (successor R C) b < R * C.
Proof.
  intros Hb. induction k as [|k IH]; simpl; [done|].
  by apply successor_lt.
Qed.

Lemma orbit_inj k x y :
  x < R * C -> y < R * C ->
  Nat.iter k (successor R C) x = Nat.iter k (successor R C) y -> x = y.
Proof.
  intros Hx Hy. induction k as [|k IH]; simpl; [done|].
  intros Heq. apply IH. apply successor_inj; auto using orbit_lt.
Qed.

Lemma first_return_search a m :
  (exists t, t <= m /\ first_return R C a t) \/
  (forall t, 1 <= t <= m -> Nat.iter t (successor R C) a < a).
Proof.
  induction m as [|m [(t & Ht & Hf)|Hall]].
  - right. intros t Ht. lia.
  - left. exists t. split; [lia|done].
  - destruct (decide (Nat.iter (S m) (successor R C) a < a)) as [Hlt|Hge].
    + right. intros t Ht. destruct (decide (t = S m)) as [->|]; [done|].
      apply Hall. lia.
    + left. exists (S m). split; [done|]. split; [lia|]. split; [lia|].
      intros t' Ht'. apply Hall. lia.
Qed.

Lemma first_return_exists a :
  a < R * C -> exists t, t <= R * C /\ first_return R C a t.
Proof.
  intros Ha.
  destruct (first_return_search a (R * C)) as [Hex|Hall]; [done|].
  exfalso.
  set (l := (fun t => Nat.iter t (successor R C) a) <$> seq 1 (R * C)).
  assert (Hnd : NoDup l).
  { apply NoDup_alt. intros i j x Hi Hj.
    unfold l in Hi, Hj. rewrite list_lookup_fmap in Hi, Hj.
    destruct (seq 1 (R * C) !! i) as [ti|] eqn:Hti; [|done].
    destruct (seq 1 (R * C) !! j) as [tj|] eqn:Htj; [|done].
    apply lookup_seq in Hti as [-> Hi'].
    apply lookup_seq in Htj as [-> Hj'].
    simpl in Hi, Hj. injection Hi as Hi. injection Hj as Hj.
    assert (Hcyc : forall u v, u < v -> v <= R * C -> 
              Nat.iter u (successor R C) a = Nat.iter v (successor R C) a -> False).
    { intros u v Huv Hv Heq.
      replace v with (u + (v - u)) in Heq by lia.
      rewrite Nat.iter_add in Heq.
      apply orbit_inj in Heq; [|done|by apply orbit_lt].
      pose proof (Hall (v - u)). lia. }
    destruct (Nat.lt_trichotomy i j) as [Hlt|[->|Hgt]]; [|done|].
    - exfalso. apply (Hcyc (1 + i) (1 + j)); [lia|lia|]. simpl. congruence.
    - exfalso. apply (Hcyc (1 + j) (1 + i)); [lia|lia|]. simpl. congruence. }
  assert (Hincl : incl l (seq 0 a)).
  { intros x Hx. apply list_elem_of_In in Hx. unfold l in Hx.
    apply list_elem_of_fmap in Hx as (t & -> & Ht).
    apply list_elem_of_In, in_seq in Ht.
    apply in_seq. pose proof (Hall t). lia. }
  apply NoDup_ListNoDup in Hnd.
  pose proof (NoDup_incl_length Hnd Hincl) as Hlen.
  unfold l in Hlen. rewrite length_fmap, !length_seq in Hlen. lia.
Qed.

Lemma follow_first_return a t :
  forall b fuel, 1 <= t <= fuel ->
  a <= Nat.iter t (successor R C) b ->
  (forall t', 1 <= t' < t -> Nat.iter t' (successor R C) b < a) ->
  follow R C a b fuel = Some (Nat.iter t (successor R C) b).
Proof.
  induction t as [|t IH]; intros b fuel Ht Hge Hlt; [lia|].
  destruct fuel as [|fuel]; [lia|]. simpl follow.
  destruct t as [|t].
  - simpl in *. by rewrite decide_False by lia.
  - rewrite decide_True by (apply (Hlt 1); lia).
    rewrite (IH (successor R C b) fuel); [|lia| |].
    + by rewrite <- Nat.iter_succ_r.
    + by rewrite <- Nat.iter_succ_r.
    + intros t' Ht'. rewrite <- Nat.iter_succ_r. apply Hlt. lia.
Qed.

Lemma follow_returns a :
  a < R * C ->
  exists t, first_return R C a t /\
    follow R C a a (R * C) = Some (Nat.iter t (successor R C) a).
Proof.
  intros Ha. destruct (first_return_exists a Ha) as (t & Ht & Hf).
  exists t. split; [done|].
  destruct Hf as (H1 & Hge & Hlt).
  by apply follow_first_return.
Qed.

Lemma swap_idx_lt a b j :
  a < R * C -> b < R * C -> j < R * C -> swap_idx a b j < R * C.
Proof. unfold swap_idx. intros. repeat case_decide; lia. Qed.

Lemma swap_idx_inj a b x y : swap_idx a b x = swap_idx a b y -> x = y.
Proof. unfold swap_idx. repeat case_decide; lia. Qed.

Lemma arranged_source a σ t :
  a < R * C -> arranged R C a σ -> first_return R C a t ->
  σ (Nat.iter t (successor R C) a) = successor R C a.
Proof.
  intros Ha (I1 & I2 & I3 & I4) (Ht & Hge & Hlt).
  set (b := Nat.iter t (successor R C) a) in *.
  assert (Hb : b < R * C) by by apply orbit_lt.
  destruct (I2 b) as (m & Hm & Hbelow); [lia|].
  pose proof (I3 b Hb) as Hk.
  set (k := σ b) in *.
  destruct (decide (t <= m)) as [Htm|Htm].
  - exfalso.
    replace m with (t + (m - t)) in Hm by lia.
    rewrite Nat.iter_add in Hm. unfold b in Hm.
    apply orbit_inj in Hm; [|by apply orbit_lt|done].
    pose proof (Hbelow (m - t)). lia.
  - assert (Hka : k = Nat.iter (t - m) (successor R C) a).
    { assert (Hsplit : b = Nat.iter m (successor R C)
                             (Nat.iter (t - m) (successor R C) a)).
      { rewrite <- Nat.iter_add. unfold b. f_equal. lia. }
      rewrite Hsplit in Hm.
      apply orbit_inj in Hm; [done|done|by apply orbit_lt]. }
    destruct (t - m) as [|[|u]] eqn:Hu; [lia|done|].
    exfalso. simpl in Hka.
    set (i := Nat.iter (S u) (successor R C) a) in *.
    assert (Hi : i < a) by (apply Hlt; lia).
    assert (i = b); [|lia].
    apply I4; [lia|done|]. rewrite I1 by lia. done.
Qed.

Lemma arranged_step a σ t :
  a < R * C -> arranged R C a σ -> first_return R C a t ->
  arranged R C (S a)
    (fun j => σ (swap_idx a (Nat.iter t (successor R C) a) j)).
Proof.
  intros Ha Harr Hf.
  pose proof (arranged_source a σ t Ha Harr Hf) as Hsrc.
  destruct Harr as (I1 & I2 & I3 & I4).
  destruct Hf as (Ht & Hge & Hlt).
  set (b := Nat.iter t (successor R C) a) in *.
  assert (Hb : b < R * C) by by apply orbit_lt.
  repeat split.
  - intros i Hi Hin. unfold swap_idx.
    destruct (decide (i = a)) as [->|Hne]; [done|].
    rewrite decide_False by lia. apply I1; lia.
  - intros j Hj. unfold swap_idx.
    rewrite decide_False by lia.
    destruct (decide (j = b)) as [->|Hne].
    + destruct (I2 a) as (m & Hm & Hbelow); [lia|].
      exists (t + m). split.
      * rewrite Nat.iter_add, Hm. done.
      * intros m' Hm'.
        destruct (decide (m' < m)) as [Hlo|Hhi].
        { pose proof (Hbelow m' Hlo). lia. }
        replace m' with ((m' - m) + m) by lia.
        rewrite Nat.iter_add, Hm.
        destruct (m' - m) as [|u] eqn:Hu; [simpl; lia|].
        pose proof (Hlt (S u)). lia.
    + destruct (I2 j) as (m & Hm & Hbelow); [lia|].
      exists m. split; [done|]. intros m' Hm'.
      pose proof (Hbelow m' Hm'). lia.
  - intros j Hj. apply I3. by apply swap_idx_lt.
  - intros x y Hx Hy Heq.
    apply I4 in Heq; [|by apply swap_idx_lt..].
    by apply swap_idx_inj in Heq.
Qed.

Lemma arranged_start : 2 <= R * C -> arranged R C 1 (fun j => j).
Proof.
  intros Hn. repeat split; try done.
  - intros i Hi _. assert (i = 0) as -> by lia. by rewrite successor_first.
  - intros j Hj. exists 0. split; [done|]. intros m' Hm'. lia.
Qed.

Lemma arranged_end σ j :
  arranged R C (R * C - 1) σ -> j < R * C -> σ j = successor R C j.
Proof.
  intros (I1 & I2 & I3 & I4) Hj.
  destruct (decide (j < R * C - 1)) as [Hlt|Hge]; [by apply I1|].
  assert (j = R * C - 1) as -> by lia.
  destruct (I2 (R * C - 1)) as (m & Hm & Hbelow); [lia|].
  rewrite successor_last.
  destruct m as [|m]; [done|].
  exfalso. simpl in Hm.
  rewrite <- successor_last in Hm at 2.
  apply successor_inj in Hm; [|apply orbit_lt, I3; lia|lia].
  pose proof (Hbelow m). lia.
Qed.

Section Data.
Context {T : Type}.
Variable o : list T.

Lemma iter_swap_holds d σ a b :
  a < R * C -> b < R * C -> holds R C o d σ ->
  exists d', iter_swap d a b = Some d' /\
    holds R C o d' (fun j => σ (swap_idx a b j)).
Proof.
  intros Ha Hb (Hlen & Hd). unfold iter_swap.
  destruct (lookup_lt_is_Some_2 d a) as [x Hx]; [lia|].
  destruct (lookup_lt_is_Some_2 d b) as [y Hy]; [lia|].
  rewrite Hx, Hy. eexists. split; [done|]. split.
  - by rewrite !length_insert.
  - intros j Hj. unfold swap_idx.
    destruct (decide (j = b)) as [->|Hnb].
    + rewrite list_lookup_insert_eq by (rewrite length_insert; lia).
      case_decide; subst; rewrite <- Hd by lia; congruence.
    + rewrite list_lookup_insert_ne by done.
      destruct (decide (j = a)) as [->|Hna].
      * rewrite list_lookup_insert_eq by lia. rewrite <- Hd by lia. done.
      * rewrite list_lookup_insert_ne by done. by apply Hd.
Qed.

Lemma transpose_loop_arranged k :
  forall a d σ, 1 <= a -> a + k = R * C - 1 ->
  arranged R C a σ -> holds R C o d σ ->
  exists d' σ', transpose_loop R C d a k = Some d' /\
    arranged R C (R * C - 1) σ' /\ holds R C o d' σ'.
Proof.
  induction k as [|k IH]; intros a d σ Ha Hak Harr Hd.
  - exists d, σ. replace (R * C - 1) with a by lia. done.
  - destruct (follow_returns a) as (t & Hf & Hfollow); [lia|].
    simpl. rewrite Hfollow.
    pose proof (arranged_step a σ t ltac:(lia) Harr Hf) as Harr'.
    assert (Hb : Nat.iter t (successor R C) a < R * C)
      by (apply orbit_lt; lia).
    remember (Nat.iter t (successor R C) a) as b eqn:Hbdef.
    destruct (decide (b = a)) as [->|Hba].
    + apply (IH (S a) d _ ltac:(lia) ltac:(lia) Harr').
      destruct Hd as [Hlen Hd]. split; [done|].
      intros j Hj. unfold swap_idx.
      repeat case_decide; subst; by apply Hd.
    + destruct (iter_swap_holds d σ a b) as (d' & Hsw & Hd'); [lia|done|done|].
      rewrite Hsw.
      apply (IH (S a) d' _ ltac:(lia) ltac:(lia) Harr' Hd').
Qed.

End Data.

Lemma transpose_correct {T : Type} (m : t T) :
  mRows m = R -> mCols m = C -> length (pData m) = R * C ->
  exists d, transpose m = Some (mk C R d) /\ length d = R * C /\
    forall j, j < R * C -> d !! j = pData m !! successor R C j.
Proof.
  intros Hr Hc Hlen. unfold transpose, size. rewrite Hr, Hc.
  destruct (decide (1 < R \/ 1 < C)) as [Hbig|Hsmall].
  - destruct (transpose_loop_arranged (pData m) (R * C - 1 - 1) 1 (pData m)
                (fun j => j)) as (d' & σ' & Hloop & Harr & Hlen' & Hd');
      [done|nia|apply arranged_start; nia|done|].
    rewrite Hloop. exists d'. split; [done|]. split; [done|].
    intros j Hj. rewrite Hd' by done. by rewrite (arranged_end σ' j).
  - assert (R = 1 /\ C = 1) as [-> ->] by lia.
    exists (pData m). split; [done|]. split; [done|].
    intros j Hj. assert (j = 0) as -> by lia. done.
Qed.

End TransposeFacts.

(** C6: on every well-formed matrix, of any shape, [transpose] returns, the
    result has the two dimensions exchanged, and transposing the result
    gives back the matrix it started from; and the 2x3 matrix with rows
    [1,2,3] and [4,5,6] becomes the 3x2 matrix with rows [1,4], [2,5],
    [3,6]. *)
Theorem Map2D_transpose_involution :
  (forall (T : Type) (m : Map2D.t T), Map2D.wf m ->
     exists m1, Map2D.transpose m = Some m1 /\
       Map2D.mRows m1 = Map2D.mCols m /\ Map2D.mCols m1 = Map2D.mRows m /\
       Map2D.transpose m1 = Some m) /\
  Map2D.transpose (Map2D.mk 2 3 [1; 2; 3; 4; 5; 6]) =
    Some (Map2D.mk 3 2 [1; 4; 2; 5; 3; 6]) /\
  Map2D.rows (Map2D.mk 2 3 [1; 2; 3; 4; 5; 6]) = [[1; 2; 3]; [4; 5; 6]] /\
  Map2D.rows (Map2D.mk 3 2 [1; 4; 2; 5; 3; 6]) = [[1; 4]; [2; 5]; [3; 6]].
Proof.
  split; [|by repeat split].
  intros T [R C d] (HR & HC & Hlen). simpl in *. unfold Map2D.size in Hlen.
  simpl in Hlen.
  destruct (transpose_correct R C HR HC (Map2D.mk R C d))
    as (d1 & Ht1 & Hl1 & Hd1); [done..|].
  exists (Map2D.mk C R d1). split; [done|]. split; [done|]. split; [done|].
  destruct (transpose_correct C R HC HR (Map2D.mk C R d1))
    as (d2 & Ht2 & Hl2 & Hd2); [done|done|simpl; lia|].
  rewrite Ht2. f_equal. f_equal.
  apply list_eq. intros j.
  destruct (decide (j < R * C)) as [Hj|Hj].
  - rewrite Hd2 by lia. simpl.
    rewrite Hd1 by (rewrite Nat.mul_comm; apply successor_lt; lia).
    simpl. rewrite successor_inverse by (try done; lia). done.
  - rewrite !lookup_ge_None_2 by lia. done.
Qed.

(** C6 at the 2x3 matrix of the example. *)
Lemma Map2D_transpose_involution_witness :
  exists m1, Map2D.transpose (Map2D.mk 2 3 [1; 2; 3; 4; 5; 6]) = Some m1 /\
    Map2D.mRows m1 = 3 /\ Map2D.mCols m1 = 2 /\
    Map2D.transpose m1 = Some (Map2D.mk 2 3 [1; 2; 3; 4; 5; 6]).
Proof.
  apply (proj1 Map2D_transpose_involution nat
           (Map2D.mk 2 3 [1; 2; 3; 4; 5; 6])).
  repeat split; simpl; lia.
Defined.

(** *** Copies between allocations *)

Section CopyFacts.
Context {T : Type}.
Import Map2D.

Lemma copy_range_spec (src dst : list T) s d n :
  s + n <= length src -> d + n <= length dst ->
  exists dst', copy_range src s dst d n = Some dst' /\
    length dst' = length dst /\
    forall j, dst' !! j =
      if decide (d <= j < d + n) then src !! (s + (j - d)) else dst !! j.
Proof.
  revert s d dst.
  induction n as [|n IH]; intros s d dst Hs Hd; simpl.
  - exists dst. repeat split. intros j. case_decide; [lia|done].
  - destruct (lookup_lt_is_Some_2 src s) as [x Hx]; [lia|].
    rewrite Hx. rewrite decide_True by lia.
    destruct (IH (S s) (S d) (<[d := x]> dst)) as (dst' & Hc & Hl & Hlk);
      rewrite ?length_insert; try lia.
    exists dst'. split; [done|]. rewrite length_insert in Hl. split; [done|].
    intros j. rewrite Hlk.
    destruct (decide (j = d)) as [->|Hne].
    + rewrite list_lookup_insert_eq by lia.
      rewrite decide_False by lia. rewrite decide_True by lia.
      by replace (s + (d - d)) with s by lia.
    + rewrite list_lookup_insert_ne by done.
      repeat case_decide; try lia; try done.
      f_equal. lia.
Qed.

End CopyFacts.

(** ** Display planes, composite buffers and palette *)

Section BitFacts.
Local Open Scope Z_scope.

Lemma land_shiftl_1_testbit (x : Z) (p : nat) :
  Z.land x (Z.shiftl 1 (Z.of_nat p)) <> 0 <->
  Z.testbit x (Z.of_nat p) = true.
Proof.
  rewrite Z.shiftl_1_l.
  split.
  - intros Hne. destruct (Z.testbit x (Z.of_nat p)) eqn:Hb; [done|].
    exfalso. apply Hne. apply Z.bits_inj'. intros n Hn.
    rewrite Z.land_spec, Z.bits_0, Z.pow2_bits_eqb by lia.
    destruct (Z.eqb_spec (Z.of_nat p) n) as [<-|]; [by rewrite Hb|].
    by rewrite andb_false_r.
  - intros Hb Hz.
    assert (Hbit : Z.testbit (Z.land x (2 ^ Z.of_nat p)) (Z.of_nat p) = true).
    { rewrite Z.land_spec, Hb, Z.pow2_bits_eqb, Z.eqb_refl by lia. done. }
    rewrite Hz, Z.bits_0 in Hbit. done.
Qed.


Lemma wrap_small (w x : Z) : 0 <= x < 2 ^ w -> wrap w x = x.
Proof. intros Hx. unfold wrap. by apply Z.mod_small. Qed.

Lemma wrap_add_l (w x y : Z) : wrap w (wrap w x + y) = wrap w (x + y).
Proof. unfold wrap. apply Zplus_mod_idemp_l. Qed.


End BitFacts.

Section MemoryBanksFacts.
Import MemoryBanks.
Context {P C K : Type}.
Context {HP : Arithmetic P} {HI : Integral P} {HC : Arithmetic C} {HK : Arithmetic K}.
Variable flushDisplay : VM_Guest -> VM_Guest.

Lemma wipeAll_painted (plane : Map2D.t P) :
  Map2D.wf plane -> Map2D.wipeAll plane = painted CLR plane.
Proof.
  intros (_ & _ & Hlen). unfold Map2D.wipeAll, painted.
  f_equal. rewrite <- Hlen. symmetry. by apply const_fmap.
Qed.

Lemma painted_wf (type : BrushType) (plane : Map2D.t P) :
  Map2D.wf plane -> Map2D.wf (painted type plane).
Proof.
  intros (Hr & Hc & Hlen). repeat split; try done.
  simpl. by rewrite length_fmap.
Qed.

Lemma brush_painted (type : BrushType) (plane : Map2D.t P) :
  Map2D.wf plane -> brush type plane = Some (painted type plane).
Proof.
  intros Hwf. destruct type; simpl.
  - by rewrite wipeAll_painted.
  - by apply rows_apply_map.
  - by apply rows_apply_map.
  - by apply rows_apply_map.
Qed.

Lemma planes_loop_spec (type : BrushType) (selected : Z) n :
  forall (db : list (Map2D.t P)) p0,
  p0 + n <= length db -> Forall Map2D.wf db ->
  exists db', planes_loop type selected db p0 n = Some db' /\
    length db' = length db /\
    forall p plane, db !! p = Some plane ->
      db' !! p = Some
        (if decide (p0 <= p < p0 + n)
         then if plane_is_selected selected p then painted type plane
              else plane
         else plane).
Proof.
  induction n as [|n IH]; intros db p0 Hlen Hwf; simpl.
  - exists db. repeat split. intros p plane Hp.
    by rewrite decide_False by lia.
  - destruct (decide (Z.land selected (Z.shiftl 1 (Z.of_nat p0)) <> 0%Z))
      as [Hsel|Hsel]; rewrite land_shiftl_1_testbit in Hsel.
    + destruct (lookup_lt_is_Some_2 db p0) as [plane0 Hp0]; [lia|].
      assert (Hwf0 : Map2D.wf plane0) by by eapply Forall_lookup_1.
      rewrite Hp0, brush_painted by done.
      destruct (IH (<[p0 := painted type plane0]> db) (S p0))
        as (db' & Hloop & Hl & Hlk).
      { rewrite length_insert. lia. }
      { apply Forall_insert; [done|]. by apply painted_wf. }
      exists db'. split; [done|]. rewrite length_insert in Hl.
      split; [done|].
      intros p plane Hp.
      destruct (decide (p = p0)) as [->|Hne].
      * rewrite (Hlk p0 (painted type plane0)).
        2:{ apply list_lookup_insert_eq. lia. }
        rewrite decide_False by lia. rewrite decide_True by lia.
        unfold plane_is_selected. rewrite Hsel. congruence.
      * rewrite (Hlk p plane) by by rewrite list_lookup_insert_ne.
        repeat case_decide; try lia; done.
    + destruct (IH db (S p0)) as (db' & Hloop & Hl & Hlk); [lia|done|].
      exists db'. split; [done|]. split; [done|].
      intros p plane Hp. rewrite (Hlk p plane Hp).
      destruct (decide (p = p0)) as [->|Hne].
      * rewrite decide_False by lia. rewrite decide_True by lia.
        unfold plane_is_selected.
        by destruct (Z.testbit selected (Z.of_nat p0)).
      * repeat case_decide; try lia; done.
Qed.

(** C5: on a manager with its four well-formed planes, [modifyViewport]
    returns and touches nothing but the planes.  With multicolor mode off,
    plane 0 is zero-filled and planes 1-3 are as they were, whatever the
    operation and the mask.  With multicolor mode on, a plane whose bit is
    set in the mask has the operation applied to every element (Clear:
    zero; Xor: [elem ^ 1]; Subtract: [elem & ~1]; Add: [elem | 1]) and a
    plane whose bit is clear is as it was. *)
Theorem MemoryBanks_modifyViewport_planes
    (type : BrushType) (vm : VM_Guest) (mb : t P C K) :
  length (displayBuffer mb) = 4 -> Forall Map2D.wf (displayBuffer mb) ->
  exists mb', modifyViewport type vm mb = Some mb' /\
    foregroundBuffer mb' = foregroundBuffer mb /\
    backgroundBuffer mb' = backgroundBuffer mb /\
    collisionPalette mb' = collisionPalette mb /\
    megaPalette mb' = megaPalette mb /\
    length (displayBuffer mb') = 4 /\
    forall p plane, displayBuffer mb !! p = Some plane ->
      displayBuffer mb' !! p = Some
        (if xochip_color vm
         then if plane_is_selected (plane_selected vm) p
              then painted type plane else plane
         else if decide (p = 0) then painted CLR plane else plane).
Proof.
  intros Hlen Hwf. unfold modifyViewport.
  destruct (xochip_color vm); cbn [negb].
  - destruct (planes_loop_spec type (plane_selected vm) 4 (displayBuffer mb) 0)
      as (db' & Hloop & Hl & Hlk); [lia|done|].
    rewrite Hloop. eexists. split; [done|]. simpl.
    repeat split; try done; [lia|].
    intros p plane Hp. rewrite (Hlk p plane Hp).
    apply lookup_lt_Some in Hp.
    by rewrite decide_True by lia.
  - destruct (lookup_lt_is_Some_2 (displayBuffer mb) 0) as [plane0 Hp0]; [lia|].
    rewrite Hp0. eexists. split; [done|]. simpl.
    repeat split; try done; [by rewrite length_insert|].
    intros p plane Hp.
    destruct (decide (p = 0)) as [->|Hne].
    + rewrite list_lookup_insert_eq by lia.
      rewrite wipeAll_painted by by eapply Forall_lookup_1.
      congruence.
    + by rewrite list_lookup_insert_ne.
Qed.

Lemma copyLinear_lookup (self other : Map2D.t C) (i : nat) :
  Map2D.wf self -> Map2D.wf other ->
  Map2D.pData (Map2D.copyLinear self other) !! i =
    if decide (i < min (Map2D.size self) (Map2D.size other))
    then Map2D.pData other !! i else Map2D.pData self !! i.
Proof.
  intros (_ & _ & Hs) (_ & _ & Ho). unfold Map2D.copyLinear. simpl.
  set (n := min (Map2D.size self) (Map2D.size other)).
  assert (Hn : length (take n (Map2D.pData other)) = n).
  { rewrite length_take. lia. }
  case_decide.
  - rewrite lookup_app_l by lia. rewrite lookup_take. by rewrite decide_True.
  - rewrite lookup_app_r by lia. rewrite lookup_drop, Hn. f_equal. lia.
Qed.

Lemma wipeAll_zeroed {T : Type} {HA : Arithmetic T} (m : Map2D.t T) :
  Map2D.same_shape m (Map2D.wipeAll m) /\ Map2D.zeroed (Map2D.wipeAll m).
Proof.
  split; [done|]. intros i Hi. simpl. by apply lookup_replicate_2.
Qed.

(** C2, as the code has it: a flush that is not the first one copies the
    background onto the foreground (the overlapping prefix, element for
    element) and keeps the palette; the first flush zeroes every palette
    entry and leaves the foreground as it was; every flush then leaves the
    background and the collision buffer zero-filled in their shapes, the
    display planes untouched, and signals the guest. *)
Theorem MemoryBanks_flushBuffers_effect
    (firstFlush : bool) (vm : VM_Guest) (mb : t P C K) :
  Map2D.wf (foregroundBuffer mb) -> Map2D.wf (backgroundBuffer mb) ->
  (if firstFlush
   then
     foregroundBuffer (fst (flushBuffers flushDisplay firstFlush vm mb))
       = foregroundBuffer mb /\
     length (megaPalette (fst (flushBuffers flushDisplay firstFlush vm mb)))
       = length (megaPalette mb) /\
     (forall i, i < length (megaPalette mb) ->
        megaPalette (fst (flushBuffers flushDisplay firstFlush vm mb)) !! i
          = Some 0%Z)
   else
     Map2D.same_shape (foregroundBuffer mb)
       (foregroundBuffer (fst (flushBuffers flushDisplay firstFlush vm mb))) /\
     (forall i,
        Map2D.pData
          (foregroundBuffer (fst (flushBuffers flushDisplay firstFlush vm mb)))
          !! i =
        if decide (i < min (Map2D.size (foregroundBuffer mb))
                           (Map2D.size (backgroundBuffer mb)))
        then Map2D.pData (backgroundBuffer mb) !! i
        else Map2D.pData (foregroundBuffer mb) !! i) /\
     megaPalette (fst (flushBuffers flushDisplay firstFlush vm mb))
       = megaPalette mb) /\
  Map2D.same_shape (backgroundBuffer mb)
    (backgroundBuffer (fst (flushBuffers flushDisplay firstFlush vm mb))) /\
  Map2D.zeroed
    (backgroundBuffer (fst (flushBuffers flushDisplay firstFlush vm mb))) /\
  Map2D.same_shape (collisionPalette mb)
    (collisionPalette (fst (flushBuffers flushDisplay firstFlush vm mb))) /\
  Map2D.zeroed
    (collisionPalette (fst (flushBuffers flushDisplay firstFlush vm mb))) /\
  displayBuffer (fst (flushBuffers flushDisplay firstFlush vm mb))
    = displayBuffer mb /\
  snd (flushBuffers flushDisplay firstFlush vm mb) = flushDisplay vm.
Proof.
  intros Hfg Hbg. unfold flushBuffers. cbn [fst snd].
  cbn [foregroundBuffer backgroundBuffer collisionPalette megaPalette
       displayBuffer].
  split; [|by repeat split; try apply wipeAll_zeroed].
  destruct firstFlush.
  - split; [done|]. split; [by rewrite length_fmap|].
    intros i Hi. rewrite list_lookup_fmap.
    destruct (lookup_lt_is_Some_2 (megaPalette mb) i Hi) as [x ->]. done.
  - split; [done|]. split; [|done].
    intros i. by apply copyLinear_lookup.
Qed.





End MemoryBanksFacts.

(** C5 at the sample session (multicolor on, planes 0 and 2 selected):
    an Xor operation toggles plane 0 and leaves plane 1 alone. *)
Lemma MemoryBanks_modifyViewport_planes_witness :
  exists mb',
    MemoryBanks.modifyViewport (HP := u8_arith) (HI := u8_integral)
      MemoryBanks.XOR MemoryBanks.sample_guest MemoryBanks.sample_banks
      = Some mb' /\
    MemoryBanks.displayBuffer mb' !! 0 = Some (Map2D.mk 1 2 [0; 1]%Z) /\
    MemoryBanks.displayBuffer mb' !! 1 = Some (Map2D.mk 1 2 [0; 1]%Z).
Proof.
  destruct (MemoryBanks_modifyViewport_planes
              (HP := u8_arith) (HI := u8_integral)
              MemoryBanks.XOR MemoryBanks.sample_guest MemoryBanks.sample_banks)
    as (mb' & Hrun & _ & _ & _ & _ & _ & Hplanes).
  - reflexivity.
  - repeat constructor.
  - exists mb'. split; [exact Hrun|]. split.
    + exact (Hplanes 0 (Map2D.mk 1 2 [1; 0]%Z) eq_refl).
    + exact (Hplanes 1 (Map2D.mk 1 2 [0; 1]%Z) eq_refl).
Defined.

(** C2 as stated fails on a first flush: the foreground keeps [1, 2] while
    the background held [7, 8]. *)
Lemma MemoryBanks_first_flush_keeps_foreground :
  MemoryBanks.foregroundBuffer
    (fst (MemoryBanks.flushBuffers (HC := u32_arith) (HK := u8_arith)
            (fun vm => vm) true
            MemoryBanks.sample_guest MemoryBanks.sample_banks))
    = Map2D.mk 1 2 [1; 2]%Z /\
  Map2D.copyLinear (MemoryBanks.foregroundBuffer MemoryBanks.sample_banks)
                   (MemoryBanks.backgroundBuffer MemoryBanks.sample_banks)
    = Map2D.mk 1 2 [7; 8]%Z /\
  MemoryBanks.foregroundBuffer
    (fst (MemoryBanks.flushBuffers (HC := u32_arith) (HK := u8_arith)
            (fun vm => vm) true
            MemoryBanks.sample_guest MemoryBanks.sample_banks))
    <> Map2D.copyLinear
         (MemoryBanks.foregroundBuffer MemoryBanks.sample_banks)
         (MemoryBanks.backgroundBuffer MemoryBanks.sample_banks).
Proof. repeat split. vm_compute. discriminate. Qed.

(** C2 (amended) at the sample session, on a flush that is not the first:
    the foreground receives the background's first pixel. *)
Lemma MemoryBanks_flushBuffers_effect_witness :
  Map2D.pData
    (MemoryBanks.foregroundBuffer
       (fst (MemoryBanks.flushBuffers (HC := u32_arith) (HK := u8_arith)
               (fun vm => vm) false
               MemoryBanks.sample_guest MemoryBanks.sample_banks))) !! 0
    = Some 7%Z.
Proof.
  destruct (MemoryBanks_flushBuffers_effect
              (HC := u32_arith) (HK := u8_arith) (fun vm => vm) false
              MemoryBanks.sample_guest MemoryBanks.sample_banks)
    as ((_ & Hcopy & _) & _).
  - repeat split; simpl; lia.
  - repeat split; simpl; lia.
  - exact (Hcopy 0).
Defined.



(** ** Row proxies *)

Section RowProxyFacts.
Context {T : Type} {HA : Arithmetic T}.
Import Map2D.

Lemma std_rotate_length (k : nat) (l : list T) :
  length (std_rotate k l) = length l.
Proof.
  unfold std_rotate. rewrite length_app, length_drop, length_take. lia.
Qed.

Lemma std_rotate_lookup (k i : nat) (l : list T) :
  k <= length l -> i < length l ->
  std_rotate k l !! i = l !! ((i + k) mod length l).
Proof.
  intros Hk Hi. unfold std_rotate.
  destruct (decide (i < length l - k)) as [Hlo|Hhi].
  - rewrite lookup_app_l by (rewrite length_drop; lia).
    rewrite lookup_drop. rewrite Nat.mod_small by lia. f_equal. lia.
  - rewrite lookup_app_r by (rewrite length_drop; lia).
    rewrite length_drop, lookup_take.
    rewrite decide_True by lia.
    f_equal.
    rewrite <- (Nat.mod_unique (i + k) (length l) 1 (i - (length l - k)));
      lia.
Qed.

Lemma row_wipe_length (cols : Z) (row : list T) :
  length (row_wipe cols row) = length row.
Proof.
  unfold row_wipe, row_wipeAll.
  repeat case_match; rewrite ?length_app, ?length_replicate, ?length_take,
    ?length_drop; try lia.
Qed.

Lemma row_wipe_lookup (cols : Z) (row : list T) (i : nat) :
  i < length row ->
  row_wipe cols row !! i =
    if decide (in_wiped cols (length row) i) then Some zero else row !! i.
Proof.
  intros Hi. unfold row_wipe, row_wipeAll, in_wiped.
  destruct (Z.leb_spec (Z.of_nat (length row)) (Z.abs cols)) as [Hall|Hpart].
  - rewrite lookup_replicate_2 by done.
    rewrite decide_True by lia. done.
  - destruct (Z.eqb_spec cols 0) as [->|Hnz].
    + rewrite decide_False by lia. done.
    + destruct (Z.ltb_spec cols 0) as [Hneg|Hpos].
      * destruct (decide (i < length row - Z.to_nat (Z.abs cols))) as [Hlo|Hhi].
        -- rewrite lookup_app_l by (rewrite length_take; lia).
           rewrite lookup_take, decide_True by lia.
           rewrite decide_False by lia. done.
        -- rewrite lookup_app_r by (rewrite length_take; lia).
           rewrite lookup_replicate_2 by (rewrite length_take; lia).
           rewrite decide_True by lia. done.
      * destruct (decide (i < Z.to_nat (Z.abs cols))) as [Hlo|Hhi].
        -- rewrite lookup_app_l by (rewrite length_replicate; lia).
           rewrite lookup_replicate_2 by lia.
           rewrite decide_True by lia. done.
        -- rewrite lookup_app_r by (rewrite length_replicate; lia).
           rewrite length_replicate, lookup_drop.
           rewrite decide_False by lia. f_equal. lia.
Qed.

Lemma row_rotate_spec (cols : Z) (row : list T) :
  row <> [] ->
  exists rotated, row_rotate cols row = Some rotated /\
    length rotated = length row /\
    forall i, i < length row ->
      rotated !! i =
        row !! Z.to_nat ((Z.of_nat i - cols) mod Z.of_nat (length row)).
Proof.
  intros Hne.
  assert (Hlen : 0 < length row) by (destruct row; [done|simpl; lia]).
  unfold row_rotate.
  destruct (Z.eqb_spec cols 0) as [->|Hnz].
  - exists row. repeat split. intros i Hi.
    rewrite Z.sub_0_r, Z.mod_small by lia. by rewrite Nat2Z.id.
  - rewrite decide_False by lia.
    set (n := Z.of_nat (length row)).
    assert (Hk : (0 <= Z.abs cols mod n < n)%Z) by (apply Z.mod_pos_bound; lia).
    destruct (Z.ltb_spec cols 0) as [Hneg|Hpos]; eexists; split; try done;
      split; try apply std_rotate_length; intros i Hi;
      rewrite std_rotate_lookup by lia; f_equal;
      apply Nat2Z.inj; rewrite Nat2Z.inj_mod, Z2Nat.id
        by (apply Z.mod_pos_bound; lia); fold n.
    + rewrite Nat2Z.inj_add, Z2Nat.id by lia.
      rewrite Z.add_mod_idemp_r by lia. f_equal. lia.
    + rewrite Nat2Z.inj_add, Nat2Z.inj_sub, Z2Nat.id by lia. fold n.
      rewrite Z.abs_eq by lia.
      replace (Z.of_nat i + (n - cols mod n))%Z
        with ((Z.of_nat i - cols mod n) + 1 * n)%Z by lia.
      rewrite Z.mod_add by lia.
      rewrite Zminus_mod_idemp_r. done.
Qed.

(** X1: [wipe(cols)] keeps the length of the row and clears exactly the wiped
    region: the first [cols] elements for a positive [cols], the last
    [-cols] for a negative one, everything once [|cols|] reaches the
    length, nothing for 0. *)
Theorem RowProxy_wipe_region (cols : Z) (row : list T) (i : nat) :
  length (row_wipe cols row) = length row /\
  (i < length row ->
   row_wipe cols row !! i =
     if decide (in_wiped cols (length row) i) then Some zero else row !! i).
Proof. split; [apply row_wipe_length|apply row_wipe_lookup]. Qed.

(** X2: [rotate(cols)] on a non-empty row returns, keeps the length, and moves
    every element [cols] places toward the end, cyclically: the element at
    [i] is the one that was at [(i - cols) mod length]. *)
Theorem RowProxy_rotate_cyclic (cols : Z) (row : list T) :
  row <> [] ->
  exists rotated, row_rotate cols row = Some rotated /\
    length rotated = length row /\
    forall i, i < length row ->
      rotated !! i =
        row !! Z.to_nat ((Z.of_nat i - cols) mod Z.of_nat (length row)).
Proof. apply row_rotate_spec. Qed.

(** X3: Rotating by [cols] and then by [-cols] gives the row back. *)
Theorem RowProxy_rotate_inverse (cols : Z) (row : list T) :
  row <> [] ->
  exists rotated, row_rotate cols row = Some rotated /\
    row_rotate (- cols) rotated = Some row.
Proof.
  intros Hne.
  destruct (row_rotate_spec cols row Hne) as (r1 & Hr1 & Hl1 & Hk1).
  exists r1. split; [done|].
  assert (Hne1 : r1 <> []).
  { intros ->. destruct row; [done|simpl in Hl1; lia]. }
  destruct (row_rotate_spec (- cols) r1 Hne1) as (r2 & Hr2 & Hl2 & Hk2).
  rewrite Hr2. f_equal.
  apply list_eq. intros i.
  destruct (decide (i < length row)) as [Hi|Hi].
  - rewrite Hk2 by lia. rewrite Hl1.
    set (n := Z.of_nat (length row)).
    assert (Hn : (0 < n)%Z) by lia.
    assert (Hj : (0 <= (Z.of_nat i - - cols) mod n < n)%Z)
      by (apply Z.mod_pos_bound; lia).
    rewrite Hk1 by lia. fold n. f_equal.
    rewrite Z2Nat.id by lia.
    rewrite Zminus_mod_idemp_l.
    replace (Z.of_nat i - - cols - cols)%Z with (Z.of_nat i) by lia.
    rewrite Z.mod_small by lia. by rewrite Nat2Z.id.
  - rewrite !lookup_ge_None_2 by lia. done.
Qed.

(** X4: [shift(cols)] is a shift register: it returns, keeps the length, and
    the element at [i] is the one that was at [i - cols] when that index
    exists, and [T()] otherwise; a shift by the length or more clears the
    row. *)
Theorem RowProxy_shift_register (cols : Z) (row : list T) :
  exists shifted, row_shift cols row = Some shifted /\
    length shifted = length row /\
    forall i, i < length row ->
      shifted !! i =
        if decide (0 <= Z.of_nat i - cols < Z.of_nat (length row))%Z
        then row !! Z.to_nat (Z.of_nat i - cols)
        else Some zero.
Proof.
  unfold row_shift.
  destruct (Z.ltb_spec (Z.abs cols) (Z.of_nat (length row))) as [Hin|Hout].
  - assert (Hne : row <> []) by (intros ->; simpl in Hin; lia).
    destruct (row_rotate_spec cols row Hne) as (r1 & Hr1 & Hl1 & Hk1).
    rewrite Hr1. eexists. split; [done|].
    split; [by rewrite row_wipe_length|].
    intros i Hi.
    rewrite row_wipe_lookup by lia. rewrite Hl1. unfold in_wiped.
    destruct (decide (0 <= Z.of_nat i - cols < Z.of_nat (length row))%Z)
      as [Hkeep|Hdrop].
    + rewrite decide_False by lia. rewrite Hk1 by done.
      by rewrite Z.mod_small by lia.
    + rewrite decide_True by lia. done.
  - eexists. split; [done|]. split; [by rewrite row_wipe_length|].
    intros i Hi.
    rewrite row_wipe_lookup by lia. unfold in_wiped.
    rewrite decide_True by lia. rewrite decide_False by lia. done.
Qed.

(** X5: The checked accessor [at(col)] accepts exactly the indices
    [-length <= col < length], a negative one counting from the end (so
    [at(-1)] is the last element), and throws [out_of_range] for every
    other index. *)
Theorem RowProxy_at_checked (row : list T) (col : Z) :
  ((- Z.of_nat (length row) <= col < Z.of_nat (length row))%Z ->
   exists x, row_at row col = inr (Some x) /\
     row !! Z.to_nat (col mod Z.of_nat (length row)) = Some x) /\
  (~ (- Z.of_nat (length row) <= col < Z.of_nat (length row))%Z ->
   row_at row col = inl (out_of_range "column index out of range")).
Proof.
  unfold row_at, row_checkColBounds, check_bounds.
  split.
  - intros Hin.
    destruct (Z.ltb_spec col (- Z.of_nat (length row))); [lia|].
    destruct (Z.leb_spec (Z.of_nat (length row)) col); [lia|].
    cbn [orb].
    destruct (Z.ltb_spec col 0) as [Hneg|Hpos].
    + replace (col mod Z.of_nat (length row))%Z
        with (col + Z.of_nat (length row))%Z.
      2:{ rewrite <- (Z.mod_small (col + Z.of_nat (length row))
                        (Z.of_nat (length row))) by lia.
          rewrite <- (Z.mod_add col 1) by lia. f_equal. lia. }
      destruct (lookup_lt_is_Some_2 row
                  (Z.to_nat (col + Z.of_nat (length row)))) as [x Hx]; [lia|].
      exists x. by rewrite Hx.
    + rewrite Z.mod_small by lia.
      destruct (lookup_lt_is_Some_2 row (Z.to_nat col)) as [x Hx]; [lia|].
      exists x. by rewrite Hx.
  - intros Hout.
    destruct (Z.ltb_spec col (- Z.of_nat (length row))); [done|].
    destruct (Z.leb_spec (Z.of_nat (length row)) col); [done|]. lia.
Qed.

End RowProxyFacts.

(** ** Matrix operations *)

Section MatrixFacts.
Context {T : Type} {HA : Arithmetic T}.
Import Map2D.

Lemma segment_lookup (data : list T) (first cols c : nat) :
  c < cols -> take cols (drop first data) !! c = data !! (first + c).
Proof.
  intros Hc. rewrite lookup_take, decide_True by done. apply lookup_drop.
Qed.

Lemma segment_length (data : list T) (first cols : nat) :
  first + cols <= length data -> length (take cols (drop first data)) = cols.
Proof. intros Hl. rewrite length_take, length_drop. lia. Qed.

Lemma splice_lookup (data row' : list T) (first cols j : nat) :
  first + cols <= length data -> length row' = cols ->
  (take first data ++ row' ++ drop (first + cols) data) !! j =
    if decide (first <= j < first + cols) then row' !! (j - first)
    else data !! j.
Proof.
  intros Hl Hr.
  destruct (decide (j < first)) as [Hlo|Hge].
  - rewrite lookup_app_l by (rewrite length_take; lia).
    rewrite lookup_take, decide_True by done.
    by rewrite decide_False by lia.
  - rewrite lookup_app_r by (rewrite length_take; lia).
    rewrite length_take, Nat.min_l by lia.
    destruct (decide (j < first + cols)) as [Hin|Hout].
    + rewrite lookup_app_l by lia. by rewrite decide_True by lia.
    + rewrite lookup_app_r by lia. rewrite lookup_drop, Hr.
      rewrite decide_False by lia. f_equal. lia.
Qed.

Lemma splice_length (data row' : list T) (first cols : nat) :
  first + cols <= length data -> length row' = cols ->
  length (take first data ++ row' ++ drop (first + cols) data) = length data.
Proof.
  intros Hl Hr. rewrite !length_app, length_take, length_drop. lia.
Qed.

(** The row loop rewrites every row, from the one it starts at, with the
    row operation applied to that row's elements, and meets [mEnd()]. *)
Lemma each_row_op_spec (op : list T -> option (list T))
    (g : list T -> list T) (cols nrows : nat) k :
  (forall row, length row = cols ->
     op row = Some (g row) /\ length (g row) = cols) ->
  forall (data : list T) r fuel,
  1 <= cols -> r + k = nrows -> length data = nrows * cols -> k < fuel ->
  exists d', each_row_op op cols (nrows * cols) data (r * cols) fuel = Some d' /\
    length d' = length data /\
    (forall j, j < r * cols -> d' !! j = data !! j) /\
    (forall r' c, r <= r' < nrows -> c < cols ->
       d' !! (r' * cols + c) = g (take cols (drop (r' * cols) data)) !! c).
Proof.
  intros Hop.
  induction k as [|k IH]; intros data r fuel Hc Hr Hlen Hfuel.
  - assert (r = nrows) as -> by lia.
    destruct fuel as [|fuel]; [lia|]. simpl.
    rewrite decide_True by done.
    exists data. split; [done|]. split; [done|]. split; [done|].
    intros r' c Hr'. lia.
  - destruct fuel as [|fuel]; [lia|]. simpl.
    rewrite decide_False by nia.
    assert (Hseg : length (take cols (drop (r * cols) data)) = cols)
      by (apply segment_length; nia).
    destruct (Hop _ Hseg) as [Hrow Hgl]. rewrite Hrow.
    set (row' := g (take cols (drop (r * cols) data))) in *.
    set (data1 := take (r * cols) data ++ row' ++ drop (r * cols + cols) data).
    assert (Hl1 : length data1 = length data) by (apply splice_length; nia).
    destruct (IH data1 (S r) fuel) as (d' & Hd' & Hl & Hlow & Hrows);
      try lia.
    replace (r * cols + cols) with (S r * cols) by lia.
    exists d'. split; [done|]. split; [lia|]. split.
    + intros j Hj. rewrite Hlow by lia. unfold data1.
      rewrite splice_lookup by (done || nia).
      by rewrite decide_False by lia.
    + intros r' c Hr' Hcc.
      destruct (decide (r' = r)) as [->|Hne].
      * rewrite Hlow by nia. unfold data1.
        rewrite splice_lookup by (done || nia).
        rewrite decide_True by nia. f_equal. lia.
      * rewrite Hrows by (done || lia).
        assert (Hsame : take cols (drop (r' * cols) data1)
                        = take cols (drop (r' * cols) data)).
        { apply list_eq. intros i.
          destruct (decide (i < cols)) as [Hi|Hi].
          - rewrite !segment_lookup by done. unfold data1.
            rewrite splice_lookup by (done || nia).
            by rewrite decide_False by nia.
          - rewrite !lookup_take_ge by lia. done. }
        by rewrite Hsame.
Qed.

Lemma rows_op_spec (op : list T -> option (list T)) (g : list T -> list T)
    (m : t T) :
  wf m ->
  (forall row, length row = mCols m ->
     op row = Some (g row) /\ length (g row) = mCols m) ->
  exists d', rows_op op m = Some d' /\ length d' = size m /\
    forall r c, r < mRows m -> c < mCols m ->
      d' !! (r * mCols m + c) = g (row_of m r) !! c.
Proof.
  intros (Hr & Hc & Hlen) Hop. unfold rows_op, size in *.
  destruct (each_row_op_spec op g (mCols m) (mRows m) (mRows m) Hop
              (pData m) 0 (S (mRows m * mCols m)))
    as (d' & Hd' & Hl & _ & Hrows); try done; try nia.
  rewrite Nat.mul_0_l in Hd'. exists d'. split; [done|]. split; [lia|].
  intros r c Hrr Hcc. apply Hrows; [lia|done].
Qed.

(** Two buffers of a matrix shape are equal when all their cells are. *)
Lemma cells_eq (nrows cols : nat) (d1 d2 : list T) :
  length d1 = nrows * cols -> length d2 = nrows * cols ->
  (forall r c, r < nrows -> c < cols ->
     d1 !! (r * cols + c) = d2 !! (r * cols + c)) ->
  d1 = d2.
Proof.
  intros H1 H2 Hcells. apply list_eq. intros j.
  destruct (decide (j < nrows * cols)) as [Hj|Hj].
  - assert (Hc : 0 < cols) by nia.
    pose proof (Nat.div_mod_eq j cols) as Hdm.
    pose proof (Nat.mod_upper_bound j cols ltac:(lia)) as Hm.
    assert (Hq : j / cols < nrows).
    { apply Nat.Div0.div_lt_upper_bound. lia. }
    replace j with (j / cols * cols + j mod cols) by lia.
    by apply Hcells.
  - rewrite !lookup_ge_None_2 by lia. done.
Qed.

(** X6: Every constructor call yields a well-formed, zero-filled matrix whose
    dimensions are [max(1, |rows|)] by [max(1, |cols|)]: a requested
    dimension of 0 becomes 1 and a negative one its absolute value. *)
Theorem Map2D_construct_clamps (rows cols : Z) :
  wf (construct rows cols) /\
  zeroed (construct rows cols) /\
  Z.of_nat (mRows (construct rows cols)) = Z.max 1 (Z.abs rows) /\
  Z.of_nat (mCols (construct rows cols)) = Z.max 1 (Z.abs cols).
Proof.
  unfold construct, wf, zeroed, size. cbn [mRows mCols pData].
  repeat split; try lia.
  - by rewrite length_replicate.
  - intros i Hi. by apply lookup_replicate_2.
Qed.

Lemma check_bounds_in (what : string) (len : nat) (idx : Z) :
  (- Z.of_nat len <= idx < Z.of_nat len)%Z ->
  check_bounds what len idx = inr (Z.to_nat (idx mod Z.of_nat len)) /\
  Z.to_nat (idx mod Z.of_nat len) < len.
Proof.
  intros Hin. unfold check_bounds.
  destruct (Z.ltb_spec idx (- Z.of_nat len)); [lia|].
  destruct (Z.leb_spec (Z.of_nat len) idx); [lia|].
  cbn [orb].
  assert (Hm : (0 <= idx mod Z.of_nat len < Z.of_nat len)%Z)
    by (apply Z.mod_pos_bound; lia).
  split; [|lia].
  destruct (Z.ltb_spec idx 0) as [Hneg|Hpos].
  - do 2 f_equal.
    rewrite <- (Z.mod_small (idx + Z.of_nat len) (Z.of_nat len)) by lia.
    rewrite <- (Z.mod_add idx 1) by lia. f_equal. lia.
  - by rewrite Z.mod_small by lia.
Qed.

Lemma check_bounds_out (what : string) (len : nat) (idx : Z) :
  ~ (- Z.of_nat len <= idx < Z.of_nat len)%Z ->
  check_bounds what len idx = inl (out_of_range what).
Proof.
  intros Hout. unfold check_bounds.
  destruct (Z.ltb_spec idx (- Z.of_nat len)); [done|].
  destruct (Z.leb_spec (Z.of_nat len) idx); [done|]. lia.
Qed.

(** X7: The checked cell accessor [at(row, col)] of a well-formed matrix
    returns a cell exactly when [-mRows <= row < mRows] and
    [-mCols <= col < mCols], negative indices counting from the end on
    either axis, and throws [out_of_range] whenever one index is outside
    its range. *)
Theorem Map2D_at_checked_bounds (m : t T) (row col : Z) :
  wf m ->
  ((- Z.of_nat (mRows m) <= row < Z.of_nat (mRows m))%Z /\
   (- Z.of_nat (mCols m) <= col < Z.of_nat (mCols m))%Z ->
   exists x, at_checked m row col = inr (Some x) /\
     at_raw m (Z.to_nat (row mod Z.of_nat (mRows m)))
              (Z.to_nat (col mod Z.of_nat (mCols m))) = Some x) /\
  (~ ((- Z.of_nat (mRows m) <= row < Z.of_nat (mRows m))%Z /\
      (- Z.of_nat (mCols m) <= col < Z.of_nat (mCols m))%Z) ->
   exists what, at_checked m row col = inl (out_of_range what)).
Proof.
  intros (Hr & Hc & Hlen). unfold at_checked, checkRowBounds, checkColBounds.
  split.
  - intros [Hrow Hcol].
    destruct (check_bounds_in "row index out of range" _ _ Hrow) as [-> Hrb].
    destruct (check_bounds_in "column index out of range" _ _ Hcol)
      as [-> Hcb].
    unfold at_raw, size in *.
    destruct (lookup_lt_is_Some_2 (pData m)
                (Z.to_nat (row mod Z.of_nat (mRows m)) * mCols m +
                 Z.to_nat (col mod Z.of_nat (mCols m)))) as [x Hx]; [nia|].
    exists x. by rewrite Hx.
  - intros Hout.
    destruct (decide (- Z.of_nat (mRows m) <= row < Z.of_nat (mRows m))%Z)
      as [Hrow|Hrow].
    + destruct (check_bounds_in "row index out of range" _ _ Hrow) as [-> _].
      rewrite check_bounds_out by tauto. by eexists.
    + rewrite check_bounds_out by done. by eexists.
Qed.

Lemma negmod_mod (lhs rhs : Z) :
  (0 < rhs)%Z ->
  negmod lhs rhs = (lhs mod rhs)%Z /\ (0 <= negmod lhs rhs < rhs)%Z.
Proof.
  intros Hrhs.
  assert (Heq : negmod lhs rhs = (lhs mod rhs)%Z).
  { unfold negmod.
    pose proof (Z.quot_rem' lhs rhs) as Hqr.
    pose proof (Z.rem_bound_abs lhs rhs ltac:(lia)) as Hb.
    destruct (Z.ltb_spec (Z.rem lhs rhs) 0) as [Hneg|Hpos].
    - apply (Z.mod_unique lhs rhs (lhs ÷ rhs - 1)); lia.
    - apply (Z.mod_unique lhs rhs (lhs ÷ rhs)); lia. }
  split; [done|]. rewrite Heq. apply Z.mod_pos_bound. lia.
Qed.

(** X8: [negmod] is the mathematical modulo for a positive modulus: its result
    lies in [[0, rhs)] also when [lhs] is negative. *)
Theorem Map2D_negmod_range (lhs rhs : Z) :
  (0 < rhs)%Z ->
  negmod lhs rhs = (lhs mod rhs)%Z /\ (0 <= negmod lhs rhs < rhs)%Z.
Proof. apply negmod_mod. Qed.

Lemma row_of_lookup (m : t T) (r c : nat) :
  c < mCols m -> row_of m r !! c = at_raw m r c.
Proof. intros Hc. unfold row_of, at_raw. by apply segment_lookup. Qed.

Lemma row_of_length (m : t T) (r : nat) :
  wf m -> r < mRows m -> length (row_of m r) = mCols m.
Proof.
  intros (Hr & Hc & Hlen) Hrr. unfold row_of, size in *.
  apply segment_length. nia.
Qed.

Lemma in_wiped_all (n : Z) (len i : nat) :
  (Z.of_nat len <= Z.abs n)%Z -> i < len -> in_wiped n len i.
Proof. unfold in_wiped. lia. Qed.

(** The vertical part of [wipe]: whole rows are cleared. *)
Lemma wipe_rows_lookup (rows : Z) (R C : nat) (d : list T) (r c : nat) :
  length d = R * C -> (Z.abs rows < Z.of_nat R)%Z -> r < R -> c < C ->
  (if (rows =? 0)%Z then d
   else if (rows <? 0)%Z
        then take (R * C - Z.to_nat (Z.abs rows) * C) d
             ++ replicate (Z.to_nat (Z.abs rows) * C) zero
        else replicate (Z.to_nat (Z.abs rows) * C) zero
             ++ drop (Z.to_nat (Z.abs rows) * C) d) !! (r * C + c) =
    if decide (in_wiped rows R r) then Some zero else d !! (r * C + c).
Proof.
  intros Hlen Hrows Hr Hc. unfold in_wiped.
  set (k := Z.to_nat (Z.abs rows)).
  assert (Hk : k < R) by lia.
  destruct (Z.eqb_spec rows 0) as [->|Hnz].
  - by rewrite decide_False by lia.
  - destruct (Z.ltb_spec rows 0) as [Hneg|Hpos].
    + destruct (decide (r < R - k)) as [Hlo|Hhi].
      * rewrite lookup_app_l by (rewrite length_take; nia).
        rewrite lookup_take, decide_True by nia.
        by rewrite decide_False by lia.
      * rewrite lookup_app_r by (rewrite length_take; nia).
        rewrite lookup_replicate_2 by (rewrite length_take; nia).
        by rewrite decide_True by lia.
    + destruct (decide (r < k)) as [Hlo|Hhi].
      * rewrite lookup_app_l by (rewrite length_replicate; nia).
        rewrite lookup_replicate_2 by nia.
        by rewrite decide_True by lia.
      * rewrite lookup_app_r by (rewrite length_replicate; nia).
        rewrite length_replicate, lookup_drop.
        rewrite decide_False by lia. f_equal. nia.
Qed.

Lemma wipe_rows_length (rows : Z) (R C : nat) (d : list T) :
  length d = R * C -> (Z.abs rows < Z.of_nat R)%Z ->
  length (if (rows =? 0)%Z then d
          else if (rows <? 0)%Z
               then take (R * C - Z.to_nat (Z.abs rows) * C) d
                    ++ replicate (Z.to_nat (Z.abs rows) * C) zero
               else replicate (Z.to_nat (Z.abs rows) * C) zero
                    ++ drop (Z.to_nat (Z.abs rows) * C) d) = R * C.
Proof.
  intros Hlen Hrows.
  assert (Hk : Z.to_nat (Z.abs rows) < R) by lia.
  repeat case_match;
    rewrite ?length_app, ?length_take, ?length_drop, ?length_replicate; nia.
Qed.

Lemma wipe_cells (rows cols : Z) (m : t T) :
  wf m ->
  exists m', wipe rows cols m = Some m' /\ wf m' /\ same_shape m m' /\
    forall r c, r < mRows m -> c < mCols m ->
      at_raw m' r c =
        if decide (in_wiped rows (mRows m) r \/ in_wiped cols (mCols m) c)
        then Some zero else at_raw m r c.
Proof.
  destruct m as [R C d]. unfold wf, wipe, size, same_shape, at_raw, with_data.
  cbn [mRows mCols pData].
  intros (HR & HC & Hlen).
  destruct ((Z.of_nat R <=? Z.abs rows)%Z || (Z.of_nat C <=? Z.abs cols)%Z)
    eqn:Hguard.
  - eexists. split; [done|]. unfold wipeAll, with_data, size.
    cbn [mRows mCols pData].
    split; [by rewrite length_replicate|]. split; [done|].
    intros r c Hr Hc. rewrite lookup_replicate_2 by nia.
    rewrite decide_True; [done|].
    apply orb_true_iff in Hguard as [H1|H2].
    + left. apply in_wiped_all; [lia|done].
    + right. apply in_wiped_all; [lia|done].
  - apply orb_false_iff in Hguard as [H1 H2].
    apply Z.leb_gt in H1, H2.
    set (d1 := if (rows =? 0)%Z then d
               else if (rows <? 0)%Z
                    then take (R * C - Z.to_nat (Z.abs rows) * C) d
                         ++ replicate (Z.to_nat (Z.abs rows) * C) zero
                    else replicate (Z.to_nat (Z.abs rows) * C) zero
                         ++ drop (Z.to_nat (Z.abs rows) * C) d).
    assert (Hl1 : length d1 = R * C) by by apply wipe_rows_length.
    assert (Hd1 : forall r c, r < R -> c < C ->
              d1 !! (r * C + c) =
              if decide (in_wiped rows R r) then Some zero
              else d !! (r * C + c)).
    { intros r c Hr Hc. by apply wipe_rows_lookup. }
    destruct (Z.eqb_spec cols 0) as [->|Hnz].
    + eexists. split; [done|]. cbn [mRows mCols pData].
      split; [done|]. split; [done|].
      intros r c Hr Hc. rewrite Hd1 by done.
      assert (Hnc : ~ in_wiped 0 C c) by (unfold in_wiped; lia).
      repeat case_decide; try done; tauto.
    + destruct (rows_op_spec (fun row => Some (row_wipe cols row))
                  (row_wipe cols) (mk R C d1)) as (d' & Hd' & Hl' & Hcells).
      { done. }
      { intros row Hrow. split; [done|]. by rewrite row_wipe_length. }
      rewrite Hd'. eexists. split; [done|]. cbn [mRows mCols pData] in *.
      unfold size in Hl'. cbn [mRows mCols] in Hl'.
      split; [done|]. split; [done|].
      intros r c Hr Hc. rewrite Hcells by done.
      rewrite row_wipe_lookup by (rewrite row_of_length; done).
      rewrite row_of_length by done. cbn [mCols].
      rewrite row_of_lookup by done. unfold at_raw. cbn [mCols pData].
      rewrite Hd1 by done.
      repeat case_decide; try done; tauto.
Qed.

Lemma mod_shift_multiple (x n i : Z) :
  (0 < n)%Z -> (Z.abs x mod n = 0)%Z -> (0 <= i < n)%Z ->
  ((i - x) mod n = i)%Z.
Proof.
  intros Hn Hx Hi.
  assert (Hxm : (x mod n = 0)%Z).
  { destruct (Z.abs_spec x) as [[_ Heq]|[_ Heq]]; rewrite Heq in Hx; [done|].
    rewrite <- (Z.opp_involutive x). by apply Z.mod_opp_l_z; [lia|]. }
  rewrite Zminus_mod, Hxm, Z.sub_0_r, Z.mod_mod by lia.
  by apply Z.mod_small.
Qed.

Lemma flat_rotate_index (R C r c k : nat) :
  c < C -> 0 < R ->
  (r * C + c + k * C) mod (R * C) = ((r + k) mod R) * C + c.
Proof.
  intros Hc HR.
  pose proof (Nat.div_mod_eq (r + k) R) as Hdm.
  pose proof (Nat.mod_upper_bound (r + k) R ltac:(lia)) as Hm.
  symmetry.
  apply (Nat.mod_unique _ (R * C) ((r + k) / R)); nia.
Qed.

(** The vertical part of [rotate]: whole rows move cyclically. *)
Lemma rotate_rows_lookup (rows : Z) (R C : nat) (d : list T) (r c : nat) :
  length d = R * C -> 1 <= R -> (Z.abs rows < Z.of_nat R)%Z -> r < R -> c < C ->
  (if (rows <? 0)%Z then std_rotate (Z.to_nat (Z.abs rows) * C) d
   else std_rotate (R * C - Z.to_nat (Z.abs rows) * C) d) !! (r * C + c) =
  d !! (Z.to_nat ((Z.of_nat r - rows) mod Z.of_nat R) * C + c).
Proof.
  intros Hlen HR Hrows Hr Hc.
  set (k := Z.to_nat (Z.abs rows)).
  assert (Hk : k < R) by lia.
  destruct (Z.ltb_spec rows 0) as [Hneg|Hpos].
  - rewrite std_rotate_lookup by nia. rewrite Hlen.
    rewrite flat_rotate_index by lia. do 3 f_equal.
    apply Nat2Z.inj. rewrite Nat2Z.inj_mod, Z2Nat.id
      by (apply Z.mod_pos_bound; lia).
    f_equal. lia.
  - rewrite std_rotate_lookup by nia. rewrite Hlen.
    replace (R * C - k * C) with ((R - k) * C) by nia.
    rewrite flat_rotate_index by lia. do 3 f_equal.
    apply Nat2Z.inj. rewrite Nat2Z.inj_mod, Z2Nat.id
      by (apply Z.mod_pos_bound; lia).
    replace (Z.of_nat (r + (R - k))) with (Z.of_nat r - rows + 1 * Z.of_nat R)%Z
      by lia.
    by rewrite Z.mod_add by lia.
Qed.

Lemma rotate_cells (rows cols : Z) (m : t T) :
  wf m ->
  (Z.abs rows <= Z.of_nat (mRows m) \/
   Z.abs rows mod Z.of_nat (mRows m) = 0)%Z ->
  exists m', rotate rows cols m = Some m' /\ wf m' /\ same_shape m m' /\
    forall r c, r < mRows m -> c < mCols m ->
      at_raw m' r c =
        at_raw m (Z.to_nat ((Z.of_nat r - rows) mod Z.of_nat (mRows m)))
                 (Z.to_nat ((Z.of_nat c - cols) mod Z.of_nat (mCols m))).
Proof.
  destruct m as [R C d].
  unfold wf, rotate, size, same_shape, at_raw, with_data.
  cbn [mRows mCols pData].
  intros (HR & HC & Hlen) Hrows.
  rewrite decide_False by lia.
  (* the vertical rotation *)
  assert (Hvert : exists d1,
            (if decide (Z.abs rows mod Z.of_nat R <> 0)%Z
             then if decide (Z.to_nat (Z.abs rows) * C <= R * C)
                  then if (rows <? 0)%Z
                       then Some (std_rotate (Z.to_nat (Z.abs rows) * C) d)
                       else Some (std_rotate
                                    (R * C - Z.to_nat (Z.abs rows) * C) d)
                  else None
             else Some d) = Some d1 /\
            length d1 = R * C /\
            forall r c, r < R -> c < C ->
              d1 !! (r * C + c) =
              d !! (Z.to_nat ((Z.of_nat r - rows) mod Z.of_nat R) * C + c)).
  { destruct (decide (Z.abs rows mod Z.of_nat R <> 0)%Z) as [Hmv|Hstay].
    - assert (Hlt : (Z.abs rows < Z.of_nat R)%Z).
      { destruct Hrows as [Hle|Hz]; [|done].
        destruct (decide (Z.abs rows = Z.of_nat R)) as [Heq|]; [|lia].
        rewrite Heq, Z.mod_same in Hmv by lia. done. }
      rewrite decide_True by nia.
      exists (if (rows <? 0)%Z
              then std_rotate (Z.to_nat (Z.abs rows) * C) d
              else std_rotate (R * C - Z.to_nat (Z.abs rows) * C) d).
      split; [by destruct (rows <? 0)%Z|].
      split; [destruct (rows <? 0)%Z; by rewrite std_rotate_length|].
      intros r c Hr Hc. by apply rotate_rows_lookup.
    - exists d. split; [done|]. split; [done|].
      intros r c Hr Hc.
      rewrite mod_shift_multiple by lia. by rewrite Nat2Z.id. }
  destruct Hvert as (d1 & -> & Hl1 & Hd1).
  destruct (decide (Z.abs cols mod Z.of_nat C <> 0)%Z) as [Hmc|Hstay].
  - set (g := fun row : list T => default row (row_rotate cols row)).
    destruct (rows_op_spec (row_rotate cols) g (mk R C d1))
      as (d' & Hd' & Hl' & Hcells).
    { done. }
    { intros row Hrow. cbn [mCols] in Hrow.
      destruct (row_rotate_spec cols row) as (rt & Hrt & Hlr & _).
      { intros ->. simpl in Hrow. lia. }
      unfold g. rewrite Hrt. simpl. split; [done|]. cbn [mCols]. lia. }
    rewrite Hd'. eexists. split; [done|]. cbn [mRows mCols pData] in *.
    unfold size in Hl'. cbn [mRows mCols] in Hl'.
    split; [done|]. split; [done|].
    intros r c Hr Hc. rewrite Hcells by done.
    assert (Hrl : length (row_of (mk R C d1) r) = C)
      by (by apply row_of_length).
    destruct (row_rotate_spec cols (row_of (mk R C d1) r))
      as (rt & Hrt & Hlr & Hk).
    { intros Hnil. rewrite Hnil in Hrl. simpl in Hrl. lia. }
    unfold g. rewrite Hrt. simpl.
    rewrite Hk by lia. rewrite Hrl.
    assert (Hcc : (0 <= (Z.of_nat c - cols) mod Z.of_nat C < Z.of_nat C)%Z)
      by (apply Z.mod_pos_bound; lia).
    rewrite row_of_lookup by (cbn [mCols]; lia).
    unfold at_raw. cbn [mCols pData].
    apply Hd1; lia.
  - eexists. split; [done|]. cbn [mRows mCols pData].
    split; [done|]. split; [done|].
    intros r c Hr Hc. rewrite Hd1 by done.
    rewrite (mod_shift_multiple cols) by lia. by rewrite Nat2Z.id.
Qed.

(** Rotating by more rows than the matrix has, other than by a multiple of
    [mRows], puts the middle iterator outside the buffer. *)
Lemma rotate_outside (rows cols : Z) (m : t T) :
  wf m ->
  (Z.of_nat (mRows m) < Z.abs rows)%Z ->
  (Z.abs rows mod Z.of_nat (mRows m) <> 0)%Z ->
  rotate rows cols m = None.
Proof.
  intros (HR & HC & Hlen) Hbig Hmod. unfold rotate, size.
  rewrite decide_False by lia.
  rewrite decide_True by done.
  rewrite decide_False by nia. done.
Qed.

(** X9: [wipe(rows, cols)] on a well-formed matrix returns a matrix of the same
    shape in which a cell is cleared exactly when its row or its column is
    in the wiped region of its axis; all other cells are unchanged. *)
Theorem Map2D_wipe_region (rows cols : Z) (m : t T) :
  wf m ->
  exists m', wipe rows cols m = Some m' /\ wf m' /\ same_shape m m' /\
    forall r c, r < mRows m -> c < mCols m ->
      at_raw m' r c =
        if decide (in_wiped rows (mRows m) r \/ in_wiped cols (mCols m) c)
        then Some zero else at_raw m r c.
Proof.
  intros Hwf.
  destruct (wipe_cells rows cols m Hwf) as (m' & Hrun & Hwf' & Hshape & Hcells).
  exists m'. split; [exact Hrun|]. split; [exact Hwf'|].
  split; [exact Hshape|exact Hcells].
Qed.

(** X10: [rotate(rows, cols)] on a well-formed matrix, for [|rows| <= mRows] or
    [|rows|] a multiple of [mRows], returns a matrix of the same shape
    whose cell [(r, c)] is the old cell
    [((r - rows) mod mRows, (c - cols) mod mCols)]: rows and columns move
    cyclically and nothing is lost.  For any other [rows] the vertical
    rotation leaves the buffer and the call is undefined. *)
Theorem Map2D_rotate_cyclic (rows cols : Z) (m : t T) :
  wf m ->
  ((Z.abs rows <= Z.of_nat (mRows m) \/
    Z.abs rows mod Z.of_nat (mRows m) = 0)%Z ->
   exists m', rotate rows cols m = Some m' /\ wf m' /\ same_shape m m' /\
     forall r c, r < mRows m -> c < mCols m ->
       at_raw m' r c =
         at_raw m (Z.to_nat ((Z.of_nat r - rows) mod Z.of_nat (mRows m)))
                  (Z.to_nat ((Z.of_nat c - cols) mod Z.of_nat (mCols m)))) /\
  (~ (Z.abs rows <= Z.of_nat (mRows m) \/
      Z.abs rows mod Z.of_nat (mRows m) = 0)%Z ->
   rotate rows cols m = None).
Proof.
  intros Hwf. split.
  - intros Hrows. by apply rotate_cells.
  - intros Hout. apply rotate_outside; [done|lia|lia].
Qed.

(** X11: [shift(rows, cols)] scrolls a well-formed matrix: it always returns, the
    shape is kept, and cell [(r, c)] holds the old cell
    [(r - rows, c - cols)] when that cell exists and [T()] otherwise.  A
    shift by [mRows] rows or [mCols] columns, or more, clears the matrix. *)
Theorem Map2D_shift_scrolls (rows cols : Z) (m : t T) :
  wf m ->
  exists m', shift rows cols m = Some m' /\ wf m' /\ same_shape m m' /\
    forall r c, r < mRows m -> c < mCols m ->
      at_raw m' r c =
        if decide ((0 <= Z.of_nat r - rows < Z.of_nat (mRows m))%Z /\
                   (0 <= Z.of_nat c - cols < Z.of_nat (mCols m))%Z)
        then at_raw m (Z.to_nat (Z.of_nat r - rows))
                      (Z.to_nat (Z.of_nat c - cols))
        else Some zero.
Proof.
  intros Hwf. unfold shift.
  destruct ((Z.abs rows <? Z.of_nat (mRows m))%Z
            && (Z.abs cols <? Z.of_nat (mCols m))%Z) eqn:Hguard.
  - apply andb_true_iff in Hguard as [Hr Hc].
    apply Z.ltb_lt in Hr, Hc.
    destruct (rotate_cells rows cols m Hwf ltac:(lia))
      as (m1 & Hrot & Hwf1 & [Hs1r Hs1c] & Hcells1).
    rewrite Hrot.
    destruct (wipe_cells rows cols m1 Hwf1)
      as (m2 & Hwipe & Hwf2 & [Hs2r Hs2c] & Hcells2).
    exists m2. split; [done|]. split; [done|].
    split; [split; congruence|].
    intros r c Hrr Hcc.
    rewrite Hcells2 by lia. rewrite Hs1r, Hs1c.
    rewrite Hcells1 by done.
    unfold in_wiped.
    destruct (decide ((0 <= Z.of_nat r - rows < Z.of_nat (mRows m))%Z /\
                      (0 <= Z.of_nat c - cols < Z.of_nat (mCols m))%Z))
      as [[Hin1 Hin2]|Hout].
    + rewrite decide_False by lia.
      by rewrite !Z.mod_small by lia.
    + rewrite decide_True by lia. done.
  - apply andb_false_iff in Hguard.
    destruct (wipe_cells rows cols m Hwf)
      as (m2 & Hwipe & Hwf2 & Hshape & Hcells2).
    exists m2. split; [done|]. split; [done|]. split; [done|].
    intros r c Hrr Hcc. rewrite Hcells2 by done.
    unfold in_wiped.
    rewrite decide_True by (destruct Hguard as [H|H]; apply Z.ltb_ge in H; lia).
    rewrite decide_False by (destruct Hguard as [H|H]; apply Z.ltb_ge in H; lia).
    done.
Qed.

(** *** Reversals *)

Lemma swap_rows_length (data : list T) (a b len : nat) :
  a + len <= length data -> b + len <= length data ->
  length (swap_rows data a b len) = length data.
Proof.
  intros Ha Hb. unfold swap_rows.
  rewrite splice_length; rewrite ?splice_length; try lia;
    by rewrite segment_length by lia.
Qed.

Lemma swap_rows_lookup (data : list T) (a b len j : nat) :
  a + len <= length data -> b + len <= length data ->
  a + len <= b \/ b + len <= a ->
  swap_rows data a b len !! j =
    if decide (a <= j < a + len) then data !! (b + (j - a))
    else if decide (b <= j < b + len) then data !! (a + (j - b))
    else data !! j.
Proof.
  intros Ha Hb Hdisj. unfold swap_rows.
  assert (Hla : length (take len (drop a data)) = len)
    by (apply segment_length; lia).
  assert (Hlb : length (take len (drop b data)) = len)
    by (apply segment_length; lia).
  rewrite splice_lookup; [|by rewrite splice_length by lia|done].
  destruct (decide (b <= j < b + len)) as [Hjb|Hjb].
  - rewrite decide_False by lia. rewrite segment_lookup by lia.
    f_equal.
  - rewrite splice_lookup by done.
    destruct (decide (a <= j < a + len)) as [Hja|Hja]; [|done].
    by rewrite segment_lookup by lia.
Qed.

Lemma reverseY_loop_spec (R C : nat) n :
  forall (data : list T) row,
  1 <= C -> length data = R * C -> row + n <= R / 2 ->
  length (reverseY_loop R C data row n) = R * C /\
  forall r c, r < R -> c < C ->
    reverseY_loop R C data row n !! (r * C + c) =
      if decide (row <= r < row + n \/ row <= R - 1 - r < row + n)
      then data !! ((R - 1 - r) * C + c)
      else data !! (r * C + c).
Proof.
  induction n as [|n IH]; intros data row HC Hlen Hn; simpl.
  - split; [done|]. intros r c Hr Hc. by rewrite decide_False by lia.
  - pose proof (Nat.Div0.mul_div_le R 2) as Hhalf.
    assert (Hrow : row < R - row - 1) by lia.
    set (data1 := swap_rows data (row * C) ((R - row - 1) * C) C).
    assert (Hl1 : length data1 = R * C).
    { unfold data1. rewrite swap_rows_length; nia. }
    assert (Hd1 : forall r c, r < R -> c < C ->
              data1 !! (r * C + c) =
              if decide (r = row \/ r = R - row - 1)
              then data !! ((R - 1 - r) * C + c)
              else data !! (r * C + c)).
    { intros r c Hr Hc. unfold data1.
      rewrite swap_rows_lookup by nia.
      destruct (decide (r = row)) as [->|Hne1].
      - rewrite decide_True by nia. rewrite decide_True by lia.
        f_equal. nia.
      - rewrite decide_False by nia.
        destruct (decide (r = R - row - 1)) as [->|Hne2].
        + rewrite decide_True by nia. rewrite decide_True by lia.
          f_equal. nia.
        + rewrite decide_False by nia. by rewrite decide_False by lia. }
    destruct (IH data1 (S row) HC Hl1 ltac:(lia)) as [Hl Hcells].
    split; [done|].
    intros r c Hr Hc. rewrite Hcells by done.
    destruct (decide (S row <= r < S row + n \/
                      S row <= R - 1 - r < S row + n)) as [Hin|Hout].
    + rewrite decide_True by lia.
      rewrite Hd1 by lia. by rewrite decide_False by lia.
    + rewrite Hd1 by done.
      destruct (decide (r = row \/ r = R - row - 1)) as [Hends|Hmid].
      * by rewrite decide_True by lia.
      * by rewrite decide_False by lia.
Qed.

Lemma reverseY_cells (m : t T) :
  wf m ->
  wf (reverseY m) /\ same_shape m (reverseY m) /\
  forall r c, r < mRows m -> c < mCols m ->
    at_raw (reverseY m) r c = at_raw m (mRows m - 1 - r) c.
Proof.
  destruct m as [R C d]. unfold wf, reverseY, same_shape, at_raw, size, with_data.
  cbn [mRows mCols pData]. intros (HR & HC & Hlen).
  destruct (reverseY_loop_spec R C (R / 2) d 0 HC Hlen ltac:(lia))
    as [Hl Hcells].
  split; [done|]. split; [done|].
  intros r c Hr Hc. rewrite Hcells by done.
  pose proof (Nat.div_mod_eq R 2) as Hdm.
  pose proof (Nat.mod_upper_bound R 2 ltac:(lia)) as Hm.
  case_decide; [done|].
  assert (R - 1 - r = r) as -> by lia. done.
Qed.

Lemma reverseX_cells (m : t T) :
  wf m ->
  exists m', reverseX m = Some m' /\ wf m' /\ same_shape m m' /\
    forall r c, r < mRows m -> c < mCols m ->
      at_raw m' r c = at_raw m r (mCols m - 1 - c).
Proof.
  intros Hwf. unfold reverseX.
  destruct (rows_op_spec (fun row => Some (reverse row)) reverse m Hwf)
    as (d' & Hd' & Hl' & Hcells).
  { intros row Hrow. split; [done|]. by rewrite length_reverse. }
  rewrite Hd'. eexists. split; [done|].
  destruct Hwf as (HR & HC & Hlen).
  split; [done|]. split; [done|].
  intros r c Hr Hc. unfold at_raw at 1. cbn [with_data mCols pData].
  rewrite Hcells by done.
  assert (Hrl : length (row_of m r) = mCols m)
    by (by apply row_of_length).
  rewrite reverse_lookup by lia. rewrite Hrl.
  rewrite row_of_lookup by lia. f_equal. lia.
Qed.

(** X12: [reverseY] mirrors the rows of a well-formed matrix (row [r] becomes
    row [mRows - 1 - r]) and [reverseX] mirrors its columns; both keep the
    shape, and with an odd number of rows the middle row stays. *)
Theorem Map2D_reverseY_reverseX_mirror (m : t T) :
  wf m ->
  (wf (reverseY m) /\ same_shape m (reverseY m) /\
   forall r c, r < mRows m -> c < mCols m ->
     at_raw (reverseY m) r c = at_raw m (mRows m - 1 - r) c) /\
  (exists m', reverseX m = Some m' /\ wf m' /\ same_shape m m' /\
     forall r c, r < mRows m -> c < mCols m ->
       at_raw m' r c = at_raw m r (mCols m - 1 - c)).
Proof.
  intros Hwf. split; [by apply reverseY_cells|by apply reverseX_cells].
Qed.

(** X13: Mirroring the rows and then the columns is the reversal of the whole
    buffer: [reverseY] followed by [reverseX] equals [reverse]. *)
Theorem Map2D_reverse_composes (m : t T) :
  wf m -> reverseX (reverseY m) = Some (reverse_all m).
Proof.
  intros Hwf.
  destruct (reverseY_cells m Hwf) as (Hwfy & [Hsr Hsc] & Hy).
  destruct (reverseX_cells (reverseY m) Hwfy)
    as (m' & Hx & Hwf' & [Hsr' Hsc'] & Hcells).
  rewrite Hx. f_equal.
  destruct Hwf as (HR & HC & Hlen). destruct Hwf' as (_ & _ & Hlen').
  destruct m' as [R' C' d']. destruct m as [R C d].
  unfold reverse_all, with_data, size, at_raw in *.
  cbn [mRows mCols pData] in *. subst R' C'.
  rewrite Hsr, Hsc in *. f_equal.
  apply (cells_eq R C); [lia|by rewrite length_reverse|].
  intros r c Hr Hc.
  rewrite Hcells by done. rewrite Hy by lia.
  rewrite reverse_lookup by nia. f_equal. nia.
Qed.

(** *** Resizing *)

Lemma resizeCopy_loop_spec (src : list T) (R C0 rows cols minCols : nat) n :
  forall (pCopy : list T) row,
  length src = R * C0 -> length pCopy = rows * cols ->
  minCols <= C0 -> minCols <= cols -> row + n <= R -> row + n <= rows ->
  exists d', resizeCopy_loop src C0 pCopy cols minCols row n = Some d' /\
    length d' = rows * cols /\
    forall r c, r < rows -> c < cols ->
      d' !! (r * cols + c) =
        if decide (row <= r < row + n /\ c < minCols)
        then src !! (r * C0 + c)
        else pCopy !! (r * cols + c).
Proof.
  induction n as [|n IH]; intros pCopy row Hsrc Hdst Hm0 Hm1 HnR Hnr; simpl.
  - exists pCopy. split; [done|]. split; [done|].
    intros r c Hr Hc. by rewrite decide_False by lia.
  - destruct (copy_range_spec src pCopy (row * C0) (row * cols) minCols)
      as (d1 & Hcopy & Hl1 & Hlk1); [nia|nia|].
    rewrite Hcopy.
    destruct (IH d1 (S row)) as (d' & Hloop & Hl & Hcells); try lia.
    exists d'. split; [done|]. split; [lia|].
    intros r c Hr Hc. rewrite Hcells by done.
    destruct (decide (S row <= r < S row + n /\ c < minCols)) as [Hin|Hout].
    + by rewrite decide_True by lia.
    + rewrite Hlk1.
      destruct (decide (r = row /\ c < minCols)) as [[-> Hcm]|Hnot].
      * rewrite decide_True by nia. rewrite decide_True by lia.
        f_equal. nia.
      * assert (Hoff : ~ (row * cols <= r * cols + c < row * cols + minCols)).
        { destruct (Nat.lt_trichotomy r row) as [Hlt|[->|Hgt]].
          - assert ((r + 1) * cols <= row * cols) by nia. lia.
          - lia.
          - assert ((row + 1) * cols <= r * cols) by nia. lia. }
        rewrite decide_False by done. by rewrite decide_False by lia.
Qed.

Lemma resizeCopy_cells (rows cols : nat) (m : t T) :
  wf m -> 1 <= rows -> 1 <= cols ->
  exists m', resizeCopy rows cols m = Some m' /\ wf m' /\
    mRows m' = rows /\ mCols m' = cols /\
    forall r c, r < rows -> c < cols ->
      at_raw m' r c =
        if decide (r < mRows m /\ c < mCols m) then at_raw m r c
        else Some zero.
Proof.
  destruct m as [R C d]. unfold wf, resizeCopy, size, at_raw.
  cbn [mRows mCols pData]. intros (HR & HC & Hlen) Hrows Hcols.
  destruct (resizeCopy_loop_spec d R C rows cols (min cols C) (min rows R)
              (replicate (rows * cols) zero) 0)
    as (d' & Hloop & Hl & Hcells); rewrite ?length_replicate; try lia.
  rewrite Hloop. eexists. split; [done|]. cbn [mRows mCols pData].
  split; [done|]. split; [done|]. split; [done|].
  intros r c Hr Hc. rewrite Hcells by done.
  destruct (decide (r < R /\ c < C)) as [Hin|Hout].
  - by rewrite decide_True by lia.
  - rewrite decide_False by lia. apply lookup_replicate_2. nia.
Qed.

(** X14: [resize(choice_copy, rows, cols)] on a well-formed matrix returns a
    well-formed matrix with [|rows|] rows and [|cols|] columns, where 0
    stands for the current count.  With [choice_copy] every cell inside
    both the old and the new shape keeps its element and the rest is
    [T()]; without it every cell is [T()]. *)
Theorem Map2D_resize_keeps_overlap
    (choice_copy : bool) (rows cols : Z) (m : t T) :
  wf m ->
  exists m', resize choice_copy rows cols m = Some m' /\ wf m' /\
    mRows m' = (if decide (rows = 0%Z) then mRows m
                else Z.to_nat (Z.abs rows)) /\
    mCols m' = (if decide (cols = 0%Z) then mCols m
                else Z.to_nat (Z.abs cols)) /\
    forall r c, r < mRows m' -> c < mCols m' ->
      at_raw m' r c =
        if decide (choice_copy = true /\ r < mRows m /\ c < mCols m)
        then at_raw m r c else Some zero.
Proof.
  intros Hwf. pose proof Hwf as (HR & HC & Hlen). unfold resize.
  set (nRows := if decide (Z.to_nat (Z.abs rows) = 0) then mRows m
                else Z.to_nat (Z.abs rows)).
  set (nCols := if decide (Z.to_nat (Z.abs cols) = 0) then mCols m
                else Z.to_nat (Z.abs cols)).
  assert (HnR : nRows = if decide (rows = 0%Z) then mRows m
                        else Z.to_nat (Z.abs rows)).
  { unfold nRows. repeat case_decide; lia. }
  assert (HnC : nCols = if decide (cols = 0%Z) then mCols m
                        else Z.to_nat (Z.abs cols)).
  { unfold nCols. repeat case_decide; lia. }
  rewrite <- HnR, <- HnC.
  assert (H1R : 1 <= nRows)
    by (unfold nRows; destruct (decide (Z.to_nat (Z.abs rows) = 0)); lia).
  assert (H1C : 1 <= nCols)
    by (unfold nCols; destruct (decide (Z.to_nat (Z.abs cols) = 0)); lia).
  destruct (decide (nRows = mRows m /\ nCols = mCols m)) as [[-> ->]|Hnew].
  - destruct choice_copy.
    + exists m. split; [done|]. split; [done|]. split; [done|].
      split; [done|]. intros r c Hr Hc. by rewrite decide_True.
    + eexists. split; [done|]. unfold wipeAll, with_data, wf, size, at_raw.
      cbn [mRows mCols pData].
      split; [by rewrite length_replicate|]. split; [done|]. split; [done|].
      intros r c Hr Hc. rewrite decide_False by (intros [? _]; done).
      apply lookup_replicate_2. unfold size. nia.
  - destruct choice_copy.
    + destruct (resizeCopy_cells nRows nCols m Hwf H1R H1C)
        as (m' & Hrun & Hwf' & Hr' & Hc' & Hcells).
      exists m'. split; [done|]. split; [done|]. split; [done|].
      split; [done|]. rewrite Hr', Hc'.
      intros r c Hr Hc. rewrite Hcells by done.
      repeat case_decide; try done; tauto.
    + eexists. split; [done|]. unfold resizeWipe, wf, size, at_raw.
      cbn [mRows mCols pData].
      split; [by rewrite length_replicate|]. split; [done|]. split; [done|].
      intros r c Hr Hc. rewrite decide_False by (intros [? _]; done).
      apply lookup_replicate_2. nia.
Qed.

(** *** Transposition, cell by cell *)

(** X15: [transpose] on a well-formed matrix returns the transposed matrix: the
    dimensions are exchanged and cell [(c, r)] of the result is cell
    [(r, c)] of the original, for every shape. *)
Theorem Map2D_transpose_cells (m : t T) :
  wf m ->
  exists m', transpose m = Some m' /\ wf m' /\
    mRows m' = mCols m /\ mCols m' = mRows m /\
    forall r c, r < mRows m -> c < mCols m ->
      at_raw m' c r = at_raw m r c.
Proof.
  destruct m as [R C d]. unfold wf, size, at_raw. cbn [mRows mCols pData].
  intros (HR & HC & Hlen).
  destruct (transpose_correct R C HR HC (mk R C d))
    as (d' & Hrun & Hl & Hcells); [done..|].
  rewrite Hrun. eexists. split; [done|]. cbn [mRows mCols pData].
  split; [split; [done|split; [done|lia]]|].
  split; [done|]. split; [done|].
  intros r c Hr Hc. rewrite Hcells by nia. cbn [pData].
  f_equal. unfold successor.
  rewrite <- (Nat.mod_unique (c * R + r) R c r) by lia.
  rewrite <- (Nat.div_unique (c * R + r) R c r) by lia.
  done.
Qed.

(** *** Views *)

Lemma setView_cols_spec (base : t T) (posX offsetY : Z) (vCols : nat)
    (y : nat) n :
  forall (data : list (option nat)) x,
  x + n <= vCols -> y * vCols + vCols <= length data ->
  length (setView_cols base posX offsetY vCols data y x n) = length data /\
  forall j,
    setView_cols base posX offsetY vCols data y x n !! j =
      if decide (y * vCols + x <= j < y * vCols + x + n)
      then Some (Some (Z.to_nat offsetY * mCols base +
                       Z.to_nat (negmod (Z.of_nat (j - y * vCols) + posX)
                                        (Z.of_nat (mCols base)))))
      else data !! j.
Proof.
  induction n as [|n IH]; intros data x Hx Hlen; simpl.
  - split; [done|]. intros j. by rewrite decide_False by lia.
  - destruct (IH (<[y * vCols + x :=
                      Some (Z.to_nat offsetY * mCols base +
                            Z.to_nat (negmod (Z.of_nat x + posX)
                                             (Z.of_nat (mCols base))))]> data)
                 (S x)) as [Hl Hlk]; rewrite ?length_insert; try lia.
    split; [by rewrite Hl, length_insert|].
    intros j. rewrite Hlk.
    destruct (decide (j = y * vCols + x)) as [->|Hne].
    + rewrite decide_False by lia. rewrite decide_True by lia.
      rewrite list_lookup_insert_eq by lia.
      do 5 f_equal. lia.
    + rewrite list_lookup_insert_ne by done.
      repeat case_decide; try lia; done.
Qed.

Lemma setView_rows_spec (base : t T) (posY posX : Z) (vRows vCols : nat) n :
  forall (data : list (option nat)) y,
  y + n <= vRows -> length data = vRows * vCols ->
  length (setView_rows base posY posX vCols data y n) = length data /\
  forall r c, r < vRows -> c < vCols ->
    setView_rows base posY posX vCols data y n !! (r * vCols + c) =
      if decide (y <= r < y + n)
      then Some (Some
             (Z.to_nat (negmod (Z.of_nat r + posY) (Z.of_nat (mRows base)))
                * mCols base +
              Z.to_nat (negmod (Z.of_nat c + posX) (Z.of_nat (mCols base)))))
      else data !! (r * vCols + c).
Proof.
  induction n as [|n IH]; intros data y Hy Hlen; simpl.
  - split; [done|]. intros r c Hr Hc. by rewrite decide_False by lia.
  - destruct (setView_cols_spec base posX
                (negmod (Z.of_nat y + posY) (Z.of_nat (mRows base)))
                vCols y vCols data 0) as [Hl1 Hlk1]; [lia|nia|].
    destruct (IH (setView_cols base posX
                    (negmod (Z.of_nat y + posY) (Z.of_nat (mRows base)))
                    vCols data y 0 vCols) (S y)) as [Hl Hcells];
      [lia|lia|].
    split; [lia|].
    intros r c Hr Hc. rewrite Hcells by done.
    destruct (decide (S y <= r < S y + n)) as [Hin|Hout].
    + by rewrite decide_True by lia.
    + rewrite Hlk1.
      destruct (decide (r = y)) as [->|Hne].
      * rewrite decide_True by lia. rewrite decide_True by lia.
        do 5 f_equal. lia.
      * assert (Hoff : ~ (y * vCols + 0 <= r * vCols + c
                          < y * vCols + 0 + vCols)).
        { destruct (Nat.lt_trichotomy r y) as [Hlt|[->|Hgt]]; [|done|].
          - assert ((r + 1) * vCols <= y * vCols) by nia. lia.
          - assert ((y + 1) * vCols <= r * vCols) by nia. lia. }
        rewrite decide_False by done. by rewrite decide_False by lia.
Qed.

(** X16: A view made over a well-formed matrix has the requested dimensions
    (0 standing for the matrix's own), every one of its cells points
    inside the matrix, and cell [(y, x)] reads the matrix cell
    [((y + posY) mod mRows, (x + posX) mod mCols)]: the window wraps
    around on both axes, for negative offsets too. *)
Theorem Map2D_makeView_wraps (m : t T) (rows cols posY posX : Z) :
  wf m ->
  mRows (makeView m rows cols posY posX)
    = (if decide (rows = 0%Z) then mRows m else Z.to_nat (Z.abs rows)) /\
  mCols (makeView m rows cols posY posX)
    = (if decide (cols = 0%Z) then mCols m else Z.to_nat (Z.abs cols)) /\
  forall y x,
    y < mRows (makeView m rows cols posY posX) ->
    x < mCols (makeView m rows cols posY posX) ->
    exists elem,
      view_cell m (makeView m rows cols posY posX) y x = Some elem /\
      at_raw m (Z.to_nat ((Z.of_nat y + posY) mod Z.of_nat (mRows m)))
               (Z.to_nat ((Z.of_nat x + posX) mod Z.of_nat (mCols m)))
        = Some elem.
Proof.
  intros (HR & HC & Hlen). unfold makeView, setView, view_cell, at_raw.
  cbn [mRows mCols pData].
  set (nRows := if (rows =? 0)%Z then Z.of_nat (mRows m) else Z.abs rows).
  set (nCols := if (cols =? 0)%Z then Z.of_nat (mCols m) else Z.abs cols).
  assert (HnR : (0 < nRows)%Z)
    by (unfold nRows; destruct (Z.eqb_spec rows 0); lia).
  assert (HnC : (0 < nCols)%Z)
    by (unfold nCols; destruct (Z.eqb_spec cols 0); lia).
  destruct (Z.eqb_spec nRows 0) as [|_]; [lia|].
  destruct (Z.eqb_spec nCols 0) as [|_]; [lia|].
  assert (HvR : Z.to_nat (Z.abs nRows)
                = if decide (rows = 0%Z) then mRows m
                  else Z.to_nat (Z.abs rows)).
  { unfold nRows.
    destruct (Z.eqb_spec rows 0); destruct (decide (rows = 0%Z)); lia. }
  assert (HvC : Z.to_nat (Z.abs nCols)
                = if decide (cols = 0%Z) then mCols m
                  else Z.to_nat (Z.abs cols)).
  { unfold nCols.
    destruct (Z.eqb_spec cols 0); destruct (decide (cols = 0%Z)); lia. }
  split; [done|]. split; [done|].
  intros y x Hy Hx.
  destruct (setView_rows_spec m posY posX (Z.to_nat (Z.abs nRows))
              (Z.to_nat (Z.abs nCols)) (Z.to_nat (Z.abs nRows))
              (replicate (Z.to_nat (Z.abs nRows) * Z.to_nat (Z.abs nCols)) None)
              0) as [_ Hcells]; [lia|by rewrite length_replicate|].
  rewrite Hcells by done. rewrite decide_True by lia.
  destruct (negmod_mod (Z.of_nat y + posY) (Z.of_nat (mRows m)) ltac:(lia))
    as [-> Hby].
  destruct (negmod_mod (Z.of_nat x + posX) (Z.of_nat (mCols m)) ltac:(lia))
    as [-> Hbx].
  unfold size in Hlen.
  destruct (lookup_lt_is_Some_2 (pData m)
              (Z.to_nat ((Z.of_nat y + posY) mod Z.of_nat (mRows m)) * mCols m
               + Z.to_nat ((Z.of_nat x + posX) mod Z.of_nat (mCols m))))
    as [elem Helem].
  { pose proof (Z.mod_pos_bound (Z.of_nat y + posY) (Z.of_nat (mRows m))
                  ltac:(lia)).
    pose proof (Z.mod_pos_bound (Z.of_nat x + posX) (Z.of_nat (mCols m))
                  ltac:(lia)).
    nia. }
  exists elem. by rewrite Helem.
Qed.

End MatrixFacts.

(** *** The row and matrix statements at concrete inputs *)

Lemma RowProxy_wipe_region_witness :
  Map2D.row_wipe (HA := u8_arith) (-1) [1; 2; 3; 4]%Z !! 3 = Some 0%Z.
Proof.
  exact (proj2 (RowProxy_wipe_region (HA := u8_arith) (-1) [1; 2; 3; 4]%Z 3)
           ltac:(simpl; lia)).
Defined.

Lemma RowProxy_rotate_cyclic_witness :
  exists rotated, Map2D.row_rotate 1 [1; 2; 3; 4] = Some rotated /\
    length rotated = 4 /\
    forall i, i < 4 ->
      rotated !! i = [1; 2; 3; 4] !! Z.to_nat ((Z.of_nat i - 1) mod 4).
Proof.
  apply (RowProxy_rotate_cyclic 1 [1; 2; 3; 4]). discriminate.
Defined.

Lemma RowProxy_rotate_inverse_witness :
  exists rotated, Map2D.row_rotate (-1) [1; 2; 3; 4] = Some rotated /\
    Map2D.row_rotate (- -1) rotated = Some [1; 2; 3; 4].
Proof.
  apply (RowProxy_rotate_inverse (-1) [1; 2; 3; 4]). discriminate.
Defined.

Lemma RowProxy_shift_register_witness :
  exists shifted,
    Map2D.row_shift (HA := u8_arith) 1 [1; 2; 3; 4]%Z = Some shifted /\
    shifted !! 0 = Some 0%Z /\ shifted !! 1 = Some 1%Z.
Proof.
  destruct (RowProxy_shift_register (HA := u8_arith) 1 [1; 2; 3; 4]%Z)
    as (shifted & Hrun & _ & Hcells).
  exists shifted. split; [exact Hrun|]. split.
  - exact (Hcells 0 ltac:(simpl; lia)).
  - exact (Hcells 1 ltac:(simpl; lia)).
Defined.

Lemma RowProxy_at_checked_witness :
  exists x, Map2D.row_at [1; 2; 3; 4] (-1) = inr (Some x) /\
    [1; 2; 3; 4] !! Z.to_nat (-1 mod 4) = Some x.
Proof.
  apply (proj1 (RowProxy_at_checked [1; 2; 3; 4] (-1))). simpl. lia.
Defined.

Lemma Map2D_at_checked_bounds_witness :
  exists x,
    Map2D.at_checked (Map2D.mk 2 3 [1; 2; 3; 4; 5; 6]) (-1) (-1)
      = inr (Some x) /\
    Map2D.at_raw (Map2D.mk 2 3 [1; 2; 3; 4; 5; 6])
      (Z.to_nat (-1 mod 2)) (Z.to_nat (-1 mod 3)) = Some x.
Proof.
  apply (proj1 (Map2D_at_checked_bounds (Map2D.mk 2 3 [1; 2; 3; 4; 5; 6])
                  (-1) (-1) ltac:(repeat split; simpl; lia))).
  simpl. lia.
Defined.

Lemma Map2D_negmod_range_witness :
  Map2D.negmod (-1) 4 = (-1 mod 4)%Z /\ (0 <= Map2D.negmod (-1) 4 < 4)%Z.
Proof. apply (Map2D_negmod_range (-1) 4). lia. Defined.

Lemma Map2D_wipe_region_witness :
  exists m',
    Map2D.wipe (HA := u8_arith) 1 0 (Map2D.mk 2 2 [1; 2; 3; 4]%Z) = Some m' /\
    Map2D.at_raw m' 0 1 = Some 0%Z /\ Map2D.at_raw m' 1 1 = Some 4%Z.
Proof.
  destruct (Map2D_wipe_region (HA := u8_arith) 1 0
              (Map2D.mk 2 2 [1; 2; 3; 4]%Z))
    as (m' & Hrun & _ & _ & Hcells).
  - repeat split; simpl; lia.
  - exists m'. split; [exact Hrun|]. split.
    + exact (Hcells 0 1 ltac:(simpl; lia) ltac:(simpl; lia)).
    + exact (Hcells 1 1 ltac:(simpl; lia) ltac:(simpl; lia)).
Defined.

Lemma Map2D_rotate_cyclic_witness :
  exists m',
    Map2D.rotate 1 1 (Map2D.mk 2 2 [1; 2; 3; 4]) = Some m' /\
    Map2D.at_raw m' 0 0 = Some 4.
Proof.
  destruct (proj1 (Map2D_rotate_cyclic 1 1
                     (Map2D.mk 2 2 [1; 2; 3; 4])
                     ltac:(repeat split; simpl; lia)))
    as (m' & Hrun & _ & _ & Hcells).
  - left. simpl. lia.
  - exists m'. split; [exact Hrun|].
    exact (Hcells 0 0 ltac:(simpl; lia) ltac:(simpl; lia)).
Defined.

Lemma Map2D_shift_scrolls_witness :
  exists m',
    Map2D.shift (HA := u8_arith) 1 0 (Map2D.mk 2 2 [1; 2; 3; 4]%Z) = Some m' /\
    Map2D.at_raw m' 0 0 = Some 0%Z /\ Map2D.at_raw m' 1 0 = Some 1%Z.
Proof.
  destruct (Map2D_shift_scrolls (HA := u8_arith) 1 0
              (Map2D.mk 2 2 [1; 2; 3; 4]%Z))
    as (m' & Hrun & _ & _ & Hcells).
  - repeat split; simpl; lia.
  - exists m'. split; [exact Hrun|]. split.
    + exact (Hcells 0 0 ltac:(simpl; lia) ltac:(simpl; lia)).
    + exact (Hcells 1 0 ltac:(simpl; lia) ltac:(simpl; lia)).
Defined.

Lemma Map2D_reverseY_reverseX_mirror_witness :
  Map2D.at_raw (Map2D.reverseY (Map2D.mk 3 2 [1; 2; 3; 4; 5; 6])) 0 1
    = Some 6.
Proof.
  exact (proj2 (proj2 (proj1
           (Map2D_reverseY_reverseX_mirror
              (Map2D.mk 3 2 [1; 2; 3; 4; 5; 6])
              ltac:(repeat split; simpl; lia))))
           0 1 ltac:(simpl; lia) ltac:(simpl; lia)).
Defined.

Lemma Map2D_reverse_composes_witness :
  Map2D.reverseX (Map2D.reverseY (Map2D.mk 3 2 [1; 2; 3; 4; 5; 6]))
    = Some (Map2D.reverse_all (Map2D.mk 3 2 [1; 2; 3; 4; 5; 6])).
Proof.
  apply (Map2D_reverse_composes
           (Map2D.mk 3 2 [1; 2; 3; 4; 5; 6])).
  repeat split; simpl; lia.
Defined.

Lemma Map2D_resize_keeps_overlap_witness :
  exists m',
    Map2D.resize (HA := u8_arith) true 3 2
      (Map2D.mk 2 3 [1; 2; 3; 4; 5; 6]%Z) = Some m' /\
    Map2D.mRows m' = 3 /\ Map2D.mCols m' = 2 /\
    Map2D.at_raw m' 1 1 = Some 5%Z /\ Map2D.at_raw m' 2 0 = Some 0%Z.
Proof.
  destruct (Map2D_resize_keeps_overlap (HA := u8_arith) true 3 2
              (Map2D.mk 2 3 [1; 2; 3; 4; 5; 6]%Z))
    as (m' & Hrun & _ & Hr & Hc & Hcells).
  - repeat split; simpl; lia.
  - exists m'. split; [exact Hrun|]. split; [exact Hr|]. split; [exact Hc|].
    split.
    + exact (Hcells 1 1 ltac:(rewrite Hr; simpl; lia)
                        ltac:(rewrite Hc; simpl; lia)).
    + exact (Hcells 2 0 ltac:(rewrite Hr; simpl; lia)
                        ltac:(rewrite Hc; simpl; lia)).
Defined.

Lemma Map2D_transpose_cells_witness :
  exists m',
    Map2D.transpose (Map2D.mk 2 3 [1; 2; 3; 4; 5; 6]) = Some m' /\
    Map2D.at_raw m' 2 1 = Some 6.
Proof.
  destruct (Map2D_transpose_cells
              (Map2D.mk 2 3 [1; 2; 3; 4; 5; 6]))
    as (m' & Hrun & _ & _ & _ & Hcells).
  - repeat split; simpl; lia.
  - exists m'. split; [exact Hrun|].
    exact (Hcells 1 2 ltac:(simpl; lia) ltac:(simpl; lia)).
Defined.

Lemma Map2D_makeView_wraps_witness :
  exists elem,
    Map2D.view_cell (Map2D.mk 2 3 [1; 2; 3; 4; 5; 6])
      (Map2D.makeView (Map2D.mk 2 3 [1; 2; 3; 4; 5; 6]) 2 2 (-1) 2) 0 0
      = Some elem /\
    Map2D.at_raw (Map2D.mk 2 3 [1; 2; 3; 4; 5; 6])
      (Z.to_nat ((0 + -1) mod 2)) (Z.to_nat ((0 + 2) mod 3)) = Some elem.
Proof.
  exact (proj2 (proj2
           (Map2D_makeView_wraps
              (Map2D.mk 2 3 [1; 2; 3; 4; 5; 6]) 2 2 (-1) 2
              ltac:(repeat split; simpl; lia)))
           0 0 ltac:(simpl; lia) ltac:(simpl; lia)).
Defined.

(** ** More on rows *)

Section MapRowMoreFacts.
Context {T : Type} {HA : Arithmetic T}.
Import MapRow.



(** X18: [a += b] and [a *= b] keep the length of [a]; below the common length
    index [i] receives [a[i] + b[i]], respectively [a[i] * b[i]], and the
    elements of [a] from the common length on are unchanged. *)
Theorem MapRow_add_mul_assign_elementwise (a b : list T) (i : nat) :
  length (add_assign a b) = length a /\
  length (mul_assign a b) = length a /\
  add_assign a b !! i =
    (if decide (i < min (length a) (length b)) then combined add a b i
     else a !! i) /\
  mul_assign a b !! i =
    (if decide (i < min (length a) (length b)) then combined mul a b i
     else a !! i).
Proof.
  unfold add_assign, mul_assign.
  split; [apply elementwise_length|].
  split; [apply elementwise_length|].
  rewrite !elementwise_lookup by lia.
  split; repeat case_decide; try lia; done.
Qed.

End MapRowMoreFacts.


(** ** More on the display planes *)

Section ClearPagesFacts.
Import MemoryBanks.
Context {P C K : Type} {HP : Arithmetic P}.

Lemma row_op_at_wipeAll (plane : Map2D.t P) (h : nat) :
  Map2D.wf plane -> h < Map2D.mRows plane ->
  exists plane',
    Map2D.row_op_at Map2D.row_wipeAll h plane = Some plane' /\
    Map2D.wf plane' /\
    Map2D.mRows plane' = Map2D.mRows plane /\
    Map2D.mCols plane' = Map2D.mCols plane /\
    forall r c, c < Map2D.mCols plane ->
      Map2D.at_raw plane' r c =
        if decide (r = h) then Some zero else Map2D.at_raw plane r c.
Proof.
  intros (HR & HC & Hlen) Hh. unfold Map2D.row_op_at, Map2D.size in *.
  set (cols := Map2D.mCols plane) in *.
  assert (Hfit : h * cols + cols <= length (Map2D.pData plane)).
  { rewrite Hlen. nia. }
  rewrite decide_True by done.
  assert (Hrow : length (Map2D.row_wipeAll
                   (take cols (drop (h * cols) (Map2D.pData plane)))) = cols).
  { unfold Map2D.row_wipeAll. rewrite length_replicate.
    apply segment_length. lia. }
  eexists. split; [done|].
  split.
  { unfold Map2D.wf, Map2D.with_data, Map2D.size. cbn.
    split; [done|]. split; [done|].
    rewrite splice_length by done. done. }
  split; [done|]. split; [done|].
  intros r c Hc. unfold Map2D.at_raw, Map2D.with_data. cbn.
  fold cols. rewrite splice_lookup by done.
  destruct (decide (r = h)) as [->|Hne].
  - rewrite decide_True by lia.
    unfold Map2D.row_wipeAll. rewrite segment_length by lia.
    apply lookup_replicate_2. lia.
  - rewrite decide_False; [done|].
    destruct (Nat.lt_trichotomy r h) as [Hlt|[?|Hgt]]; [|done|].
    + assert ((r + 1) * cols <= h * cols) by nia. lia.
    + assert ((h + 1) * cols <= r * cols) by nia. lia.
Qed.

Lemma clearPages_loop_spec (planeH : Z) (fuel : nat) :
  forall (plane : Map2D.t P) (H : Z),
  Map2D.wf plane -> (0 <= H)%Z ->
  (planeH < Z.of_nat (Map2D.mRows plane))%Z -> (planeH < 2 ^ 32)%Z ->
  (planeH - H <= Z.of_nat fuel)%Z ->
  exists plane',
    clearPages_loop planeH plane H fuel = Some plane' /\
    Map2D.mRows plane' = Map2D.mRows plane /\
    Map2D.mCols plane' = Map2D.mCols plane /\
    length (Map2D.pData plane') = length (Map2D.pData plane) /\
    forall r c, c < Map2D.mCols plane ->
      Map2D.at_raw plane' r c =
        if decide (H < Z.of_nat r <= planeH)%Z then Some zero
        else Map2D.at_raw plane r c.
Proof.
  induction fuel as [|fuel IH]; intros plane H Hwf H0 HR H32 Hfuel.
  - cbn [clearPages_loop]. rewrite decide_False by lia.
    exists plane. repeat split; try done.
    intros r c _. by rewrite decide_False by lia.
  - cbn [clearPages_loop].
    destruct (decide (H < planeH)%Z) as [Hlt|Hge].
    + assert (Hw : wrap 32 (H + 1) = (H + 1)%Z).
      { unfold wrap. apply Z.mod_small. lia. }
      rewrite Hw.
      destruct (row_op_at_wipeAll plane (Z.to_nat (H + 1)) Hwf)
        as (plane1 & Hop & Hwf1 & HR1 & HC1 & Hat1); [lia|].
      rewrite Hop.
      destruct (IH plane1 (H + 1)%Z Hwf1) as (plane' & Hrun & HR' & HC' & Hl' & Hat');
        [lia| rewrite HR1; lia | done | lia |].
      exists plane'. split; [done|].
      split; [congruence|]. split; [congruence|].
      split.
      { rewrite Hl'. destruct Hwf as (_ & _ & ->).
        destruct Hwf1 as (_ & _ & ->). unfold Map2D.size. congruence. }
      intros r c Hc. rewrite Hat' by (rewrite HC1; done).
      rewrite Hat1 by done.
      destruct (decide (r = Z.to_nat (H + 1))) as [->|Hne].
      * rewrite (decide_True (P := (H < _ <= planeH)%Z)) by lia.
        by case_decide.
      * destruct (decide (H + 1 < Z.of_nat r <= planeH)%Z).
        -- by rewrite decide_True by lia.
        -- by rewrite decide_False by lia.
    + exists plane. repeat split; try done.
      intros r c _. by rewrite decide_False by lia.
Qed.

Lemma clearPages_loop_overrun (planeH : Z) (fuel : nat) :
  forall (plane : Map2D.t P) (H : Z),
  Map2D.wf plane -> (0 <= H < planeH)%Z ->
  (Z.of_nat (Map2D.mRows plane) <= planeH < 2 ^ 32)%Z ->
  clearPages_loop planeH plane H fuel = None.
Proof.
  induction fuel as [|fuel IH]; intros plane H Hwf HH HR.
  - cbn [clearPages_loop]. by rewrite decide_True by lia.
  - cbn [clearPages_loop]. rewrite decide_True by lia.
    assert (Hw : wrap 32 (H + 1) = (H + 1)%Z).
    { unfold wrap. apply Z.mod_small. lia. }
    rewrite Hw.
    destruct (decide (Z.to_nat (H + 1) < Map2D.mRows plane)) as [Hin|Hout].
    + destruct (row_op_at_wipeAll plane (Z.to_nat (H + 1)) Hwf Hin)
        as (plane1 & Hop & Hwf1 & HR1 & HC1 & _).
      rewrite Hop. apply IH; [done|lia|rewrite HR1; lia].
    + unfold Map2D.row_op_at.
      destruct Hwf as (? & ? & Hlen). unfold Map2D.size in Hlen.
      rewrite decide_False; [done|]. rewrite Hlen. nia.
Qed.

(** X19: [clearPages(H)] with the viewport height below the number of rows of
    plane 0: it returns, plane 0 keeps its shape and has rows [H + 1] to
    [vm->Plane.H], both included, zero-filled; row [H] itself and every
    other cell are as before, and so are planes 1-3 and the other
    buffers. *)
Theorem MemoryBanks_clearPages_rows
    (H planeH : Z) (mb : t P C K) (plane : Map2D.t P) :
  displayBuffer mb !! 0 = Some plane -> Map2D.wf plane ->
  (0 <= H)%Z -> (planeH < Z.of_nat (Map2D.mRows plane))%Z ->
  (planeH < 2 ^ 32)%Z ->
  exists plane',
    clearPages H planeH mb
      = Some (with_display mb (<[0 := plane']> (displayBuffer mb))) /\
    Map2D.mRows plane' = Map2D.mRows plane /\
    Map2D.mCols plane' = Map2D.mCols plane /\
    length (Map2D.pData plane') = length (Map2D.pData plane) /\
    forall r c, c < Map2D.mCols plane ->
      Map2D.at_raw plane' r c =
        if decide (H < Z.of_nat r <= planeH)%Z then Some zero
        else Map2D.at_raw plane r c.
Proof.
  intros Hp Hwf H0 HR H32. unfold clearPages.
  destruct (decide (H < planeH)%Z) as [Hlt|Hge].
  - rewrite Hp.
    destruct (clearPages_loop_spec planeH (Z.to_nat (planeH - H)) plane H)
      as (plane' & Hrun & Hrest); try done; [lia|].
    rewrite Hrun. by exists plane'.
  - exists plane. split.
    + rewrite list_insert_id by done. by destruct mb.
    + repeat split; try done.
      intros r c _. by rewrite decide_False by lia.
Qed.

(** X20: [clearPages(H)] with [H] below the viewport height and the viewport
    height not below the number of rows of plane 0: the last row written
    lies past the allocation (the loop writes row [vm->Plane.H]
    itself). *)
Theorem MemoryBanks_clearPages_overrun
    (H planeH : Z) (mb : t P C K) (plane : Map2D.t P) :
  displayBuffer mb !! 0 = Some plane -> Map2D.wf plane ->
  (0 <= H < planeH)%Z ->
  (Z.of_nat (Map2D.mRows plane) <= planeH < 2 ^ 32)%Z ->
  clearPages H planeH mb = None.
Proof.
  intros Hp Hwf HH HR. unfold clearPages.
  rewrite decide_True by lia. rewrite Hp.
  by rewrite clearPages_loop_overrun.
Qed.

End ClearPagesFacts.

Section ViewportFacts.
Import MemoryBanks.
Context {C K : Type}.
Variable w : Z.
Hypothesis Hw : (1 <= w)%Z.

Lemma xor_one_twice (e : Z) :
  (0 <= e < 2 ^ w)%Z ->
  paint (HP := unsigned_arith w) (HI := unsigned_integral w) XOR
    (paint (HP := unsigned_arith w) (HI := unsigned_integral w) XOR e) = e.
Proof.
  intros He. cbn.
  assert (Hx : (0 <= Z.lxor e 1 < 2 ^ w)%Z).
  { split; [apply Z.lxor_nonneg; lia|].
    destruct (Z.eq_dec (Z.lxor e 1) 0%Z) as [->|Hne]; [lia|].
    apply Z.log2_lt_pow2; [pose proof (Z.lxor_nonneg e 1); lia|].
    eapply Z.le_lt_trans; [apply Z.log2_lxor; lia|].
    apply Z.max_lub_lt.
    - destruct (Z.eq_dec e 0%Z) as [->|]; [cbn; lia|].
      apply Z.log2_lt_pow2; lia.
    - cbn. lia. }
  rewrite (wrap_small w (Z.lxor e 1)) by done.
  rewrite Z.lxor_assoc, Z.lxor_nilpotent, Z.lxor_0_r.
  by apply wrap_small.
Qed.

Lemma painted_xor_twice (plane : Map2D.t Z) :
  in_range w plane ->
  painted (HP := unsigned_arith w) (HI := unsigned_integral w) XOR
    (painted (HP := unsigned_arith w) (HI := unsigned_integral w) XOR plane)
  = plane.
Proof.
  intros Hr. destruct plane as [R Cc d]. unfold painted, Map2D.with_data.
  cbn [Map2D.mRows Map2D.mCols Map2D.pData]. f_equal.
  rewrite <- list_fmap_compose.
  unfold in_range in Hr. cbn [Map2D.pData] in Hr.
  induction Hr as [|e d He _ IH]; [done|].
  cbn [fmap list_fmap]. f_equal; [|exact IH].
  by apply xor_one_twice.
Qed.

(** X21: On planes of unsigned [w]-bit elements ([w >= 1]) in multicolor
    mode, the Xor viewport operation is its own inverse: applied twice
    with the same plane mask it returns both times and leaves the manager
    exactly as it was. *)
Theorem MemoryBanks_modifyViewport_xor_twice
    (vm : VM_Guest) (mb : t Z C K) :
  xochip_color vm = true ->
  length (displayBuffer mb) = 4 ->
  Forall Map2D.wf (displayBuffer mb) ->
  Forall (in_range w) (displayBuffer mb) ->
  exists mb1,
    modifyViewport (HP := unsigned_arith w) (HI := unsigned_integral w)
      XOR vm mb = Some mb1 /\
    modifyViewport (HP := unsigned_arith w) (HI := unsigned_integral w)
      XOR vm mb1 = Some mb.
Proof.
  intros Hcol Hlen Hwf Hrange. unfold modifyViewport.
  rewrite Hcol. cbn [negb].
  destruct (planes_loop_spec (HP := unsigned_arith w)
              (HI := unsigned_integral w) XOR (plane_selected vm) 4
              (displayBuffer mb) 0) as (db1 & Hrun1 & Hl1 & Hlk1);
    [lia|done|].
  rewrite Hrun1. eexists. split; [done|].
  cbn [displayBuffer with_display].
  assert (Hwf1 : Forall Map2D.wf db1).
  { apply Forall_lookup_2. intros p plane1 Hp1.
    destruct (lookup_lt_is_Some_2 (displayBuffer mb) p) as [plane Hp].
    { rewrite <- Hl1. by eapply lookup_lt_Some. }
    rewrite (Hlk1 p plane Hp) in Hp1. injection Hp1 as <-.
    assert (Map2D.wf plane) by by eapply Forall_lookup_1.
    repeat case_match; try done; by apply painted_wf. }
  destruct (planes_loop_spec (HP := unsigned_arith w)
              (HI := unsigned_integral w) XOR (plane_selected vm) 4
              db1 0) as (db2 & Hrun2 & Hl2 & Hlk2); [lia|done|].
  rewrite Hrun2.
  assert (Hback : db2 = displayBuffer mb).
  { apply list_eq. intros p.
    destruct (decide (p < length (displayBuffer mb))) as [Hin|Hout].
    - destruct (lookup_lt_is_Some_2 (displayBuffer mb) p Hin) as [plane Hp].
      pose proof (Hlk1 p plane Hp) as Hp1.
      rewrite (Hlk2 p _ Hp1), Hp. f_equal.
      assert (in_range w plane) by by eapply Forall_lookup_1.
      repeat case_match; try done.
      by apply painted_xor_twice.
    - rewrite !lookup_ge_None_2 by lia. done. }
  rewrite Hback. by destruct mb.
Qed.

End ViewportFacts.

Lemma MemoryBanks_clearPages_rows_witness :
  exists plane',
    MemoryBanks.clearPages (HP := u8_arith) 0
      1 (MemoryBanks.mk [Map2D.mk 3 2 [1; 2; 3; 4; 5; 6]%Z]
           (Map2D.mk 1 1 [0%Z]) (Map2D.mk 1 1 [0%Z]) (Map2D.mk 1 1 [0%Z]) [])
      = Some (MemoryBanks.mk [plane']
           (Map2D.mk 1 1 [0%Z]) (Map2D.mk 1 1 [0%Z]) (Map2D.mk 1 1 [0%Z]) []) /\
    Map2D.at_raw plane' 0 1 = Some 2%Z /\
    Map2D.at_raw plane' 1 1 = Some 0%Z /\
    Map2D.at_raw plane' 2 1 = Some 6%Z.
Proof.
  destruct (MemoryBanks_clearPages_rows (HP := u8_arith) 0 1
              (MemoryBanks.mk [Map2D.mk 3 2 [1; 2; 3; 4; 5; 6]%Z]
                 (Map2D.mk 1 1 [0%Z]) (Map2D.mk 1 1 [0%Z])
                 (Map2D.mk 1 1 [0%Z]) [])
              (Map2D.mk 3 2 [1; 2; 3; 4; 5; 6]%Z))
    as (plane' & Hrun & _ & _ & _ & Hat).
  - reflexivity.
  - unfold Map2D.wf, Map2D.size. simpl. lia.
  - lia.
  - simpl. lia.
  - lia.
  - exists plane'. split; [exact Hrun|].
    split; [exact (Hat 0 1 ltac:(simpl; lia))|].
    split; [exact (Hat 1 1 ltac:(simpl; lia))|].
    exact (Hat 2 1 ltac:(simpl; lia)).
Defined.

Lemma MemoryBanks_clearPages_overrun_witness :
  MemoryBanks.clearPages (HP := u8_arith) 0
    3 (MemoryBanks.mk [Map2D.mk 3 2 [1; 2; 3; 4; 5; 6]%Z]
         (Map2D.mk 1 1 [0%Z]) (Map2D.mk 1 1 [0%Z]) (Map2D.mk 1 1 [0%Z]) [])
  = None.
Proof.
  apply (MemoryBanks_clearPages_overrun (HP := u8_arith) 0 3 _
           (Map2D.mk 3 2 [1; 2; 3; 4; 5; 6]%Z)).
  - reflexivity.
  - unfold Map2D.wf, Map2D.size. simpl. lia.
  - lia.
  - simpl. lia.
Defined.

Lemma MemoryBanks_modifyViewport_xor_twice_witness :
  exists mb1,
    MemoryBanks.modifyViewport (HP := u8_arith) (HI := u8_integral)
      MemoryBanks.XOR MemoryBanks.sample_guest MemoryBanks.sample_banks
      = Some mb1 /\
    MemoryBanks.modifyViewport (HP := u8_arith) (HI := u8_integral)
      MemoryBanks.XOR MemoryBanks.sample_guest mb1
      = Some MemoryBanks.sample_banks.
Proof.
  apply (MemoryBanks_modifyViewport_xor_twice 8 ltac:(lia)
           MemoryBanks.sample_guest MemoryBanks.sample_banks).
  - reflexivity.
  - reflexivity.
  - repeat constructor.
  - unfold MemoryBanks.in_range. repeat constructor; simpl; lia.
Defined.

(** ** More on the frame pacer *)

Section FrameLimiterMoreFacts.
Import FrameLimiter.
Local Open Scope Q_scope.

Lemma fmod_whole_periods (x y : Q) :
  0 < y -> y <= x ->
  exists n : Z, (1 <= n)%Z /\ x == fmod x y + inject_Z n * y /\
    0 <= fmod x y.
Proof.
  intros Hy Hx. unfold fmod, Qtruncate.
  assert (Hq : 1 <= x / y).
  { apply Qle_shift_div_l; [done|]. lra. }
  assert (Hb : Qltb (x / y) 0 = false) by (apply Qltb_ge; lra).
  rewrite Hb. exists (Qfloor (x / y)).
  split.
  { change 1%Z with (Qfloor 1). by apply Qfloor_resp_le. }
  split; [ring|].
  pose proof (Qfloor_le (x / y)) as Hfl.
  assert (Hxy : x == (x / y) * y) by (field; lra).
  assert (Hm : inject_Z (Qfloor (x / y)) * y <= (x / y) * y).
  { apply Qmult_le_compat_r; [done|lra]. }
  rewrite <- Hxy in Hm. lra.
Qed.

Lemma clamp_mono (v v' lo hi : Q) :
  lo <= hi -> v <= v' -> clamp v lo hi <= clamp v' lo hi.
Proof.
  intros Hlh Hv. unfold clamp.
  destruct (Qltb v lo) eqn:H1; destruct (Qltb v' lo) eqn:H1';
    destruct (Qltb hi v) eqn:H2; destruct (Qltb hi v') eqn:H2';
    repeat match goal with
           | H : Qltb _ _ = true |- _ => apply Qltb_lt in H
           | H : Qltb _ _ = false |- _ => apply Qltb_ge in H
           end; lra.
Qed.

Lemma period_antitone (c c' : Q) :
  0 < c -> c <= c' -> 1000 / c' <= 1000 / c.
Proof.
  intros Hc Hcc.
  apply Qle_shift_div_r; [lra|].
  assert (Hone : 1000 / c * c == 1000) by (field; lra).
  assert (Hpos : 0 <= 1000 / c).
  { apply Qle_shift_div_l; [done|]. lra. }
  assert (Hle : 1000 / c * c <= 1000 / c * c').
  { rewrite !(Qmult_comm (1000 / c)). by apply Qmult_le_compat_r. }
  lra.
Qed.

(** X22: [setFreq] stores a period between 1 and 2000 ms: 2000 ms for
    every rate up to 0.5 Hz (zero and negative rates included), 1 ms for
    every rate from 1000 Hz on, and in between a period that does not grow
    when the rate grows.  It sets the two flags and leaves the timing
    state (time stamp, overshoot, last variation, frame counter) alone.
    (Every part is a fact that the rounding of the quotient keeps: the two
    end values are exact in binary.) *)
Theorem FrameLimiter_setFreq_period
    (framerate framerate' : Q) (firstpass lostframe : bool) (s : t) :
  1 <= timeFrequency (setFreq framerate firstpass lostframe s) <= 2000 /\
  (framerate <= 1 # 2 ->
     timeFrequency (setFreq framerate firstpass lostframe s) == 2000) /\
  (1000 <= framerate ->
     timeFrequency (setFreq framerate firstpass lostframe s) == 1) /\
  (framerate <= framerate' ->
     timeFrequency (setFreq framerate' firstpass lostframe s)
       <= timeFrequency (setFreq framerate firstpass lostframe s)) /\
  skipFirstPass (setFreq framerate firstpass lostframe s) = firstpass /\
  skipLostFrame (setFreq framerate firstpass lostframe s) = lostframe /\
  initTimeCheck (setFreq framerate firstpass lostframe s) = initTimeCheck s /\
  timeOvershoot (setFreq framerate firstpass lostframe s) = timeOvershoot s /\
  timeVariation (setFreq framerate firstpass lostframe s) = timeVariation s /\
  timePastFrame (setFreq framerate firstpass lostframe s) = timePastFrame s /\
  validFrameCnt (setFreq framerate firstpass lostframe s) = validFrameCnt s.
Proof.
  split; [apply period_range|].
  cbn [setFreq timeFrequency].
  split.
  { intros Hlo. unfold clamp.
    destruct (Qltb framerate (1 # 2)) eqn:H1; [reflexivity|].
    apply Qltb_ge in H1.
    assert (Hhi : Qltb 1000 framerate = false) by (apply Qltb_ge; lra).
    rewrite Hhi.
    assert (Heq : framerate == 1 # 2) by lra.
    rewrite Heq. reflexivity. }
  split.
  { intros Hhi. unfold clamp.
    assert (Hlo : Qltb framerate (1 # 2) = false) by (apply Qltb_ge; lra).
    rewrite Hlo.
    destruct (Qltb 1000 framerate) eqn:H2; [reflexivity|].
    apply Qltb_ge in H2.
    assert (Heq : framerate == 1000) by lra.
    rewrite Heq. reflexivity. }
  split.
  { intros Hle.
    destruct (clamp_range framerate (1 # 2) 1000) as [Hlo _]; [done|].
    apply period_antitone; [lra|].
    by apply clamp_mono. }
  repeat split.
Qed.


Lemma step_count (s : t) (k : call) :
  validFrameCnt (snd (step s k)) =
    if fst (step s k) then next_count (validFrameCnt s)
    else validFrameCnt s.
Proof.
  destruct k as [c|r f l]; [|done].
  unfold step, isValidFrame.
  destruct (skipFirstPass s); [done|].
  by destruct (Qltb _ (timeFrequency s)).
Qed.

Lemma results_run (ks : list call) :
  forall (s : t) (last : bool),
  snd (results s ks) = snd (run s last ks).
Proof.
  induction ks as [|k ks IH]; intros s last; [done|].
  cbn [results run snd]. apply IH.
Qed.

Lemma results_count (ks : list call) :
  forall (s : t),
  wrap 64 (validFrameCnt (snd (results s ks))) =
  wrap 64 (validFrameCnt s + successes (fst (results s ks))).
Proof.
  induction ks as [|k ks IH]; intros s.
  - cbn [results fst snd]. unfold successes. cbn. f_equal. lia.
  - cbn [results fst snd]. rewrite IH, step_count.
    unfold successes. destruct (fst (step s k)).
    + rewrite filter_cons_True by done. unfold next_count.
      rewrite wrap_add_l. f_equal. cbn [length]. lia.
    + by rewrite filter_cons_False by done.
Qed.

Lemma results_count_range (ks : list call) :
  forall (s : t),
  (0 <= validFrameCnt s < 2 ^ 64)%Z ->
  (0 <= validFrameCnt (snd (results s ks)) < 2 ^ 64)%Z.
Proof.
  induction ks as [|k ks IH]; intros s Hs; [done|].
  cbn [results snd]. apply IH. rewrite step_count.
  destruct (fst (step s k)); [|done].
  unfold next_count, wrap. apply Z.mod_pos_bound. lia.
Qed.

(** X24: The frame counter counts the successful checks: after any sequence of
    checks and reconfigurations it holds, modulo 2^64, its old value plus
    the number of calls that answered [true]; a failed check and a
    reconfiguration leave it alone. *)
Theorem FrameLimiter_count_successes (s : t) (last : bool) (ks : list call) :
  (0 <= validFrameCnt s < 2 ^ 64)%Z ->
  validFrameCnt (snd (run s last ks)) =
    wrap 64 (validFrameCnt s + successes (fst (results s ks))).
Proof.
  intros Hs. rewrite <- (results_run ks s last).
  rewrite <- results_count.
  symmetry. apply wrap_small. by apply results_count_range.
Qed.

(** X25: A check that succeeds on the clock stores the new time stamp,
    and the time accumulated since the last success (old overshoot plus
    elapsed time) was at least one period.  When lost frames are not
    dropped, the overshoot it keeps is not negative and not above that
    accumulated time, and it is below one period exactly when less than
    two periods had accumulated: a longer backlog stays to be caught up.
    When they are dropped, what is kept is what is left after removing a
    whole number (at least one) of periods, a value in [0, period).
    (Every part is a fact that the rounding of the sum and of the
    difference keeps; [std::fmod] is exact.) *)
Theorem FrameLimiter_success_overshoot (c : clock) (s : t) :
  skipFirstPass s = false -> 0 < timeFrequency s ->
  fst (isValidFrame c s) = true ->
  timePastFrame (snd (isValidFrame c s)) = now_stamp c /\
  timeFrequency s <= timeVariation (snd (isValidFrame c s)) /\
  (skipLostFrame s = false ->
     0 <= timeOvershoot (snd (isValidFrame c s))
       <= timeVariation (snd (isValidFrame c s)) /\
     (timeOvershoot (snd (isValidFrame c s)) < timeFrequency s <->
      timeVariation (snd (isValidFrame c s)) < 2 * timeFrequency s)) /\
  (skipLostFrame s = true ->
     exists n : Z, (1 <= n)%Z /\
       timeVariation (snd (isValidFrame c s))
         == timeOvershoot (snd (isValidFrame c s))
            + inject_Z n * timeFrequency s /\
       0 <= timeOvershoot (snd (isValidFrame c s)) < timeFrequency s).
Proof.
  intros Hfirst Hp. unfold isValidFrame. rewrite Hfirst.
  destruct (Qltb _ (timeFrequency s)) eqn:Hv; cbn [fst snd]; [done|].
  intros _. apply Qltb_ge in Hv.
  cbn [timePastFrame timeVariation timeOvershoot].
  split; [done|]. split; [done|].
  split.
  - intros ->. split; [lra|]. split; intros Hlt; lra.
  - intros ->.
    destruct (fmod_whole_periods _ _ Hp Hv) as (n & Hn & Hsum & Hge).
    exists n. split; [done|]. split; [done|].
    split; [done|]. by apply fmod_lt.
Qed.

End FrameLimiterMoreFacts.

Lemma FrameLimiter_setFreq_period_witness :
  (FrameLimiter.timeFrequency
     (FrameLimiter.setFreq (1 # 5) true true FrameLimiter.fresh) == 2000)%Q /\
  (FrameLimiter.timeFrequency
     (FrameLimiter.setFreq 60 true true FrameLimiter.fresh)
   <= FrameLimiter.timeFrequency
        (FrameLimiter.setFreq 30 true true FrameLimiter.fresh))%Q.
Proof.
  split.
  - apply (proj1 (proj2 (FrameLimiter_setFreq_period (1 # 5) 60 true true
                           FrameLimiter.fresh))).
    discriminate.
  - apply (proj1 (proj2 (proj2 (proj2
             (FrameLimiter_setFreq_period 30 60 true true
                FrameLimiter.fresh))))).
    discriminate.
Defined.


Lemma FrameLimiter_count_successes_witness :
  FrameLimiter.validFrameCnt
    (snd (FrameLimiter.run (FrameLimiter.construct 30 true true) false
            FrameLimiter.reconfigured_session)) = 3%Z.
Proof.
  rewrite (FrameLimiter_count_successes (FrameLimiter.construct 30 true true)
             false FrameLimiter.reconfigured_session).
  - reflexivity.
  - simpl. lia.
Defined.

Lemma FrameLimiter_success_overshoot_witness :
  FrameLimiter.timePastFrame
    (snd (FrameLimiter.isValidFrame (FrameLimiter.at_time 25)
            (FrameLimiter.mk true false true 10 0 0 0 0))) = 25%Q.
Proof.
  apply (proj1 (FrameLimiter_success_overshoot (FrameLimiter.at_time 25)
                  (FrameLimiter.mk true false true 10 0 0 0 0)
                  eq_refl eq_refl eq_refl)).
Defined.

(** ** More on file descriptors *)

Section VerifyFileMoreFacts.
Import HomeDirManager.
Local Open Scope string_scope.
Context {V : Type}.
Variable fs : FileSystem.
Variable debug_build : bool.

(** X26: What one call of [verifyFile] hands to the two log streams and
    asks of the validator.  A null path leaves no trace at all.  Any other
    path adds exactly one line, the attempt, to the standard log, also
    when a status query throws afterwards.  A path that passes the file
    checks reaches the validator exactly once, with its size, extension
    and digest, and adds nothing to the debug log, also when the validator
    says no.  A path whose status can be read and that fails a file check
    (among them a stream that is not good and a size that cannot be read)
    is rejected without the validator and with one call of the debug
    stream, which is one more line in a debug build and nothing otherwise;
    the descriptor is kept.  A path whose status cannot be read makes the
    call throw before anything reaches the debug stream or the
    validator. *)
Theorem HomeDirManager_verifyFile_trace
    (validate : validator V) (filepath : option string) (w : world V) :
  (filepath = None ->
     verifyFile fs debug_build validate filepath w = (returns false, w)) /\
  (forall p, filepath = Some p ->
     stdLog (snd (verifyFile fs debug_build validate filepath w))
       = (stdLog w ++ [("Attempting to access file: " ++ p)%string])%list) /\
  (forall p fileSize, filepath = Some p -> accessible fs p fileSize ->
     dbgLog (snd (verifyFile fs debug_build validate filepath w)) = dbgLog w /\
     invoked (snd (verifyFile fs debug_build validate filepath w))
       = (invoked w ++ [(fileSize, extension fs p, from_file fs p)])%list) /\
  (forall p, filepath = Some p ->
     ~ unexaminable fs p -> (forall fileSize, ~ accessible fs p fileSize) ->
     fst (verifyFile fs debug_build validate filepath w) = returns false /\
     hdm (snd (verifyFile fs debug_build validate filepath w)) = hdm w /\
     vstate (snd (verifyFile fs debug_build validate filepath w)) = vstate w /\
     invoked (snd (verifyFile fs debug_build validate filepath w)) = invoked w /\
     exists line,
       dbgLog (snd (verifyFile fs debug_build validate filepath w))
         = if debug_build then (dbgLog w ++ [line])%list else dbgLog w) /\
  (forall p, filepath = Some p -> unexaminable fs p ->
     fst (verifyFile fs debug_build validate filepath w)
       = throws_filesystem_error /\
     hdm (snd (verifyFile fs debug_build validate filepath w)) = hdm w /\
     vstate (snd (verifyFile fs debug_build validate filepath w)) = vstate w /\
     invoked (snd (verifyFile fs debug_build validate filepath w)) = invoked w /\
     dbgLog (snd (verifyFile fs debug_build validate filepath w)) = dbgLog w).
Proof.
  split; [by intros ->|].
  split.
  { intros p ->.
    destruct (path_cases fs p) as [Hun|[[fileSize Hacc]|[Hex Hno]]].
    - by rewrite (verifyFile_unexaminable fs debug_build validate p w Hun).
    - by rewrite (verifyFile_accessible fs debug_build validate p fileSize w
                    Hacc).
    - destruct (verifyFile_refused fs debug_build validate p w Hex Hno)
        as [line ->].
      unfold dbgLogOut, stdLogOut. by destruct debug_build. }
  split.
  { intros p fileSize -> Hacc.
    by rewrite (verifyFile_accessible fs debug_build validate p fileSize w
                  Hacc). }
  split.
  { intros p -> Hex Hno.
    destruct (verifyFile_refused fs debug_build validate p w Hex Hno)
      as [line ->].
    cbn [fst snd]. split; [done|].
    destruct (logged_keeps debug_build
                ("Attempting to access file: " ++ p) line w)
      as (Hh & Hv & Hi).
    split; [exact Hh|]. split; [exact Hv|]. split; [exact Hi|].
    exists line. unfold dbgLogOut, stdLogOut. by destruct debug_build. }
  intros p -> Hun.
  by rewrite (verifyFile_unexaminable fs debug_build validate p w Hun).
Qed.

(** X27: [reset] after an accepted file: path, stem, extension and digest
    are empty and the size is zero, but the file name committed by
    [verifyFile] is still held, and so is the registers directory;
    resetting again changes nothing. *)
Theorem HomeDirManager_reset_keeps_file
    (validate : validator V) (filepath : option string) (w : world V) :
  fst (verifyFile fs debug_build validate filepath w) = returns true ->
  exists p, filepath = Some p /\
    path (reset (hdm (snd (verifyFile fs debug_build validate filepath w))))
      = EmptyString /\
    name (reset (hdm (snd (verifyFile fs debug_build validate filepath w))))
      = EmptyString /\
    type (reset (hdm (snd (verifyFile fs debug_build validate filepath w))))
      = EmptyString /\
    sha1 (reset (hdm (snd (verifyFile fs debug_build validate filepath w))))
      = EmptyString /\
    size (reset (hdm (snd (verifyFile fs debug_build validate filepath w))))
      = 0%Z /\
    file (reset (hdm (snd (verifyFile fs debug_build validate filepath w))))
      = filename fs p /\
    permRegs (reset (hdm (snd (verifyFile fs debug_build validate filepath w))))
      = permRegs (hdm w) /\
    reset (reset (hdm (snd (verifyFile fs debug_build validate filepath w))))
      = reset (hdm (snd (verifyFile fs debug_build validate filepath w))).
Proof.
  intros Hok. destruct filepath as [p|]; [|done].
  exists p. split; [done|].
  destruct (path_cases fs p) as [Hun|[[fileSize Hacc]|[Hex Hno]]].
  - by rewrite (verifyFile_unexaminable fs debug_build validate p w Hun)
      in Hok.
  - rewrite (verifyFile_accessible fs debug_build validate p fileSize w Hacc)
      in *.
    cbn [fst snd hdm] in *.
    destruct (fst (validate _ _ _ _)); [done|discriminate].
  - destruct (verifyFile_refused fs debug_build validate p w Hex Hno)
      as [line Hrun].
    by rewrite Hrun in Hok.
Qed.

(** X28: The host's descriptor against the manager's, on a path whose
    stream opens and is good: [VM_Host::FileInfo::verifyFile] ends as
    [HomeDirManager::verifyFile] ends with a validator that accepts
    everything, and on acceptance both hold the same path, stem,
    extension, digest and size.  On rejection the host's descriptor and
    flag are kept and one message is added.  [FileInfo::reset], unlike
    the manager's, keeps the digest. *)
Theorem FileInfo_verifyFile_agrees
    (p : string) (h : FileInfo.host) (w : world V) :
  is_open fs p = true -> good fs p = true ->
  (forall n, file_size fs p = Some n -> (0 <= n)%Z) ->
  fst (FileInfo.verifyFile fs (Some p) h)
    = fst (verifyFile fs debug_build accept_all (Some p) w) /\
  (fst (FileInfo.verifyFile fs (Some p) h) = returns true ->
     FileInfo.path (FileInfo.File (snd (FileInfo.verifyFile fs (Some p) h)))
       = path (hdm (snd (verifyFile fs debug_build accept_all (Some p) w))) /\
     FileInfo.name (FileInfo.File (snd (FileInfo.verifyFile fs (Some p) h)))
       = name (hdm (snd (verifyFile fs debug_build accept_all (Some p) w))) /\
     FileInfo.type (FileInfo.File (snd (FileInfo.verifyFile fs (Some p) h)))
       = type (hdm (snd (verifyFile fs debug_build accept_all (Some p) w))) /\
     FileInfo.sha1 (FileInfo.File (snd (FileInfo.verifyFile fs (Some p) h)))
       = sha1 (hdm (snd (verifyFile fs debug_build accept_all (Some p) w))) /\
     FileInfo.size (FileInfo.File (snd (FileInfo.verifyFile fs (Some p) h)))
       = size (hdm (snd (verifyFile fs debug_build accept_all (Some p) w))) /\
     FileInfo.messages (snd (FileInfo.verifyFile fs (Some p) h))
       = FileInfo.messages h /\
     FileInfo.sha1 (FileInfo.File
       (FileInfo.reset (snd (FileInfo.verifyFile fs (Some p) h))))
       = from_file fs p) /\
  (fst (FileInfo.verifyFile fs (Some p) h) = returns false ->
     FileInfo.File (snd (FileInfo.verifyFile fs (Some p) h))
       = FileInfo.File h /\
     FileInfo.programLoaded (snd (FileInfo.verifyFile fs (Some p) h))
       = FileInfo.programLoaded h /\
     exists msg,
       FileInfo.messages (snd (FileInfo.verifyFile fs (Some p) h))
         = (FileInfo.messages h ++ [msg])%list).
Proof.
  intros Ho Hg Hsize. unfold FileInfo.verifyFile, verifyFile, accept_all.
  destruct (not_a_file fs p) as [[]|].
  { cbn. split; [done|]. split; [done|]. intros _. by eauto. }
  2:{ cbn. split; [done|]. split; done. }
  rewrite Ho, Hg. cbn [negb].
  destruct (file_size fs p) as [fileSize|].
  2:{ cbn. split; [done|]. split; [done|]. intros _. by eauto. }
  pose proof (Hsize fileSize eq_refl) as Hnn.
  destruct (Z.ltb_spec fileSize 1) as [Hlt|Hge].
  - assert (fileSize = 0%Z) as -> by lia.
    cbn. split; [done|]. split; [done|]. intros _. by eauto.
  - destruct (Z.eqb_spec fileSize 0) as [->|Hnz]; [lia|].
    cbn. split; [done|]. split; [|done]. intros _. done.
Qed.

End VerifyFileMoreFacts.

Lemma HomeDirManager_verifyFile_trace_witness :
  HomeDirManager.dbgLog
    (snd (HomeDirManager.verifyFile HomeDirManager.sample_fs true
            HomeDirManager.sample_validator (Some "game.ch8"%string)
            HomeDirManager.sample_world)) = [] /\
  HomeDirManager.invoked
    (snd (HomeDirManager.verifyFile HomeDirManager.sample_fs true
            HomeDirManager.sample_validator (Some "game.ch8"%string)
            HomeDirManager.sample_world))
    = [(132%Z, ".ch8"%string,
        "da39a3ee5e6b4b0d3255bfef95601890afd80709"%string)].
Proof.
  apply (proj1 (proj2 (proj2 (HomeDirManager_verifyFile_trace
           HomeDirManager.sample_fs true HomeDirManager.sample_validator
           (Some "game.ch8"%string) HomeDirManager.sample_world)))
         "game.ch8"%string 132%Z eq_refl).
  unfold HomeDirManager.accessible. simpl. repeat split. lia.
Defined.

Lemma HomeDirManager_reset_keeps_file_witness :
  exists p, Some "game.ch8"%string = Some p /\
    HomeDirManager.file
      (HomeDirManager.reset
         (HomeDirManager.hdm
            (snd (HomeDirManager.verifyFile HomeDirManager.sample_fs true
                    HomeDirManager.sample_validator (Some "game.ch8"%string)
                    HomeDirManager.sample_world))))
      = HomeDirManager.filename HomeDirManager.sample_fs p.
Proof.
  destruct (HomeDirManager_reset_keeps_file HomeDirManager.sample_fs true
              HomeDirManager.sample_validator (Some "game.ch8"%string)
              HomeDirManager.sample_world eq_refl)
    as (p & Hp & _ & _ & _ & _ & _ & Hfile & _).
  exists p. split; [exact Hp | exact Hfile].
Defined.

Lemma FileInfo_verifyFile_agrees_witness :
  fst (FileInfo.verifyFile HomeDirManager.sample_fs (Some "game.ch8"%string)
         FileInfo.sample_host)
  = fst (HomeDirManager.verifyFile HomeDirManager.sample_fs true
           HomeDirManager.accept_all (Some "game.ch8"%string)
           HomeDirManager.sample_world).
Proof.
  destruct (FileInfo_verifyFile_agrees HomeDirManager.sample_fs true
              "game.ch8"%string FileInfo.sample_host
              HomeDirManager.sample_world eq_refl eq_refl) as [Hsame _].
  - intros n Hn. simpl in Hn. injection Hn as <-. lia.
  - exact Hsame.
Defined.

(** ** The extension hash *)

Section HashFacts.
Import GameFileChecker.
Local Open Scope Z_scope.

Lemma cexprHash_range (b : bool) (str : string) :
  0 <= cexprHash b str < 2 ^ 64.
Proof.
  destruct str as [|c rest]; cbn [cexprHash]; [lia|].
  destruct (Ascii.eqb c Ascii.zero); [lia|].
  unfold wrap. apply Z.mod_pos_bound. lia.
Qed.

Lemma cexprHash_app (b : bool) (s1 s2 : string) :
  no_nul s1 = true ->
  cexprHash b (s1 ++ s2) =
    wrap 64 (cexprHash b s1
             + 31 ^ Z.of_nat (String.length s1) * cexprHash b s2).
Proof.
  induction s1 as [|c s1 IH]; intros Hn.
  - change (EmptyString ++ s2)%string with s2.
    change (String.length EmptyString) with 0%nat.
    cbn [cexprHash].
    rewrite Z.pow_0_r, Z.mul_1_l, Z.add_0_l.
    symmetry. apply wrap_small. apply cexprHash_range.
  - cbn [no_nul] in Hn. apply andb_true_iff in Hn as [Hc Hn].
    apply negb_true_iff in Hc.
    change (String c s1 ++ s2)%string with (String c (s1 ++ s2)%string).
    change (String.length (String c s1)) with (S (String.length s1)).
    cbn [cexprHash]. rewrite Hc.
    rewrite (IH Hn). unfold wrap.
    rewrite Nat2Z.inj_succ, Z.pow_succ_r by lia.
    rewrite Z.add_mod_idemp_l by lia.
    rewrite <- Z.add_mod_idemp_l by lia.
    rewrite Z.mul_mod_idemp_l by lia.
    rewrite Z.add_mod_idemp_l by lia.
    f_equal. ring.
Qed.

Lemma cexprHash_nul (b : bool) (s1 s2 : string) :
  cexprHash b (s1 ++ String Ascii.zero s2) = cexprHash b s1.
Proof.
  induction s1 as [|c s1 IH].
  - change (EmptyString ++ String Ascii.zero s2)%string
      with (String Ascii.zero s2). done.
  - change (String c s1 ++ String Ascii.zero s2)%string
      with (String c (s1 ++ String Ascii.zero s2)%string).
    cbn [cexprHash].
    destruct (Ascii.eqb c Ascii.zero); [done|]. by rewrite IH.
Qed.

(** X29: The hash of a string is a 64-bit value that ignores what follows a
    NUL, and the hash of a concatenation is, modulo 2^64, the hash of the
    first part plus 31 to the length of the first part times the hash of
    the second: the first character has weight 1 and each later one 31
    times the weight of the one before. *)
Theorem GameFileChecker_cexprHash_append (b : bool) (s1 s2 : string) :
  no_nul s1 = true ->
  0 <= cexprHash b (s1 ++ s2) < 2 ^ 64 /\
  cexprHash b (s1 ++ s2) =
    wrap 64 (cexprHash b s1
             + 31 ^ Z.of_nat (String.length s1) * cexprHash b s2) /\
  cexprHash b (s1 ++ String Ascii.zero s2) = cexprHash b s1.
Proof.
  intros Hn. split; [apply cexprHash_range|].
  split; [by apply cexprHash_app | apply cexprHash_nul].
Qed.

Lemma FileExt_value_cases (b : bool) (e : FileExt) :
  FileExt_value b e =
    match e with
    | c2x => FileExt_value false c2x | c4x => FileExt_value false c4x
    | c8x => FileExt_value false c8x | c8e => FileExt_value false c8e
    | c2h => FileExt_value false c2h | c4h => FileExt_value false c4h
    | c8h => FileExt_value false c8h | ch8 => FileExt_value false ch8
    | sc8 => FileExt_value false sc8 | mc8 => FileExt_value false mc8
    | gc8 => FileExt_value false gc8 | xo8 => FileExt_value false xo8
    | hw8 => FileExt_value false hw8 | bnc => FileExt_value false bnc
    end.
Proof. by destruct b, e. Qed.

(** X30: The fourteen enumerators of [FileExt] have fourteen different values,
    none of them zero (the hash of the empty string), whether [char] is
    signed or not; so an extension is recognised by its hash.  The hash
    itself is not injective: "n0" and "02" collide. *)
Theorem GameFileChecker_FileExt_distinct (b : bool) (e1 e2 : FileExt) :
  FileExt_value b e1 = FileExt_value b e2 ->
  e1 = e2 /\ FileExt_value b e1 <> 0 /\
  cexprHash b "n0" = cexprHash b "02".
Proof.
  intros Heq. split; [|split].
  - rewrite (FileExt_value_cases b e1), (FileExt_value_cases b e2) in Heq.
    destruct e1, e2; first [reflexivity | vm_compute in Heq; discriminate].
  - rewrite (FileExt_value_cases b e1).
    destruct e1; vm_compute; discriminate.
  - by destruct b.
Qed.

End HashFacts.

Lemma GameFileChecker_cexprHash_append_witness :
  GameFileChecker.cexprHash true ".ch8" =
    wrap 64 (GameFileChecker.cexprHash true ".c"
             + 31 ^ Z.of_nat (String.length ".c")
               * GameFileChecker.cexprHash true "h8").
Proof.
  apply (proj1 (proj2 (GameFileChecker_cexprHash_append true ".c" "h8"
                         eq_refl))).
Defined.

Lemma GameFileChecker_FileExt_distinct_witness :
  GameFileChecker.FileExt_value true GameFileChecker.ch8 <> 0%Z.
Proof.
  apply (proj1 (proj2 (GameFileChecker_FileExt_distinct true
                         GameFileChecker.ch8 GameFileChecker.ch8 eq_refl))).
Defined.
